(** * Glow effect pipeline: a shallow embedding of glow_effect.cpp and
      TRTInference.cpp, and the properties of its compositor, its
      triple-buffered mipmap pipeline, its inference workers and its video
      orchestrator.

    Conventions of the embedding.
    - [uchar] values are integers of [Z]; a narrowing conversion to
      [unsigned char] is written [uchar_cast] (reduction modulo 256).
    - [int] values are integers of [Z]; [>>] on [int] is [Z.shiftr].
    - a [cv::Mat] is a record of its row count, its column count and its
      row-major pixel buffer; [m.at(i, j)] is a lookup at [i * cols + j].
    - a raw [uchar4*] buffer is a list updated by index.
    - external collaborators (the colour conversion of OpenCV, the mipmap
      filter kernel, the inference engine, the argmax kernel) are operations
      of type classes; the CUDA runtime's answers (event queries, capture
      results) and the user's key presses are oracles passed as arguments. *)

From Stdlib Require Import ZArith Lia ZifyNat.
From stdpp Require Import base list.

Local Open Scope Z_scope.

(** ** OpenCV data *)

Module Cv.

(** [static_cast<uchar>(v)] and the implicit [int] to [uchar] narrowing. *)
Definition uchar_cast (v : Z) : Z := v mod 256.

(** [cv::Vec3b]: one BGR pixel. *)
Record Vec3b := mkVec3b { b3 : Z; g3 : Z; r3 : Z }.

(** [cv::Vec4b] and CUDA's [uchar4]: four 8-bit channels. *)
Record Vec4b := mkVec4b { c0 : Z; c1 : Z; c2 : Z; c3 : Z }.

Definition uchar4 := Vec4b.

(** [pixel[k]] *)
Definition vec_at (p : Vec4b) (k : nat) : Z :=
  match k with
  | O => c0 p
  | 1%nat => c1 p
  | 2%nat => c2 p
  | _ => c3 p
  end.

(** [pixel[k] = v] *)
Definition vec_set (p : Vec4b) (k : nat) (v : Z) : Vec4b :=
  match k with
  | O => mkVec4b v (c1 p) (c2 p) (c3 p)
  | 1%nat => mkVec4b (c0 p) v (c2 p) (c3 p)
  | 2%nat => mkVec4b (c0 p) (c1 p) v (c3 p)
  | _ => mkVec4b (c0 p) (c1 p) (c2 p) v
  end.

Definition zero4 : Vec4b := mkVec4b 0 0 0 0.

(** [cv::Mat] with pixel type [A]. *)
Record Mat (A : Type) := mkMat { rows : nat; cols : nat; data : list A }.
Arguments mkMat {A} _ _ _.
Arguments rows {A} _.
Arguments cols {A} _.
Arguments data {A} _.

(** A default-constructed [cv::Mat]. *)
Definition Mat_nil {A} : Mat A := mkMat 0 0 [].

(** [m.empty()] *)
Definition Mat_empty {A} (m : Mat A) : bool :=
  (rows m =? 0)%nat || (cols m =? 0)%nat.

(** [m.size()], as (width, height). *)
Definition Mat_size {A} (m : Mat A) : nat * nat := (cols m, rows m).

(** [m.at<A>(i, j)] *)
Definition Mat_at {A} (m : Mat A) (i j : nat) : option A :=
  data m !! (i * cols m + j)%nat.

(** [m.at<A>(i, j) = v] *)
Definition Mat_set {A} (m : Mat A) (i j : nat) (v : A) : Mat A :=
  mkMat (rows m) (cols m) (<[(i * cols m + j)%nat := v]> (data m)).

(** [cv::Mat::zeros(size, CV_8UC4)] *)
Definition Mat_zeros (r c : nat) : Mat Vec4b :=
  mkMat r c (replicate (r * c) zero4).

(** Every [cv::Mat] holds [rows * cols] pixels. *)
Definition Mat_wf {A} (m : Mat A) : Prop :=
  length (data m) = (rows m * cols m)%nat.

(** The images of the pipeline by element type. *)
Inductive Image :=
| Img8UC1 (m : Mat Z)
| Img8UC3 (m : Mat Vec3b)
| Img8UC4 (m : Mat Vec4b).

Definition channels (im : Image) : nat :=
  match im with Img8UC1 _ => 1 | Img8UC3 _ => 3 | Img8UC4 _ => 4 end.

Definition Image_empty (im : Image) : bool :=
  match im with
  | Img8UC1 m => Mat_empty m
  | Img8UC3 m => Mat_empty m
  | Img8UC4 m => Mat_empty m
  end.

Definition Image_size (im : Image) : nat * nat :=
  match im with
  | Img8UC1 m => Mat_size m
  | Img8UC3 m => Mat_size m
  | Img8UC4 m => Mat_size m
  end.

Definition size_eqb (a b : nat * nat) : bool :=
  (fst a =? fst b)%nat && (snd a =? snd b)%nat.

(** The grey value OpenCV computes from one B, G, R triple
    ([cv::COLOR_BGR2GRAY]); its fixed-point coefficients belong to the
    library. *)
Class ColorConversion := { bgr2gray : Z -> Z -> Z -> Z }.

Definition map_Mat {A B} (f : A -> B) (m : Mat A) : Mat B :=
  mkMat (rows m) (cols m) (f <$> data m).

(** [cv::cvtColor(im, out, cv::COLOR_BGR2BGRA)]: three channels gain an
    opaque alpha, four channels are kept, one channel is refused by
    OpenCV with an exception. *)
Definition cvtColor_BGR2BGRA (im : Image) : option (Mat Vec4b) :=
  match im with
  | Img8UC1 _ => None
  | Img8UC3 m => Some (map_Mat (fun p => mkVec4b (b3 p) (g3 p) (r3 p) 255) m)
  | Img8UC4 m => Some m
  end.

(** [cv::cvtColor(im, out, cv::COLOR_BGR2GRAY)] on three or four
    channels. *)
Definition cvtColor_BGR2GRAY `{ColorConversion} (im : Image) : option (Mat Z) :=
  match im with
  | Img8UC1 _ => None
  | Img8UC3 m => Some (map_Mat (fun p => bgr2gray (b3 p) (g3 p) (r3 p)) m)
  | Img8UC4 m => Some (map_Mat (fun p => bgr2gray (c0 p) (c1 p) (c2 p)) m)
  end.

End Cv.

(** ** Counted loops *)

(** [for (int i = lo; i < hi; ++i) s = body(i, s);] *)
Definition for_loop {St : Type} (lo hi : nat) (body : nat -> St -> St) (s : St) : St :=
  fold_left (fun acc i => body i acc) (seq lo (hi - lo)) s.

(** ** The compositor of glow_effect.cpp *)

Module Glow.
Import Cv.

(** *** convert_mask_to_rgba_buffer *)

(** The RGBA value written for one grey value. *)
Definition rgba_of_gray (gray_value param_KeyLevel : Z) : uchar4 :=
  if gray_value =? param_KeyLevel
  then mkVec4b gray_value gray_value gray_value 255
  else mkVec4b 0 0 0 0.

Definition convert_mask_to_rgba_buffer (mask : Mat Z) (dst : list uchar4)
    (frame_width frame_height : nat) (param_KeyLevel : Z) : list uchar4 :=
  for_loop 0 frame_height (fun i dst =>
    for_loop 0 frame_width (fun j dst =>
      match Mat_at mask i j with
      | Some gray_value =>
          <[(i * frame_width + j)%nat := rgba_of_gray gray_value param_KeyLevel]> dst
      | None => dst
      end) dst) dst.

(** *** glow_blow *)

Definition overlay_color : Vec4b := mkVec4b 128 0 128 255.

(** The overlay is returned; on the two early returns [dst_rgba] is left
    as the caller passed it. The pixel count and bounding box that the
    function prints are diagnostics only. *)
Definition glow_blow (mask : Image) (dst_rgba : Mat Vec4b)
    (param_KeyLevel Delta : Z) : Mat Vec4b :=
  if Image_empty mask then dst_rgba
  else match mask with
  | Img8UC1 m =>
      for_loop 0 (rows m) (fun i dst =>
        for_loop 0 (cols m) (fun j dst =>
          match Mat_at m i j with
          | Some mask_pixel =>
              if Z.abs (mask_pixel - param_KeyLevel) <? Delta
              then Mat_set dst i j overlay_color
              else dst
          | None => dst
          end) dst) (Mat_zeros (rows m) (cols m))
  | _ => dst_rgba
  end.

(** *** apply_mipmap_async *)

(** The kernel behind [filter_mipmap_async]: the content of the
    destination buffer once the stream has run the filter. *)
Class MipmapFilter (Scale : Type) :=
  { filter_mipmap_async : nat -> nat -> Scale -> list uchar4 -> list uchar4 }.

(** Pinned memory from [cudaMallocHost]: [n] cells of arbitrary content. *)
Definition cudaMallocHost (junk : nat -> uchar4) (n : nat) : list uchar4 :=
  junk <$> seq 0 n.

(** The source buffer [src_img] that apply_mipmap_async fills. *)
Definition mipmap_src_img (junk : nat -> uchar4) (input_gray : Mat Z)
    (param_KeyLevel : Z) : list uchar4 :=
  let width := cols input_gray in
  let height := rows input_gray in
  for_loop 0 height (fun i src_img =>
    for_loop 0 width (fun j src_img =>
      match Mat_at input_gray i j with
      | Some gray_value =>
          <[(i * width + j)%nat := rgba_of_gray gray_value param_KeyLevel]> src_img
      | None => src_img
      end) src_img) (cudaMallocHost junk (width * height)).

(** The cells [filter_mipmap_async] has written to [dst_img], from its
    first cell on, when the stream has completed the launch. *)
Definition apply_mipmap_async {Scale} `{MipmapFilter Scale} (junk : nat -> uchar4)
    (input_gray : Mat Z) (scale : Scale) (param_KeyLevel : Z) : list uchar4 :=
  filter_mipmap_async (cols input_gray) (rows input_gray) scale
    (mipmap_src_img junk input_gray param_KeyLevel).

(** *** mix_images *)

Inductive MixError := EmptyInput | SizeMismatch | CvtColorFailed.

(** [uchar alpha = (original_alpha * static_cast<int>(param_KeyScale)) >> 8;]
    [key_scale] is the integer [static_cast<int>(param_KeyScale)]. *)
Definition blend_alpha (original_alpha key_scale : Z) : Z :=
  uchar_cast (Z.shiftr (original_alpha * key_scale) 8).

(** One channel of the blend. *)
Definition blend_channel (src dst alpha : Z) : Z :=
  let temp_pixel := Z.shiftr (src * (255 - alpha) + dst * alpha) 8 in
  uchar_cast (Z.min 255 (Z.max 0 temp_pixel)).

(** The loop over [k] for one pixel. *)
Definition blend_pixel (src_pixel dst_pixel output_pixel : Vec4b) (alpha : Z) : Vec4b :=
  for_loop 0 4 (fun k output_pixel =>
    vec_set output_pixel k
      (blend_channel (vec_at src_pixel k) (vec_at dst_pixel k) alpha)) output_pixel.

(** The two loops over the pixels. *)
Definition mix_loop (src_rgba high_lighted_rgba : Mat Vec4b) (mipmap_gray : Mat Z)
    (key_scale : Z) (output_image : Mat Vec4b) : Mat Vec4b :=
  for_loop 0 (rows src_rgba) (fun i output_image =>
    for_loop 0 (cols src_rgba) (fun j output_image =>
      match Mat_at mipmap_gray i j, Mat_at src_rgba i j,
            Mat_at high_lighted_rgba i j, Mat_at output_image i j with
      | Some original_alpha, Some src_pixel, Some dst_pixel, Some output_pixel =>
          let alpha := blend_alpha original_alpha key_scale in
          Mat_set output_image i j (blend_pixel src_pixel dst_pixel output_pixel alpha)
      | _, _, _, _ => output_image
      end) output_image) output_image.

(** The function returns the blended image, or the reason it returned
    without writing [output_image]: the two error returns of the source, or
    the exception of [cv::cvtColor] on an image of one channel where a
    colour image is expected. *)
Definition mix_images `{ColorConversion} (src_img dst_rgba mipmap_result : Image)
    (key_scale : Z) : MixError + Mat Vec4b :=
  if Image_empty src_img || Image_empty dst_rgba || Image_empty mipmap_result
  then inl EmptyInput
  else if negb (size_eqb (Image_size src_img) (Image_size dst_rgba))
          || negb (size_eqb (Image_size src_img) (Image_size mipmap_result))
  then inl SizeMismatch
  else
    let src_rgba :=
      match src_img with
      | Img8UC4 m => Some m
      | _ => cvtColor_BGR2BGRA src_img
      end in
    let high_lighted_rgba :=
      match dst_rgba with
      | Img8UC4 m => Some m
      | _ => cvtColor_BGR2BGRA dst_rgba
      end in
    let mipmap_gray :=
      match mipmap_result with
      | Img8UC1 m => Some m
      | _ => cvtColor_BGR2GRAY mipmap_result
      end in
    match src_rgba, high_lighted_rgba, mipmap_gray with
    | Some src_rgba, Some high_lighted_rgba, Some mipmap_gray =>
        inr (mix_loop src_rgba high_lighted_rgba mipmap_gray key_scale src_rgba)
    | _, _, _ => inl CvtColorFailed
    end.

(** *** triple_buffered_mipmap_pipeline *)

Inductive cudaError_t := cudaSuccess | cudaErrorNotReady | cudaErrorOther.

Definition numBuffers : nat := 3.

(** The pinned buffers of the three slots and the result vector. A
    destination buffer holds what its stream leaves there on completion;
    it is read only after the slot's event reports completion. *)
Record PipeState := mkPipeState
  { tripleSrc : list (list uchar4);
    tripleDst : list (list uchar4);
    outputImages : list (Mat Vec4b) }.

(** A kernel that writes [cells] from the first cell of the pinned buffer
    [dst_img] on: the cells behind them keep their content and the buffer
    keeps its size. Cells that do not fit would be written past the end of
    the buffer, which C++ leaves undefined; they are not part of the
    buffer. *)
Definition write_front (cells dst_img : list uchar4) : list uchar4 :=
  take (length dst_img) (cells ++ drop (length cells) dst_img).

Section Pipeline.
Context {Scale : Type} `{MipmapFilter Scale}.
Variable junk : nat -> uchar4.
Variable resized_masks : list (Mat Z).
Variables frame_width frame_height : nat.
Variable default_scale : Scale.
Variable param_KeyLevel : Z.
(** [cudaEventQuery] as answered at loop step [i]. *)
Variable cudaEventQuery : nat -> cudaError_t.

Definition pipeline_init : PipeState :=
  let N := length resized_masks in
  mkPipeState
    (replicate numBuffers (cudaMallocHost junk (frame_width * frame_height)))
    (replicate numBuffers (cudaMallocHost junk (frame_width * frame_height)))
    (replicate N Mat_nil).

(** The first half of the loop body: issue mask [i] on slot [i % 3]. *)
Definition pipeline_issue (i : nat) (st : PipeState) : PipeState :=
  match resized_masks !! i with
  | Some mask =>
      let bufIdx := (i mod numBuffers)%nat in
      mkPipeState
        (alter (fun buf => convert_mask_to_rgba_buffer mask buf
                             frame_width frame_height param_KeyLevel)
           bufIdx (tripleSrc st))
        (alter (write_front
                  (apply_mipmap_async junk mask default_scale param_KeyLevel))
           bufIdx (tripleDst st))
        (outputImages st)
  | None => st
  end.

(** The second half: poll the event of slot [(i - 2) % 3]. [None] is
    the failure raised through [checkCudaErrors]. *)
Definition pipeline_harvest (i : nat) (st : PipeState) : option PipeState :=
  let N := length resized_masks in
  if (2 <=? i)%nat && (i - 2 <? N)%nat then
    let bufIdx := ((i - 2) mod numBuffers)%nat in
    match cudaEventQuery i with
    | cudaSuccess =>
        match tripleDst st !! bufIdx with
        | Some buf =>
            let mipmapResult :=
              mkMat frame_height frame_width
                (take (frame_width * frame_height) buf) in
            Some (mkPipeState (tripleSrc st) (tripleDst st)
                    (<[(i - 2)%nat := mipmapResult]> (outputImages st)))
        | None => Some st
        end
    | cudaErrorNotReady => Some st
    | cudaErrorOther => None
    end
  else Some st.

Definition pipeline_step (i : nat) (st : option PipeState) : option PipeState :=
  match st with
  | Some st => pipeline_harvest i (pipeline_issue i st)
  | None => None
  end.

(** The state after the first [n] iterations of [for (i = 0; i < N + 2; ++i)]. *)
Definition pipeline_state (n : nat) : option PipeState :=
  for_loop 0 n pipeline_step (Some pipeline_init).

Definition triple_buffered_mipmap_pipeline : option (list (Mat Vec4b)) :=
  outputImages <$> pipeline_state (length resized_masks + 2).

End Pipeline.

End Glow.

(** ** The inference workers of TRTInference.cpp *)

Module Trt.

(** The engine and the two reductions of its scores to a mask. The
    network acts on each image of a batch independently, and a successful
    [enqueueV2] returns one score map per image it was given. *)
Class Engine (Tensor Scores Mask : Type) :=
  { infer : Tensor -> Scores;
    (** [torch::max] over the classes, times [255 / 21], as 8-bit *)
    torch_max_scaled : Scores -> Mask;
    (** the kernel behind [launchArgmaxKernel] *)
    argmax_kernel : Scores -> Mask }.

(** *** The partition of a batch over the workers *)

(** [(total + numWorkers - 1) / numWorkers] *)
Definition subBatch_of (total numWorkers : nat) : nat :=
  ((total + numWorkers - 1) / numWorkers)%nat.

Definition startIdx_of (subBatch t : nat) : nat := (t * subBatch)%nat.

(** [std::min(startIdx + subBatch, totalBatch)] *)
Definition endIdx_of (total subBatch t : nat) : nat :=
  Nat.min (startIdx_of subBatch t + subBatch) total.

(** Index [i] lies in the range worker [t] loops over. *)
Definition in_range (total subBatch t i : nat) : Prop :=
  (startIdx_of subBatch t <= i < endIdx_of total subBatch t)%nat.

(** *** measure_segmentation_trt_performance_mul_concurrent *)

Section MulConcurrent.
Context {Tensor Scores Mask : Type} `{Engine Tensor Scores Mask}.
(** Whether [createExecutionContext] and [enqueueV2] succeed in thread [t]. *)
Variable createExecutionContext_ok : nat -> bool.
Variable enqueueV2_ok : nat -> bool.

Definition numThreads : nat := 2.

(** [img_tensor_batch.slice(0, startIdx, endIdx)] *)
Definition slice (l : list Tensor) (startIdx endIdx : nat) : list Tensor :=
  take (endIdx - startIdx) (drop startIdx l).

(** Pad the sub-batch to have exactly 4 images if needed. *)
Definition pad_sub_batch (subTensor : list Tensor) : list Tensor :=
  if (length subTensor <? 4)%nat then
    match last subTensor with
    | Some lastFrame =>
        let pad := (4 - length subTensor)%nat in
        subTensor ++ replicate pad lastFrame
    | None => subTensor
    end
  else subTensor.

(** The conversion loop: [localResults.push_back(imagePost[i])]. *)
Definition local_results (imagePost : list Mask) (validCount : nat) : list Mask :=
  for_loop 0 validCount (fun i localResults =>
    match imagePost !! i with
    | Some single => localResults ++ [single]
    | None => localResults
    end) [].

(** The locked loop: [allResults[startIdx + i] = localResults[i]]. *)
Definition store_results (localResults : list Mask) (startIdx validCount : nat)
    (allResults : list (option Mask)) : list (option Mask) :=
  for_loop 0 validCount (fun i allResults =>
    match localResults !! i with
    | Some r => <[(startIdx + i)%nat := Some r]> allResults
    | None => allResults
    end) allResults.

(** The sub-batch a thread feeds to the engine and the masks it keeps. *)
Definition thread_batch (img_tensor_batch : list Tensor) (subBatch t : nat)
    : list Tensor :=
  let totalBatch := length img_tensor_batch in
  pad_sub_batch (slice img_tensor_batch (startIdx_of subBatch t)
                   (endIdx_of totalBatch subBatch t)).

(** What a thread has done when it ends: the sub-batch it copied to the
    device and ran the engine on, if it got that far, its [localResults],
    and the shared [allResults] as it leaves it. *)
Record ThreadRun := mkThreadRun
  { tr_subTensor : option (list Tensor);
    tr_localResults : list Mask;
    tr_allResults : list (option Mask) }.

(** The body of thread [t]; [None] is [exit(EXIT_FAILURE)]. An empty
    [cv::Mat] is [None] in [allResults]. *)
Definition thread_run (img_tensor_batch : list Tensor) (subBatch t : nat)
    (allResults : list (option Mask)) : option ThreadRun :=
  if negb (createExecutionContext_ok t) then Some (mkThreadRun None [] allResults)
  else
  let totalBatch := length img_tensor_batch in
  let startIdx := startIdx_of subBatch t in
  let endIdx := endIdx_of totalBatch subBatch t in
  let validCount := (endIdx - startIdx)%nat in
  if (endIdx <=? startIdx)%nat then Some (mkThreadRun None [] allResults) else
  let subTensor := thread_batch img_tensor_batch subBatch t in
  if negb (enqueueV2_ok t) then None else
  let outputTensor := infer <$> subTensor in
  let imagePost := torch_max_scaled <$> outputTensor in
  let localResults := local_results imagePost validCount in
  Some (mkThreadRun (Some subTensor) localResults
          (store_results localResults startIdx validCount allResults)).

(** The thread as the other threads and the caller see it: its effect on
    the shared [allResults]. *)
Definition worker_thread (img_tensor_batch : list Tensor) (subBatch t : nat)
    (allResults : list (option Mask)) : option (list (option Mask)) :=
  tr_allResults <$> thread_run img_tensor_batch subBatch t allResults.

(** The threads publish their results under [resultMutex]; [schedule]
    is the order in which they get there. *)
Definition run_threads (schedule : list nat) (img_tensor_batch : list Tensor)
    : option (list (option Mask)) :=
  let totalBatch := length img_tensor_batch in
  let subBatch := subBatch_of totalBatch numThreads in
  foldl (fun allResults t =>
           allResults ≫= worker_thread img_tensor_batch subBatch t)
    (Some (replicate totalBatch None)) schedule.

Definition measure_segmentation_trt_performance_mul_concurrent
    (img_tensor_batch : list Tensor) : option (list (option Mask)) :=
  run_threads (seq 0 numThreads) img_tensor_batch.

End MulConcurrent.

(** *** Post-processing with a captured graph *)

(** Device memory: what each live allocation holds. *)
Inductive DevBuf (Scores Mask : Type) :=
| ScoresBuf (s : Scores)
| MaskBuf (m : Mask)
| Uninitialised.
Arguments ScoresBuf {Scores Mask} _.
Arguments MaskBuf {Scores Mask} _.
Arguments Uninitialised {Scores Mask}.

(** A captured kernel node: the device pointers it was recorded with. *)
Record GraphNode := mkGraphNode { node_src : nat; node_dst : nat }.

(** [postprocessGraph], [postprocessGraphExec] and [postGraphCaptured]. *)
Record GraphState := mkGraphState
  { postprocessGraph : option GraphNode;
    postprocessGraphExec : option GraphNode;
    postGraphCaptured : bool }.

Definition graph_uncaptured : GraphState := mkGraphState None None false.

(** How the three capture calls answer. *)
Inductive CaptureOutcome :=
| BeginCaptureFails
| EndCaptureFails
| InstantiateFails
| CaptureSucceeds.

(** What [checkCudaErrors] does with an error code. helper_cuda.h is not
    part of the sources. The project takes it from the CUDA samples (the
    include path of glow_effect.vcxproj), whose macro prints the error and
    calls [exit(EXIT_FAILURE)]: [CheckExits]. [CheckThrows] is a macro that
    raises an exception a handler for [std::exception] catches, which the
    [try] blocks around the calls are written for. *)
Inductive CheckPolicy := CheckExits | CheckThrows.

Section PostProcess.
Context {Tensor Scores Mask : Type} `{Engine Tensor Scores Mask}.

Definition DevMem := nat -> option (DevBuf Scores Mask).

Definition mem_write (mem : DevMem) (a : nat) (b : DevBuf Scores Mask) : DevMem :=
  fun a' => if (a' =? a)%nat then Some b else mem a'.

(** [launchArgmaxKernel(src, dst, ...)] executed on the stream. A launch
    whose source holds no scores writes nothing defined. *)
Definition launchArgmaxKernel (src dst : nat) (mem : DevMem) : DevMem :=
  match mem src with
  | Some (ScoresBuf s) => mem_write mem dst (MaskBuf (argmax_kernel s))
  | _ => mem
  end.

(** [enqueueV2] followed by the stream synchronisation. *)
Definition enqueueV2 (img : Tensor) (d_output : nat) (mem : DevMem) : DevMem :=
  mem_write mem d_output (ScoresBuf (infer img)).

(** The [try] block of measure_segmentation_trt_performance_single_batch_parallel:
    every failing call throws [std::runtime_error], the handler destroys
    the partial graph objects. While capturing, the kernel launch is
    recorded, not run. *)
Definition try_capture (cap : CaptureOutcome) (d_output d_argmax_output : nat)
    (g : GraphState) : GraphState :=
  if postGraphCaptured g then g
  else match cap with
  | CaptureSucceeds =>
      let node := mkGraphNode d_output d_argmax_output in
      mkGraphState (Some node) (Some node) true
  | BeginCaptureFails | EndCaptureFails | InstantiateFails =>
      mkGraphState None None (postGraphCaptured g)
  end.

(** Execute post-processing (with graph if available, or regular
    execution). *)
Definition run_postprocess (launch_ok : bool) (d_output d_argmax_output : nat)
    (g : GraphState) (mem : DevMem) : DevMem :=
  match postGraphCaptured g, postprocessGraphExec g with
  | true, Some node =>
      if launch_ok
      then launchArgmaxKernel (node_src node) (node_dst node) mem
      else launchArgmaxKernel d_output d_argmax_output mem
  | _, _ => launchArgmaxKernel d_output d_argmax_output mem
  end.

End PostProcess.

End Trt.

(** ** The orchestrator: glow_effect_video *)

Module Video.

Section Orchestrator.
Context {Frame Tensor Mask Out : Type}.
(** GPU resize and [ImageProcessingUtil::process_img] of one frame. *)
Variable process_img : Frame -> Tensor.
(** The mask the segmentation future holds for one tensor of its
    sub-batch. *)
Variable segment : Tensor -> Mask.
(** Mask resize, glow_blow, the mipmap pipeline, mix_images and the
    blank substitute, for the slot [original_frames[i]] and the mask
    [grayscale_masks[i]]. A slot is absent when the vector has no such
    element; C++ leaves that read undefined, the write that follows is
    kept in the model. *)
Variable composite : option Frame -> option Mask -> Out.
(** Whether [cv::waitKey] returns ['q'] at the [k]-th displayed frame. *)
Variable quit : nat -> bool.

Definition back {A} (l : list A) : option A := last l.

(** The state of the reading loop: the source, the two vectors, and
    whether the [break] was taken. *)
Record ReadState := mkReadState
  { rs_video : list Frame;
    rs_batch_frames : list Tensor;
    rs_original_frames : list Frame;
    rs_broken : bool }.

(** One iteration of [for (int i = 0; i < 8; ++i)]. *)
Definition read_frame (_ : nat) (rs : ReadState) : ReadState :=
  if rs_broken rs then rs
  else match rs_video rs with
  | [] =>
      match back (rs_batch_frames rs), back (rs_original_frames rs) with
      | Some t, Some f =>
          mkReadState [] (rs_batch_frames rs ++ [t])
            (rs_original_frames rs ++ [f]) false
      | _, _ => mkReadState [] (rs_batch_frames rs) (rs_original_frames rs) true
      end
  | frame :: video =>
      mkReadState video (rs_batch_frames rs ++ [process_img frame])
        (rs_original_frames rs ++ [frame]) false
  end.

(** [while (batch_frames.size() < 8)], at most eight rounds. *)
Definition pad_batch (rs : ReadState) : ReadState :=
  for_loop 0 8 (fun _ rs =>
    if (length (rs_batch_frames rs) <? 8)%nat then
      match back (rs_batch_frames rs), back (rs_original_frames rs) with
      | Some t, Some f =>
          mkReadState (rs_video rs) (rs_batch_frames rs ++ [t])
            (rs_original_frames rs ++ [f]) (rs_broken rs)
      | _, _ => rs
      end
    else rs) rs.

Definition read_batch (video : list Frame) : ReadState :=
  for_loop 0 8 read_frame (mkReadState video [] [] false).

(** The sink, the number of frames displayed so far, and whether the
    [goto cleanup] was taken. *)
Record EmitState := mkEmitState
  { sink : list Out; shown : nat; stopped : bool }.

(** The blend-display-write loop of one sub-batch; [offset] is 0 for
    the first sub-batch and 4 for the second. *)
Definition drain (offset : nat) (grayscale_masks : list Mask)
    (original_frames : list Frame) (es : EmitState) : EmitState :=
  for_loop 0 4 (fun i es =>
    if stopped es then es
    else
      let final_result :=
        composite (original_frames !! (i + offset)%nat) (grayscale_masks !! i) in
      if quit (shown es)
      then mkEmitState (sink es) (S (shown es)) true
      else mkEmitState (sink es ++ [final_result]) (S (shown es)) false) es.

Definition drain_future (offset : nat) (segFuture : option (list Mask))
    (original_frames : list Frame) (es : EmitState) : EmitState :=
  match segFuture with
  | Some grayscale_masks => drain offset grayscale_masks original_frames es
  | None => es
  end.

Record LoopState := mkLoopState
  { ls_video : list Frame;
    ls_original_frames : list Frame;
    segFuture1 : option (list Mask);
    segFuture2 : option (list Mask);
    ls_emit : EmitState }.

(** [while (video.isOpened())]; the result carries the state at the
    loop's exit, [None] when [fuel] iterations were not enough. *)
Fixpoint video_loop (fuel : nat) (st : LoopState) : option LoopState :=
  match fuel with
  | O => None
  | S fuel =>
      let rs := read_batch (ls_video st) in
      match rs_batch_frames rs with
      | [] =>
          Some (mkLoopState (rs_video rs) (rs_original_frames rs)
                  (segFuture1 st) (segFuture2 st) (ls_emit st))
      | _ :: _ =>
          let rs := pad_batch rs in
          let batch_frames := rs_batch_frames rs in
          let original_frames := rs_original_frames rs in
          let es := drain_future 0 (segFuture1 st) original_frames (ls_emit st) in
          if stopped es
          then Some (mkLoopState (rs_video rs) original_frames None
                       (segFuture2 st) es)
          else
            let es := drain_future 4 (segFuture2 st) original_frames es in
            if stopped es
            then Some (mkLoopState (rs_video rs) original_frames None None es)
            else
              video_loop fuel
                (mkLoopState (rs_video rs) original_frames
                   (Some (segment <$> take 4 batch_frames))
                   (Some (segment <$> drop 4 batch_frames)) es)
      end
  end.

(** After the loop: [if (segFutureValid1)] and [if (segFutureValid2)],
    with the sink as the result. *)
Definition final_drain (st : LoopState) : list Out :=
  let es := ls_emit st in
  if stopped es then sink es
  else
    let es := drain_future 0 (segFuture1 st) (ls_original_frames st) es in
    if stopped es then sink es
    else
      let es := drain_future 4 (segFuture2 st) (ls_original_frames st) es in
      sink es.

(** The frames handed to [output_video.write], in order. *)
Definition glow_effect_video (video : list Frame) : option (list Out) :=
  final_drain <$>
    video_loop (S (length video))
      (mkLoopState video [] None None (mkEmitState [] 0 false)).

End Orchestrator.

End Video.

(** ** The specification's wording, and concrete collaborators *)

Module SpecWords.

(** The blend weight as the specification words it:
    [(mipmapLuma * intensityScale) >> 8], clamped to [0, 255]. *)
Definition spec_weight (mipmapLuma intensityScale : Z) : Z :=
  Z.min 255 (Z.max 0 (Z.shiftr (mipmapLuma * intensityScale) 8)).

End SpecWords.

Module Examples.
Import Cv Glow Trt.

(** A fixed-point BT.601 luma. *)
Definition bt601 : ColorConversion :=
  {| bgr2gray b g r := Z.shiftr (b * 1868 + g * 9617 + r * 4899 + 8192) 14 |}.

(** A filter that hands its source buffer through. *)
Definition copy_filter : MipmapFilter unit :=
  {| filter_mipmap_async _ _ _ src := src |}.

(** An engine on numbers: scores and masks are tagged copies of the
    input. *)
Definition toy_engine : Engine nat nat nat :=
  {| infer x := (x + 100)%nat;
     torch_max_scaled s := (s * 2)%nat;
     argmax_kernel s := (s * 3)%nat |}.

Definition frame_1x1 : Mat Vec3b := mkMat 1 1 [mkVec3b 10 20 30].
Definition black_1x1 : Mat Vec3b := mkMat 1 1 [mkVec3b 0 0 0].
Definition mask_1x1 : Mat Z := mkMat 1 1 [56].
Definition white_mipmap_1x1 : Image := Img8UC4 (mkMat 1 1 [mkVec4b 255 255 255 255]).

Definition no_junk : nat -> uchar4 := fun _ => zero4.

End Examples.

(** ** Notions used in the statements *)

Module Notions.
Import Cv Glow Trt Video.

(** *** Writes to a row-major buffer *)

Section Writes.
Context {A : Type}.
(** The row width, and the value cell [(i, j)] receives if the loop body
    writes it. *)
Variable c : nat.
Variable w : nat -> nat -> option A.

(** One iteration of the inner loop, one row, all rows. *)
Definition write_cell (i j : nat) (d : list A) : list A :=
  match w i j with
  | Some v => <[(i * c + j)%nat := v]> d
  | None => d
  end.

Definition write_row (n i : nat) (d : list A) : list A :=
  for_loop 0 n (write_cell i) d.

Definition write_rows (r : nat) (d : list A) : list A :=
  for_loop 0 r (write_row c) d.

(** A cell after an attempted write. *)
Definition cell_after (old wv : option A) : option A :=
  match wv with
  | Some v => (fun _ => v) <$> old
  | None => old
  end.

End Writes.

(** *** The compositor *)

(** Pixels of an overlay that are not fully transparent. *)
Definition count_visible (m : Mat Vec4b) : nat :=
  length (filter (fun q => c3 q <> 0) (data m)).

(** What glow_blow writes at [(i, j)], if anything. *)
Definition glow_w (m : Mat Z) (key delta : Z) (i j : nat) : option Vec4b :=
  match Mat_at m i j with
  | Some p => if Z.abs (p - key) <? delta then Some overlay_color else None
  | None => None
  end.

(** The overlay pixel of a mask value. *)
Definition glow_px (key delta p : Z) : Vec4b :=
  if Z.abs (p - key) <? delta then overlay_color else zero4.

(** What the two conversion loops write at [(i, j)]. *)
Definition rgba_w (mask : Mat Z) (key : Z) (i j : nat) : option uchar4 :=
  (fun g => rgba_of_gray g key) <$> Mat_at mask i j.

(** An image holds [rows * cols] pixels. *)
Definition Image_wf (im : Image) : Prop :=
  match im with
  | Img8UC1 m => Mat_wf m
  | Img8UC3 m => Mat_wf m
  | Img8UC4 m => Mat_wf m
  end.

(** The four channels the loop over [k] leaves in the output pixel. *)
Definition blend_px (s d : Vec4b) (alpha : Z) : Vec4b :=
  mkVec4b (blend_channel (c0 s) (c0 d) alpha) (blend_channel (c1 s) (c1 d) alpha)
          (blend_channel (c2 s) (c2 d) alpha) (blend_channel (c3 s) (c3 d) alpha).

(** What mix_images writes at [(i, j)], if anything. *)
Definition mix_w (src hl : Mat Vec4b) (gray : Mat Z) (key_scale : Z) (i j : nat)
    : option Vec4b :=
  match Mat_at gray i j, Mat_at src i j, Mat_at hl i j with
  | Some a, Some s, Some d => Some (blend_px s d (blend_alpha a key_scale))
  | _, _, _ => None
  end.

(** The grey image mix_images reads the blend weights from. *)
Definition mipmap_gray_of `{ColorConversion} (mipmap_result : Image) : Mat Z :=
  match mipmap_result with
  | Img8UC1 m => m
  | Img8UC3 m => map_Mat (fun p => bgr2gray (b3 p) (g3 p) (r3 p)) m
  | Img8UC4 m => map_Mat (fun p => bgr2gray (c0 p) (c1 p) (c2 p)) m
  end.

(** The output keeps the three colour channels of the frame at every
    pixel: the round trip as the specification words it. *)
Definition channels_preserved (frame : Mat Vec3b) (out : Mat Vec4b) : Prop :=
  forall i j p, Mat_at frame i j = Some p ->
    exists q, Mat_at out i j = Some q /\
              c0 q = b3 p /\ c1 q = g3 p /\ c2 q = r3 p.

(** The channels of a pixel are 8-bit values. *)
Definition uchar_px (p : Vec3b) : Prop :=
  0 <= b3 p <= 255 /\ 0 <= g3 p <= 255 /\ 0 <= r3 p <= 255.

(** *** The mipmap pipeline *)

Section PipelineNotions.
Context {Scale : Type} `{MipmapFilter Scale}.
Variable junk : nat -> uchar4.
Variable resized_masks : list (Mat Z).
Variables frame_width frame_height : nat.
Variable default_scale : Scale.
Variable param_KeyLevel : Z.
Variable cudaEventQuery : nat -> cudaError_t.

(** The cells the filter launched for mask [k] writes to its
    destination. *)
Definition job (k : nat) : list uchar4 :=
  match resized_masks !! k with
  | Some mask => apply_mipmap_async junk mask default_scale param_KeyLevel
  | None => []
  end.

(** A destination buffer as [cudaMallocHost] returns it. *)
Definition fresh_buffer : list uchar4 :=
  cudaMallocHost junk (frame_width * frame_height).

(** The buffer of slot [r] once the masks [r], [r + 3], ..., [r + 3 * n]
    have been issued on it, one over the other. *)
Fixpoint slot_chain (n r : nat) : list uchar4 :=
  match n with
  | O => write_front (job r) fresh_buffer
  | S n' => write_front (job (r + 3 * S n')%nat) (slot_chain n' r)
  end.

(** The buffer of slot [k mod 3] once mask [k] has been issued. *)
Definition slot_after (k : nat) : list uchar4 :=
  slot_chain (k / 3) (k mod 3).

(** What that slot held before mask [k] was issued. *)
Definition slot_before (k : nat) : list uchar4 :=
  if decide (k < 3)%nat then fresh_buffer else slot_after (k - 3).

(** The result slot [k] after the poll of step [k + 2]. *)
Definition harvested (k : nat) : Mat Vec4b :=
  match cudaEventQuery (k + 2)%nat with
  | cudaSuccess =>
      mkMat frame_height frame_width
        (take (frame_width * frame_height) (slot_after k))
  | _ => Mat_nil
  end.

(** The invariant of the loop after [n] steps. *)
Definition pipe_inv (n : nat) (st : PipeState) : Prop :=
  length (tripleDst st) = 3%nat /\
  length (outputImages st) = length resized_masks /\
  (forall k, (k < Nat.min n (length resized_masks))%nat ->
   (Nat.min n (length resized_masks) <= k + 3)%nat ->
     tripleDst st !! (k mod 3)%nat = Some (slot_after k)) /\
  (forall r, (r < 3)%nat -> (Nat.min n (length resized_masks) <= r)%nat ->
     tripleDst st !! r = Some fresh_buffer) /\
  (forall k, (k < length resized_masks)%nat ->
     outputImages st !! k
     = Some (if decide (k + 2 < n)%nat then harvested k else Mat_nil)).

End PipelineNotions.

(** *** The workers *)

(** The mask of one image. *)
Definition seg_one {Tensor Scores Mask : Type} `{Engine Tensor Scores Mask}
    (x : Tensor) : Mask := torch_max_scaled (infer x).

(** *** The orchestrator *)

Section VideoNotions.
Context {Frame Tensor Mask : Type}.

(** A batch of at most eight frames, filled up with its last frame. *)
Definition pad8 (chunk : list Frame) : list Frame :=
  match last chunk with
  | Some l => chunk ++ replicate (8 - length chunk) l
  | None => chunk
  end.

(** The whole video, filled up to a multiple of eight with its last
    frame. *)
Definition padded (video : list Frame) : list Frame :=
  match last video with
  | Some l => video ++ replicate ((8 - length video mod 8) mod 8) l
  | None => []
  end.

(** The slots [original_frames[0..7]] as a drain reads them. *)
Definition bases8 (original_frames : list Frame) : list (option Frame) :=
  (fun i => original_frames !! i) <$> seq 0 8.

(** The mask of one frame. *)
Definition mask_of (process_img : Frame -> Tensor) (segment : Tensor -> Mask)
    (f : Frame) : Mask := segment (process_img f).

(** The futures as the loop keeps them: none, or the two halves of the
    eight masks of the previous batch. *)
Definition pending_ok (pm : option (list Mask)) : Prop :=
  match pm with Some l => length l = 8%nat | None => True end.

(** The masks the futures hold. *)
Definition pending_masks (pm : option (list Mask)) : list Mask :=
  match pm with Some l => l | None => [] end.

End VideoNotions.

End Notions.

(** ** The other functions of glow_effect.cpp *)

Module GlowMore.
Import Cv Glow.

(** *** visualize_segmentation_regions *)

(** [cv::cvtColor(im, out, cv::COLOR_BGRA2BGR)]: four channels lose their
    alpha, three channels are kept, one channel is refused by OpenCV with
    an exception. *)
Definition cvtColor_BGRA2BGR (im : Image) : option (Mat Vec3b) :=
  match im with
  | Img8UC1 _ => None
  | Img8UC3 m => Some m
  | Img8UC4 m => Some (map_Mat (fun p => mkVec3b (c0 p) (c1 p) (c2 p)) m)
  end.

(** [pixel[k] = pixel[k] * 0.5 + 255 * 0.5;] and [pixel[k] = pixel[k] * 0.5;]
    The product and the sum are exact in [double]; the assignment to the
    [uchar] drops the fraction. *)
Definition half_to_white (v : Z) : Z := Z.quot (v + 255) 2.

Definition half (v : Z) : Z := Z.quot v 2.

(** The 50% blend with cyan of one pixel. *)
Definition highlight_pixel (pixel : Vec3b) : Vec3b :=
  mkVec3b (half_to_white (b3 pixel)) (half_to_white (g3 pixel)) (half (r3 pixel)).

(** The image handed to [cv::imshow]; [None] is the exception of
    [cv::cvtColor] on a frame of one channel. *)
Definition visualize_segmentation_regions (original_frame : Image) (mask : Mat Z)
    (param_KeyLevel Delta : Z) : option (Mat Vec3b) :=
  let visualization :=
    match original_frame with
    | Img8UC3 m => Some m
    | _ => cvtColor_BGRA2BGR original_frame
    end in
  match visualization with
  | Some visualization =>
      Some (for_loop 0 (rows mask) (fun i visualization =>
              for_loop 0 (cols mask) (fun j visualization =>
                match Mat_at mask i j with
                | Some mask_pixel =>
                    if Z.abs (mask_pixel - param_KeyLevel) <? Delta
                    then match Mat_at visualization i j with
                         | Some pixel =>
                             Mat_set visualization i j (highlight_pixel pixel)
                         | None => visualization
                         end
                    else visualization
                | None => visualization
                end) visualization) visualization)
  | None => None
  end.

(** *** apply_mipmap, the synchronous version *)

(** The kernel behind [filter_mipmap]: the content of the destination
    buffer when the call returns. *)
Class MipmapFilterSync (Scale : Type) :=
  { filter_mipmap : nat -> nat -> Scale -> list uchar4 -> list uchar4 }.

(** [new uchar4[n]] and the storage of [cv::Mat::create]: [n] cells of
    arbitrary content. *)
Definition new_array (junk : nat -> uchar4) (n : nat) : list uchar4 :=
  junk <$> seq 0 n.

(** The function returns [output_image]; on the early return it is left
    as the caller passed it. *)
Definition apply_mipmap {Scale} `{MipmapFilterSync Scale} (junk : nat -> uchar4)
    (input_gray : Image) (output_image : Mat Vec4b) (scale : Scale)
    (param_KeyLevel : Z) : Mat Vec4b :=
  match input_gray with
  | Img8UC1 input_gray =>
      let width := cols input_gray in
      let height := rows input_gray in
      let src_img :=
        for_loop 0 height (fun i src_img =>
          for_loop 0 width (fun j src_img =>
            match Mat_at input_gray i j with
            | Some gray_value =>
                <[(i * width + j)%nat := rgba_of_gray gray_value param_KeyLevel]> src_img
            | None => src_img
            end) src_img) (new_array junk (width * height)) in
      let dst_img := filter_mipmap width height scale src_img in
      for_loop 0 height (fun i output_image =>
        for_loop 0 width (fun j output_image =>
          match dst_img !! (i * width + j)%nat with
          | Some value =>
              Mat_set output_image i j
                (mkVec4b (c0 value) (c1 value) (c2 value) (c3 value))
          | None => output_image
          end) output_image)
        (mkMat height width (new_array junk (height * width)))
  | _ => output_image
  end.

(** *** glow_effect_image *)

(** [static_cast<float>(n)] of an [int] [n], also the implicit conversion
    of an [int] argument to a [float] parameter: the nearest value with a
    significand of 24 bits, ties to the even significand. The value is an
    integer. *)
Definition float_of_int (n : Z) : Z :=
  let a := Z.abs n in
  if a <? 2 ^ 24 then n
  else
    let ulp := 2 ^ (Z.log2 a - 23) in
    let q := a / ulp in
    let r := a mod ulp in
    let q' :=
      if 2 * r <? ulp then q
      else if ulp <? 2 * r then q + 1
      else if Z.even q then q else q + 1 in
    Z.sgn n * (q' * ulp).

(** The [int] global [param_KeyScale] as the body of mix_images reads it:
    converted to the [float] parameter at the call, and back by
    [static_cast<int>], which is exact on an integer within the range of
    [int]. From [2^31 - 64] on the [float] is [2^31], which no [int] holds;
    the callers' values are far below. *)
Definition key_scale_in_mix_images (param_KeyScale : Z) : Z :=
  float_of_int param_KeyScale.

(** The image handed to [cv::imshow]: the blend, or the default-constructed
    [final_result] that mix_images left untouched. [None] is the return
    taken when the source image could not be loaded. [cv::imread] gives
    three channels. *)
Definition glow_effect_image `{ColorConversion} {Scale} `{MipmapFilterSync Scale}
    (junk : nat -> uchar4) (src_img : Mat Vec3b) (grayscale_mask : Image)
    (param_KeyLevel param_KeyScale : Z) (default_scale : Scale)
    : option (Mat Vec4b) :=
  if Mat_empty src_img then None
  else
    let dst_rgba := glow_blow grayscale_mask Mat_nil param_KeyLevel 10 in
    let mipmap_result :=
      apply_mipmap junk grayscale_mask Mat_nil default_scale param_KeyLevel in
    match mix_images (Img8UC3 src_img) (Img8UC4 dst_rgba) (Img8UC4 mipmap_result)
            (key_scale_in_mix_images param_KeyScale) with
    | inr final_result => Some final_result
    | inl _ => Some Mat_nil
    end.

End GlowMore.

(** ** Masks from class labels *)

Module Seg.
Import Cv.

(** [int scaleFactor = 255 / 21;] *)
Definition scaleFactor : Z := 255 / 21.

(** One pixel of [(segMask * scaleFactor)[i].to(torch::kU8)]: the class
    index is scaled and narrowed to 8 bits. *)
Definition image_post (class_index : Z) : Z := uchar_cast (class_index * scaleFactor).

(** The grey mask of one image from its map of class indices. *)
Definition mask_of_labels (segMask : Mat Z) : Mat Z := map_Mat image_post segMask.

End Seg.

(** ** Further notions used in the statements *)

Module MoreNotions.
Import Cv Glow GlowMore.

(** *** Loops that update cells of a row-major buffer in place *)

Section Alters.
Context {A : Type}.
(** The row width, and the update the loop body applies to cell
    [(i, j)]. *)
Variable c : nat.
Variable f : nat -> nat -> A -> A.

Definition alter_cell (i j : nat) (d : list A) : list A :=
  alter (f i j) (i * c + j)%nat d.

Definition alter_row (n i : nat) (d : list A) : list A :=
  for_loop 0 n (alter_cell i) d.

Definition alter_rows (r : nat) (d : list A) : list A :=
  for_loop 0 r (alter_row c) d.

End Alters.

(** The four channels of a pixel are 8-bit values. *)
Definition uchar4_px (q : Vec4b) : Prop :=
  0 <= c0 q <= 255 /\ 0 <= c1 q <= 255 /\ 0 <= c2 q <= 255 /\ 0 <= c3 q <= 255.

(** A blended channel lies between its two inputs, less one, and below
    white. *)
Definition blended_between (s d q : Z) : Prop :=
  Z.min s d - 1 <= q <= Z.max s d /\ q <= 254.

(** A channel as the blend computes it for the weight [alpha]:
    [(s * (255 - alpha) + d * alpha) / 256], a value that the range check
    [std::min(255, std::max(0, temp_pixel))] and the narrowing to [uchar]
    leave as it is. *)
Definition blended_exactly (s d alpha q : Z) : Prop :=
  q = (s * (255 - alpha) + d * alpha) / 256 /\
  Z.min 255 (Z.max 0 (Z.shiftr (s * (255 - alpha) + d * alpha) 8))
  = Z.shiftr (s * (255 - alpha) + d * alpha) 8 /\
  uchar_cast (Z.shiftr (s * (255 - alpha) + d * alpha) 8)
  = Z.shiftr (s * (255 - alpha) + d * alpha) 8.

(** What visualize_segmentation_regions does to a pixel under a mask
    value. *)
Definition vis_px (key delta g : Z) (p : Vec3b) : Vec3b :=
  if Z.abs (g - key) <? delta then highlight_pixel p else p.

(** The update of cell [(i, j)] in visualize_segmentation_regions. *)
Definition vis_f (mask : Mat Z) (key delta : Z) (i j : nat) (p : Vec3b) : Vec3b :=
  match Mat_at mask i j with
  | Some g => vis_px key delta g p
  | None => p
  end.

(** The RGBA image of a mask that both versions of apply_mipmap hand to
    the filter. *)
Definition rgba_image (mask : Mat Z) (key : Z) : list uchar4 :=
  (fun g => rgba_of_gray g key) <$> data mask.

(** The grey value mix_images reads from a four-channel mipmap pixel. *)
Definition luma `{ColorConversion} (v : Vec4b) : Z := bgr2gray (c0 v) (c1 v) (c2 v).

End MoreNotions.

(** ** The post-processing of one sub-batch in glow_effect_video *)

Module SubBatch.
Import Cv Glow.

Section PostProcessing.
Context `{ColorConversion} {Scale : Type} `{MipmapFilter Scale}.
(** [cv::resize(mask, resized_mask, size)]; [None] is its
    [cv::Exception]. *)
Variable resize : Mat Z -> nat * nat -> option (Mat Z).
Variable junk : nat -> uchar4.
(** [CAP_PROP_FRAME_WIDTH] and [CAP_PROP_FRAME_HEIGHT] as the capture
    reports them, 0 when it does not know. *)
Variables frame_width frame_height : nat.
Variable default_scale : Scale.
Variable param_KeyLevel : Z.
(** [static_cast<int>(param_KeyScale)] as mix_images computes it from its
    [float] parameter. *)
Variable key_scale : Z.
Variable cudaEventQuery : nat -> cudaError_t.

(** [cv::Size defaultSize((frame_width > 0) ? frame_width : 640,
    (frame_height > 0) ? frame_height : 360);] *)
Definition defaultSize : nat * nat :=
  (if (0 <? frame_width)%nat then frame_width else 640%nat,
   if (0 <? frame_height)%nat then frame_height else 360%nat).

(** [cv::Mat(size, type, scalar)] *)
Definition Mat_filled {A} (size : nat * nat) (scalar : A) : Mat A :=
  mkMat (snd size) (fst size) (replicate (snd size * fst size) scalar).

(** [cv::Mat(defaultSize, CV_8UC4, cv::Scalar(0, 0, 0, 255))] *)
Definition blank_output : Mat Vec4b := Mat_filled defaultSize (mkVec4b 0 0 0 255).

Definition targetSize (original_frame : Mat Vec3b) : nat * nat :=
  if Mat_empty original_frame then defaultSize else Mat_size original_frame.

(** The first loop: the mask resized to the frame, or a blank mask when
    [cv::resize] throws. *)
Definition resized_mask (original_frame : Mat Vec3b) (grayscale_mask : Mat Z)
    : Mat Z :=
  match resize grayscale_mask (targetSize original_frame) with
  | Some resized_mask => resized_mask
  | None => Mat_filled (targetSize original_frame) 0
  end.

(** The second loop. When glow_blow returns early, [dst_rgba] is still
    the default-constructed image, of one channel, and
    [cv::cvtColor(dst_rgba, dst_rgba, cv::COLOR_BGR2RGBA)] raises on the
    empty image: [None]. *)
Definition glow_blow_result (resized_mask : Mat Z) : option (Mat Vec4b) :=
  if Mat_empty resized_mask then None
  else Some (glow_blow (Img8UC1 resized_mask) Mat_nil param_KeyLevel 10).

(** The body of the third loop up to [cv::imshow]: the blend, replaced by
    a blank frame when mix_images left [final_result] empty. [None] is the
    exception of [cv::cvtColor] inside mix_images. *)
Definition final_result (original_frame : Mat Vec3b) (glow_blow_result : Mat Vec4b)
    (mipmap_result : Mat Vec4b) : option (Mat Vec4b) :=
  match mix_images (Img8UC3 original_frame) (Img8UC4 glow_blow_result)
          (Img8UC4 mipmap_result) key_scale with
  | inr final_result =>
      Some (if Mat_empty final_result then blank_output else final_result)
  | inl CvtColorFailed => None
  | inl _ => Some blank_output
  end.

(** The frames one sub-batch hands to [cv::imshow], from its four frames
    and its four masks; [None] is an exception or the end of the
    process. *)
Definition process_sub_batch (original_frames : list (Mat Vec3b))
    (grayscale_masks : list (Mat Z)) : option (list (Mat Vec4b)) :=
  let resized_masks_batch := zip_with resized_mask original_frames grayscale_masks in
  glow_blow_results ← mapM glow_blow_result resized_masks_batch;
  mipmap_results ←
    triple_buffered_mipmap_pipeline junk resized_masks_batch frame_width
      frame_height default_scale param_KeyLevel cudaEventQuery;
  mapM (fun x => final_result x.1.1 x.1.2 x.2)
    (zip (zip original_frames glow_blow_results) mipmap_results).

End PostProcessing.

End SubBatch.

(** ** The other workers of TRTInference.cpp *)

Module TrtMore.
Import Trt.

(** Calls guarded by [checkCudaErrors] (stream creation, allocations,
    copies, synchronisation) are taken to succeed, except where an oracle
    says otherwise. *)

(** *** measure_segmentation_trt_performance_mul_concurrent_graph *)

Section GraphWorker.
Context {Tensor Scores Mask : Type} `{Engine Tensor Scores Mask}.
Variable policy : CheckPolicy.
Variable createExecutionContext_ok : nat -> bool.
(** Whether the warm-up calls of [enqueueV2] and the timed call succeed
    in thread [t]. *)
Variable warmup_ok : nat -> bool.
Variable enqueueV2_ok : nat -> bool.
(** How the capture calls answer in thread [t], and whether
    [cudaGraphLaunch] succeeds. *)
Variable capture : nat -> CaptureOutcome.
Variable cudaGraphLaunch_ok : nat -> bool.

(** The [try] block around the capture: [useGraph], or [None] when
    [checkCudaErrors] ends the process. *)
Definition capture_graph (t : nat) : option bool :=
  match capture t with
  | CaptureSucceeds => Some true
  | BeginCaptureFails | EndCaptureFails | InstantiateFails =>
      match policy with
      | CheckExits => None
      | CheckThrows => Some false
      end
  end.

(** The argmax kernel on the scores of the padded sub-batch, through the
    graph or launched directly. A failed [cudaGraphLaunch] goes through
    [checkCudaErrors] outside any handler: [None]. *)
Definition postprocess (t : nat) (useGraph : bool) (outputs : list Scores)
    : option (list Mask) :=
  if useGraph then
    if cudaGraphLaunch_ok t then Some (argmax_kernel <$> outputs) else None
  else Some (argmax_kernel <$> outputs).

(** The body of thread [t], as its effect on the shared [allResults]. A
    failed [enqueueV2] jumps to [cleanup] and leaves [allResults] as it
    was; [None] is the end of the process. *)
Definition graph_worker_thread (img_tensor_batch : list Tensor) (subBatch t : nat)
    (allResults : list (option Mask)) : option (list (option Mask)) :=
  if negb (createExecutionContext_ok t) then Some allResults else
  let totalBatch := length img_tensor_batch in
  let startIdx := startIdx_of subBatch t in
  let endIdx := endIdx_of totalBatch subBatch t in
  let validCount := (endIdx - startIdx)%nat in
  if (endIdx <=? startIdx)%nat then Some allResults else
  let subTensor := thread_batch img_tensor_batch subBatch t in
  if negb (warmup_ok t) then Some allResults else
  useGraph ← capture_graph t;
  if negb (enqueueV2_ok t) then Some allResults else
  h_argmax_output ← postprocess t useGraph (infer <$> subTensor);
  let localResults := local_results h_argmax_output validCount in
  Some (store_results localResults startIdx validCount allResults).

Definition run_graph_threads (schedule : list nat) (img_tensor_batch : list Tensor)
    : option (list (option Mask)) :=
  let totalBatch := length img_tensor_batch in
  let subBatch := subBatch_of totalBatch numThreads in
  foldl (fun allResults t =>
           allResults ≫= graph_worker_thread img_tensor_batch subBatch t)
    (Some (replicate totalBatch None)) schedule.

Definition measure_segmentation_trt_performance_mul_concurrent_graph
    (img_tensor_batch : list Tensor) : option (list (option Mask)) :=
  run_graph_threads (seq 0 numThreads) img_tensor_batch.

End GraphWorker.

(** *** measure_segmentation_trt_performance_single_batch_parallel and
        its variant with a preloaded engine *)

(** What a slot of [results] holds: the empty image it was constructed
    as, or the bytes copied back from [d_argmax_output]. *)
Inductive HostMask (Scores Mask : Type) :=
| EmptyMat
| CopiedFrom (content : option (DevBuf Scores Mask)).
Arguments EmptyMat {Scores Mask}.
Arguments CopiedFrom {Scores Mask} _.

(** The state a worker carries from image to image: its graph, the
    device memory, and the shared [results]. *)
Record WorkerState (Scores Mask : Type) := mkWorkerState
  { ws_graph : GraphState;
    ws_mem : nat -> option (DevBuf Scores Mask);
    ws_results : list (HostMask Scores Mask) }.
Arguments mkWorkerState {Scores Mask} _ _ _.
Arguments ws_graph {Scores Mask} _.
Arguments ws_mem {Scores Mask} _.
Arguments ws_results {Scores Mask} _.

Section SingleBatchParallel.
Context {Tensor Scores Mask : Type} `{Engine Tensor Scores Mask}.
Variable num_streams : nat.
Variable createExecutionContext_ok : nat -> bool.
(** [img_tensor.dim() == 4 && img_tensor.size(0) == 1] *)
Variable dims_ok : Tensor -> bool.
(** Whether, for image [img_idx], the input dimensions are accepted, the
    buffers are allocated, the input is copied and [enqueueV2] succeeds:
    each of these failures takes [continue]. *)
Variable inference_ok : nat -> bool.
Variable capture : nat -> CaptureOutcome.
Variable cudaGraphLaunch_ok : nat -> bool.
(** Whether the copy of the mask back to the host succeeds. *)
Variable copy_back_ok : nat -> bool.
(** The device buffers [cudaMalloc] returns for image [img_idx]:
    [d_outputs.back()] and [d_argmax_output]. They are freed at the end of
    the iteration. *)
Variable d_output : nat -> nat.
Variable d_argmax_output : nat -> nat.

(** One iteration of the loop over the images of a worker. *)
Definition process_one (img_idx : nat) (img_tensor : Tensor)
    (ws : WorkerState Scores Mask) : WorkerState Scores Mask :=
  if negb (dims_ok img_tensor) then ws else
  if negb (inference_ok img_idx) then ws else
  let mem := enqueueV2 img_tensor (d_output img_idx) (ws_mem ws) in
  let g := try_capture (capture img_idx) (d_output img_idx)
             (d_argmax_output img_idx) (ws_graph ws) in
  let mem := run_postprocess (cudaGraphLaunch_ok img_idx) (d_output img_idx)
               (d_argmax_output img_idx) g mem in
  if negb (copy_back_ok img_idx) then mkWorkerState g mem (ws_results ws)
  else mkWorkerState g mem
         (<[img_idx := CopiedFrom (mem (d_argmax_output img_idx))]> (ws_results ws)).

(** The body of worker [t]. *)
Definition worker (img_tensors : list Tensor) (images_per_thread t : nat)
    (mem : nat -> option (DevBuf Scores Mask))
    (results : list (HostMask Scores Mask))
    : (nat -> option (DevBuf Scores Mask)) * list (HostMask Scores Mask) :=
  let num_images := length img_tensors in
  let start_idx := (t * images_per_thread)%nat in
  let end_idx := Nat.min (start_idx + images_per_thread) num_images in
  if (num_images <=? start_idx)%nat then (mem, results) else
  if negb (createExecutionContext_ok t) then (mem, results) else
  let ws :=
    for_loop start_idx end_idx (fun img_idx ws =>
      match img_tensors !! img_idx with
      | Some img_tensor => process_one img_idx img_tensor ws
      | None => ws
      end) (mkWorkerState graph_uncaptured mem results) in
  (ws_mem ws, ws_results ws).

(** The workers share the device allocator and [results], which they
    write under [resultMutex]; [schedule] is the order in which their
    effects are taken. [num_streams] is at least 1. *)
Definition run_workers (schedule : list nat) (img_tensors : list Tensor)
    (mem : nat -> option (DevBuf Scores Mask)) : list (HostMask Scores Mask) :=
  let num_images := length img_tensors in
  let images_per_thread := ((num_images + num_streams - 1) / num_streams)%nat in
  snd (foldl (fun st t => worker img_tensors images_per_thread t (fst st) (snd st))
         (mem, replicate num_images EmptyMat) schedule).

Definition measure_segmentation_trt_performance_single_batch_parallel
    (plan_file_open engine_deserialized : bool) (img_tensors : list Tensor)
    (mem : nat -> option (DevBuf Scores Mask)) : list (HostMask Scores Mask) :=
  if (length img_tensors =? 0)%nat then []
  else if negb plan_file_open then []
  else if negb engine_deserialized then []
  else run_workers (seq 0 num_streams) img_tensors mem.

Definition measure_segmentation_trt_performance_single_batch_parallel_preloaded
    (engine_present : bool) (img_tensors : list Tensor)
    (mem : nat -> option (DevBuf Scores Mask)) : list (HostMask Scores Mask) :=
  if negb engine_present then []
  else if (length img_tensors =? 0)%nat then []
  else run_workers (seq 0 num_streams) img_tensors mem.

End SingleBatchParallel.

End TrtMore.

(** ** Notions for the single-image workers *)

Module WorkerNotions.
Import Trt TrtMore.

(** The graph a worker holds, if any, was captured on the buffers [D]
    and [A]. *)
Definition graph_on (D A : nat) (g : GraphState) : Prop :=
  postGraphCaptured g = true -> postprocessGraphExec g = Some (mkGraphNode D A).

(** What slot [img_idx] of [results] should hold: the argmax mask of its
    own image when every step on it succeeded, the empty image
    otherwise. *)
Definition expected_slot {Tensor Scores Mask : Type} `{Engine Tensor Scores Mask}
    (ok : bool) (img_tensor : Tensor) : HostMask Scores Mask :=
  if ok then CopiedFrom (Some (MaskBuf (argmax_kernel (infer img_tensor))))
  else EmptyMat.

End WorkerNotions.

(** ** Notions for the orchestrator's output *)

Module VideoMoreNotions.
Import Video.

(** The slot eight places further on, for every slot of [l]: what
    [original_frames] holds when the masks of a batch are drained. *)
Definition lagged_bases {Frame : Type} (l : list Frame) : list (option Frame) :=
  (fun k => l !! (8 + k)%nat) <$> seq 0 (length l).

(** A run in which ['q'] is pressed at display [q], against the run with
    no key pressed: the same state up to display [q], the first [q]
    writes once stopped. *)
Definition emit_agree {Out : Type} (q : nat) (es es0 : @EmitState Out) : Prop :=
  shown es0 = length (sink es0) /\ stopped es0 = false /\
  ((stopped es = false /\ es = es0 /\ (length (sink es0) <= q)%nat) \/
   (stopped es = true /\ sink es = take q (sink es0) /\
    (q < length (sink es0))%nat)).

Definition no_key : nat -> bool := fun _ => false.

End VideoMoreNotions.

(** ** The orchestrator: glow_effect_video_single_batch_parallel *)

Module VideoSingle.
Import Video.

(** The checks before the loop; each failure returns at once. *)
Record Setup := mkSetup
  { video_opened : bool;
    output_folder_ok : bool;
    output_video_opened : bool;
    plan_file_opened : bool;
    engine_deserialized : bool }.

(** How one iteration of the first pass ends: both vectors pushed, an
    exception before [resized_masks_batch.push_back], or an exception
    after it. *)
Inductive FirstPass (RMask Glow : Type) :=
| Prepared (resized_mask : RMask) (dst_rgba : Glow)
| ThrowsBeforePush
| ThrowsAfterPush (resized_mask : RMask).
Arguments Prepared {RMask Glow} _ _.
Arguments ThrowsBeforePush {RMask Glow}.
Arguments ThrowsAfterPush {RMask Glow} _.

(** How the function ends: it returns, or [checkCudaErrors] ends the
    process inside the mipmap pipeline; with the frames written so far. *)
Inductive Run (Out : Type) :=
| Returned (written : list Out)
| Exited (written : list Out).
Arguments Returned {Out} _.
Arguments Exited {Out} _.

Section Orchestrator.
Context {Frame Tensor Mask RMask Glow Mip Out : Type}.
(** Upload, GPU resize and [ImageProcessingUtil::process_img] of one
    frame, with the dummy tensor of the [catch] block. *)
Variable process_img : Frame -> Tensor.
(** [measure_segmentation_trt_performance_single_batch_parallel_preloaded]
    on the tensors of batch [batch_count], with the blank masks of the
    [catch] block. *)
Variable segment_batch : nat -> list Tensor -> list Mask.
(** The body of the first pass for one frame and its mask: the resize
    (or blank mask), glow_blow with tolerance 20 and the conversion. *)
Variable first_pass : Frame -> Mask -> FirstPass RMask Glow.
(** The blank mask and the transparent overlay of the frame's size. *)
Variable blank_mask : Frame -> RMask.
Variable blank_glow : Frame -> Glow.
(** triple_buffered_mipmap_pipeline in batch [batch_count]; [None] is
    the end of the process. *)
Variable pipeline : nat -> list RMask -> option (list Mip).
(** mix_images and the blank substitute for an empty result; [None]
    when an exception is thrown. *)
Variable blend : Frame -> Glow -> Mip -> option Out.
Variable blank_output : Out.
(** Whether [cv::waitKey] returns ['q'] at its [k]-th call. *)
Variable quit : nat -> bool.

Definition NUM_PARALLEL_STREAMS : nat := 2.

(** One iteration of [for (int i = 0; i < NUM_PARALLEL_STREAMS; ++i)];
    [rs_broken] is [processing = false; break]. A frame that was read is
    not empty, so the substitution of a black frame never applies. *)
Definition read_frame (i : nat) (rs : @ReadState Frame Tensor) : ReadState :=
  if rs_broken rs then rs
  else match rs_video rs with
  | [] =>
      if (i =? 0)%nat
      then mkReadState [] (rs_batch_frames rs) (rs_original_frames rs) true
      else
        match back (rs_original_frames rs), back (rs_batch_frames rs) with
        | Some f, Some t =>
            mkReadState [] (rs_batch_frames rs ++ [t])
              (rs_original_frames rs ++ [f]) false
        | _, _ => rs
        end
  | frame :: video =>
      mkReadState video (rs_batch_frames rs ++ [process_img frame])
        (rs_original_frames rs ++ [frame]) false
  end.

Definition read_batch (video : list Frame) : ReadState :=
  for_loop 0 NUM_PARALLEL_STREAMS read_frame (mkReadState video [] [] false).

(** The first pass: [resized_masks_batch] and [glow_blow_results]. *)
Definition first_pass_step (original_frames : list Frame)
    (segmentation_masks : list Mask) (i : nat)
    (st : list RMask * list Glow) : list RMask * list Glow :=
  match original_frames !! i, segmentation_masks !! i with
  | Some f, Some m =>
      match first_pass f m with
      | Prepared resized_mask dst_rgba =>
          (fst st ++ [resized_mask], snd st ++ [dst_rgba])
      | ThrowsBeforePush =>
          (fst st ++ [blank_mask f], snd st ++ [blank_glow f])
      | ThrowsAfterPush resized_mask =>
          (fst st ++ [resized_mask; blank_mask f], snd st ++ [blank_glow f])
      end
  | _, _ => st
  end.

Definition first_pass_loop (original_frames : list Frame)
    (segmentation_masks : list Mask) : list RMask * list Glow :=
  for_loop 0 (Nat.min (length segmentation_masks) (length original_frames))
    (first_pass_step original_frames segmentation_masks) ([], []).

(** The final compositing loop; [stopped] is [processing = false; break].
    In the [catch] block the blank frame is written and the key is
    ignored. *)
Definition final_step (original_frames : list Frame)
    (glow_blow_results : list Glow) (mipmap_results : list Mip) (i : nat)
    (es : @EmitState Out) : EmitState :=
  if stopped es then es
  else
    match original_frames !! i, glow_blow_results !! i, mipmap_results !! i with
    | Some f, Some g, Some p =>
        match blend f g p with
        | Some final_result =>
            if quit (shown es)
            then mkEmitState (sink es) (S (shown es)) true
            else mkEmitState (sink es ++ [final_result]) (S (shown es)) false
        | None => mkEmitState (sink es ++ [blank_output]) (S (shown es)) false
        end
    | _, _, _ => es
    end.

Definition final_loop (original_frames : list Frame)
    (glow_blow_results : list Glow) (mipmap_results : list Mip)
    (es : @EmitState Out) : EmitState :=
  for_loop 0
    (Nat.min (length original_frames)
       (Nat.min (length glow_blow_results) (length mipmap_results)))
    (final_step original_frames glow_blow_results mipmap_results) es.

(** [while (processing)]; [None] when [fuel] iterations were not
    enough. *)
Fixpoint main_loop (fuel batch_count : nat) (video : list Frame)
    (es : @EmitState Out) : option (Run Out) :=
  match fuel with
  | O => None
  | S fuel =>
      let batch_count := S batch_count in
      let rs := read_batch video in
      let frame_tensors := rs_batch_frames rs in
      let original_frames := rs_original_frames rs in
      if rs_broken rs || (length frame_tensors =? 0)%nat
      then Some (Returned (sink es))
      else
        let segmentation_masks := segment_batch batch_count frame_tensors in
        let passed := first_pass_loop original_frames segmentation_masks in
        let resized_masks_batch := fst passed in
        let glow_blow_results := snd passed in
        match (if (length resized_masks_batch =? 0)%nat then Some []
               else pipeline batch_count resized_masks_batch) with
        | None => Some (Exited (sink es))
        | Some mipmap_results =>
            let es := final_loop original_frames glow_blow_results
                        mipmap_results es in
            if stopped es then Some (Returned (sink es))
            else main_loop fuel batch_count (rs_video rs) es
        end
  end.

(** The frames handed to [output_video.write], in order. The stream,
    event and buffer calls before and after the loop are taken to
    succeed. *)
Definition glow_effect_video_single_batch_parallel (setup : Setup)
    (video : list Frame) : option (Run Out) :=
  if negb (video_opened setup) then Some (Returned [])
  else if negb (output_folder_ok setup) then Some (Returned [])
  else if negb (output_video_opened setup) then Some (Returned [])
  else if negb (plan_file_opened setup) then Some (Returned [])
  else if negb (engine_deserialized setup) then Some (Returned [])
  else main_loop (S (length video)) 0 video (mkEmitState [] 0 false).

End Orchestrator.

End VideoSingle.

Module VideoSingleNotions.

(** The video filled up to an even number of frames with its last
    frame. *)
Definition pad2 {Frame : Type} (video : list Frame) : list Frame :=
  match last video with
  | Some l => video ++ replicate (length video mod 2) l
  | None => []
  end.

Section OwnOutput.
Context {Frame Tensor Mask RMask Glow Mip Out : Type}.
Variable process_img : Frame -> Tensor.
Variable segment : Tensor -> Mask.
Variable resize : Frame -> Mask -> RMask.
Variable glow : Frame -> Mask -> Glow.
Variable mipmap : RMask -> Mip.
Variable blend : Frame -> Glow -> Mip -> option Out.
Variable blank_output : Out.

(** A frame blended with the overlay and the mipmap of its own mask, or
    the blank frame when the blend throws. *)
Definition own_output (f : Frame) : Out :=
  let m := segment (process_img f) in
  match blend f (glow f m) (mipmap (resize f m)) with
  | Some final_result => final_result
  | None => blank_output
  end.

End OwnOutput.

Definition setup_ok : VideoSingle.Setup :=
  VideoSingle.mkSetup true true true true true.

End VideoSingleNotions.

(** ** Further concrete collaborators *)

Module MoreExamples.
Import Cv Glow GlowMore.

(** A synchronous filter that hands its source buffer through. *)
Definition copy_filter_sync : MipmapFilterSync unit :=
  {| filter_mipmap _ _ _ src := src |}.

End MoreExamples.

(** * Properties *)

Import Notions.

(** ** Loops that write cells of a row-major buffer *)

Lemma for_loop_S {St : Type} (n : nat) (body : nat -> St -> St) (s : St) :
  for_loop 0 (S n) body s = body n (for_loop 0 n body s).
Proof.
  unfold for_loop. rewrite !Nat.sub_0_r, seq_S, fold_left_app. reflexivity.
Qed.

Lemma for_loop_0 {St : Type} (body : nat -> St -> St) (s : St) :
  for_loop 0 0 body s = s.
Proof. reflexivity. Qed.

(** Two loops whose bodies preserve a relation end in related states. *)
Lemma for_loop_rel {St T : Type} (R : St -> T -> Prop) (n : nat)
    (f : nat -> St -> St) (g : nat -> T -> T) (s : St) (t : T) :
  R s t ->
  (forall i a b, (i < n)%nat -> R a b -> R (f i a) (g i b)) ->
  R (for_loop 0 n f s) (for_loop 0 n g t).
Proof.
  intros H0 Hstep. induction n as [|n IH].
  - exact H0.
  - rewrite !for_loop_S. apply Hstep; [lia|]. apply IH.
    intros i a b Hi. apply Hstep. lia.
Qed.

Lemma for_loop_ext {St : Type} (n : nat) (f g : nat -> St -> St) (s : St) :
  (forall i a, (i < n)%nat -> f i a = g i a) ->
  for_loop 0 n f s = for_loop 0 n g s.
Proof.
  intros Hfg. apply (for_loop_rel eq); [reflexivity|].
  intros i a b Hi ->. apply Hfg, Hi.
Qed.

Section Writes.
Context {A : Type}.
Variable c : nat.
Variable w : nat -> nat -> option A.

Lemma lookup_insert_same (d : list A) (k : nat) (v : A) :
  <[k := v]> d !! k = (fun _ => v) <$> d !! k.
Proof.
  destruct (decide (k < length d)%nat) as [Hk|Hk].
  - rewrite list_lookup_insert_eq by exact Hk.
    destruct (lookup_lt_is_Some_2 d k Hk) as [x ->]. reflexivity.
  - rewrite list_insert_ge by lia.
    rewrite (lookup_ge_None_2 d k) by lia. reflexivity.
Qed.

Lemma write_cell_length i j d : length (write_cell c w i j d) = length d.
Proof. unfold write_cell. destruct (w i j); [apply length_insert|reflexivity]. Qed.

Lemma write_row_length n i d : length (write_row c w n i d) = length d.
Proof.
  unfold write_row. induction n as [|n IH]; [reflexivity|].
  rewrite for_loop_S, write_cell_length. exact IH.
Qed.

Lemma write_rows_length r d : length (write_rows c w r d) = length d.
Proof.
  unfold write_rows. induction r as [|r IH]; [reflexivity|].
  rewrite for_loop_S, write_row_length. exact IH.
Qed.

Lemma write_row_lookup n i d k :
  write_row c w n i d !! k =
  if decide (i * c <= k < i * c + n)%nat
  then cell_after (d !! k) (w i (k - i * c))
  else d !! k.
Proof.
  unfold write_row. induction n as [|n IH].
  - rewrite for_loop_0. destruct (decide _); [lia|reflexivity].
  - rewrite for_loop_S. unfold write_cell at 1.
    destruct (decide (k = i * c + n)%nat) as [->|Hne].
    + replace (i * c + n - i * c)%nat with n in * by lia.
      destruct (decide (i * c <= i * c + n < i * c + S n)%nat); [|lia].
      destruct (decide (i * c <= i * c + n < i * c + n)%nat); [lia|].
      destruct (w i n) as [v|]; simpl.
      * rewrite lookup_insert_same, IH. reflexivity.
      * exact IH.
    + assert (Hrest : for_loop 0 n (write_cell c w i) d !! k =
                      if decide (i * c <= k < i * c + S n)%nat
                      then cell_after (d !! k) (w i (k - i * c))
                      else d !! k).
      { rewrite IH. destruct (decide _), (decide _); try lia; reflexivity. }
      destruct (w i n); [|exact Hrest].
      rewrite list_lookup_insert_ne by lia. exact Hrest.
Qed.

Lemma write_rows_lookup r d k :
  write_rows c w r d !! k =
  if decide (k < r * c)%nat
  then cell_after (d !! k) (w (k / c) (k mod c))
  else d !! k.
Proof.
  unfold write_rows. induction r as [|r IH].
  - rewrite for_loop_0. destruct (decide _); [lia|reflexivity].
  - rewrite for_loop_S, write_row_lookup, IH.
    destruct (decide (r * c <= k < r * c + c)%nat) as [Hin|Hout].
    + destruct (decide (k < r * c)%nat); [lia|].
      destruct (decide (k < S r * c)%nat); [|lia].
      assert (Hc : (0 < c)%nat) by lia.
      assert (Hq : (k / c = r)%nat).
      { symmetry. apply (Nat.div_unique k c r (k - r * c)); lia. }
      assert (Hm : (k mod c = k - r * c)%nat).
      { symmetry. apply (Nat.mod_unique k c r (k - r * c)); lia. }
      rewrite Hq, Hm. reflexivity.
    + destruct (decide (k < r * c)%nat), (decide (k < S r * c)%nat);
        try lia; reflexivity.
Qed.

(** The cell of pixel [(i, j)]. *)
Lemma write_rows_at r d i j :
  (i < r)%nat -> (j < c)%nat ->
  write_rows c w r d !! (i * c + j)%nat = cell_after (d !! (i * c + j)%nat) (w i j).
Proof.
  intros Hi Hj. rewrite write_rows_lookup.
  destruct (decide _) as [_|Hn]; [|nia].
  assert (Hq : ((i * c + j) / c = i)%nat).
  { symmetry. apply (Nat.div_unique _ c i j); lia. }
  assert (Hm : ((i * c + j) mod c = j)%nat).
  { symmetry. apply (Nat.mod_unique _ c i j); lia. }
  rewrite Hq, Hm. reflexivity.
Qed.

End Writes.

(** ** The compositor *)

Module GlowFacts.
Import Cv Glow.

Lemma Mat_loop_data {A : Type} (r c : nat) (w : nat -> nat -> option A)
    (body : nat -> nat -> Mat A -> Mat A) (d : list A) :
  (forall i j d', body i j (mkMat r c d') = mkMat r c (write_cell c w i j d')) ->
  for_loop 0 r (fun i M => for_loop 0 c (fun j M => body i j M) M) (mkMat r c d)
  = mkMat r c (write_rows c w r d).
Proof.
  intros Hbody. unfold write_rows.
  apply (for_loop_rel (fun (M : Mat A) d' => M = mkMat r c d')); [reflexivity|].
  intros i M d' _ ->. unfold write_row.
  apply (for_loop_rel (fun (M : Mat A) d' => M = mkMat r c d')); [reflexivity|].
  intros j M d'' _ ->. apply Hbody.
Qed.

Lemma glow_blow_data (m : Mat Z) (dst0 : Mat Vec4b) (key delta : Z) :
  Mat_empty m = false ->
  glow_blow (Img8UC1 m) dst0 key delta
  = mkMat (rows m) (cols m)
      (write_rows (cols m) (glow_w m key delta) (rows m)
         (replicate (rows m * cols m) zero4)).
Proof.
  intros Hne. unfold glow_blow. simpl Image_empty. rewrite Hne.
  unfold Mat_zeros. apply Mat_loop_data.
  intros i j d'. unfold write_cell, glow_w.
  destruct (Mat_at m i j) as [p|]; [|reflexivity].
  destruct (Z.abs (p - key) <? delta); reflexivity.
Qed.

Lemma Mat_nonempty_of_index {A} (m : Mat A) (i j : nat) :
  (i < rows m)%nat -> (j < cols m)%nat -> Mat_empty m = false.
Proof.
  intros Hi Hj. unfold Mat_empty.
  destruct (Nat.eqb_spec (rows m) 0); [lia|].
  destruct (Nat.eqb_spec (cols m) 0); [lia|]. reflexivity.
Qed.

Lemma glow_blow_at (m : Mat Z) (dst0 : Mat Vec4b) (key delta : Z) (i j : nat) (p : Z) :
  (i < rows m)%nat -> (j < cols m)%nat -> Mat_at m i j = Some p ->
  Mat_at (glow_blow (Img8UC1 m) dst0 key delta) i j = Some (glow_px key delta p).
Proof.
  intros Hi Hj Hp.
  rewrite glow_blow_data by (eapply Mat_nonempty_of_index; eassumption).
  unfold Mat_at at 1. simpl.
  rewrite write_rows_at by assumption.
  rewrite lookup_replicate_2 by nia.
  unfold glow_w, glow_px. rewrite Hp.
  destruct (Z.abs (p - key) <? delta); reflexivity.
Qed.

Lemma index_split (k c : nat) : (k / c * c + k mod c = k)%nat.
Proof. pose proof (Nat.div_mod_eq k c). lia. Qed.

(** On a well-formed mask the overlay is the mask mapped pixel by pixel. *)
Lemma glow_blow_map (m : Mat Z) (dst0 : Mat Vec4b) (key delta : Z) :
  Mat_wf m -> Mat_empty m = false ->
  data (glow_blow (Img8UC1 m) dst0 key delta) = glow_px key delta <$> data m.
Proof.
  intros Hwf Hne. rewrite glow_blow_data by exact Hne. simpl.
  apply list_eq. intros k. rewrite write_rows_lookup, list_lookup_fmap.
  destruct (decide (k < rows m * cols m)%nat) as [Hk|Hk].
  - rewrite lookup_replicate_2 by exact Hk.
    unfold glow_w, Mat_at. rewrite index_split.
    destruct (lookup_lt_is_Some_2 (data m) k) as [p Hp]; [rewrite Hwf; exact Hk|].
    rewrite Hp. simpl. unfold glow_px.
    destruct (Z.abs (p - key) <? delta); reflexivity.
  - rewrite (lookup_ge_None_2 (data m) k) by (rewrite Hwf; lia).
    apply lookup_ge_None_2. rewrite length_replicate. lia.
Qed.

Lemma filter_replicate_none {A} (P : A -> Prop) `{forall x, Decision (P x)}
    (n : nat) (x : A) :
  ~ P x -> filter P (replicate n x) = [].
Proof.
  intros Hx. induction n as [|n IH]; [reflexivity|].
  simpl. rewrite filter_cons_False by exact Hx. exact IH.
Qed.

Lemma count_visible_single (a b : nat) (lo hit : Vec4b) :
  c3 lo = 0 -> c3 hit <> 0 ->
  length (filter (fun q => c3 q <> 0) (replicate a lo ++ hit :: replicate b lo)) = 1%nat.
Proof.
  intros Hlo Hhit.
  rewrite filter_app, filter_cons_True by exact Hhit.
  rewrite !filter_replicate_none by (rewrite Hlo; tauto). reflexivity.
Qed.

(** C6. glow_blow paints pixel [(i, j)] with the opaque overlay colour
    exactly when [|mask(i, j) - param_KeyLevel| < Delta] and leaves every
    other pixel of the overlay fully transparent. For the key 56, a mask
    with one pixel of value 60 among zeros gives one visible overlay
    pixel with [Delta = 20] and none with [Delta = 2]. *)
Theorem glow_blow_highlights (m : Mat Z) (dst0 : Mat Vec4b) (key delta : Z) :
  (forall i j p, (i < rows m)%nat -> (j < cols m)%nat -> Mat_at m i j = Some p ->
     exists q, Mat_at (glow_blow (Img8UC1 m) dst0 key delta) i j = Some q /\
               (q = overlay_color <-> Z.abs (p - key) < delta) /\
               (~ Z.abs (p - key) < delta -> q = zero4 /\ c3 q = 0)) /\
  (forall a b, Mat_wf m -> data m = replicate a 0 ++ 60 :: replicate b 0 ->
     count_visible (glow_blow (Img8UC1 m) dst0 56 20) = 1%nat /\
     count_visible (glow_blow (Img8UC1 m) dst0 56 2) = 0%nat).
Proof.
  split.
  - intros i j p Hi Hj Hp. exists (glow_px key delta p).
    split; [apply glow_blow_at; assumption|].
    unfold glow_px. destruct (Z.ltb_spec (Z.abs (p - key)) delta) as [Hlt|Hge].
    + split; [tauto|]. intros Hn. lia.
    + split.
      * split; [discriminate|lia].
      * intros _. split; reflexivity.
  - intros a b Hwf Hdata.
    assert (Hne : Mat_empty m = false).
    { unfold Mat_wf in Hwf. rewrite Hdata in Hwf.
      rewrite length_app in Hwf. simpl in Hwf.
      unfold Mat_empty.
      destruct (Nat.eqb_spec (rows m) 0) as [E|_]; [rewrite E in Hwf; lia|].
      destruct (Nat.eqb_spec (cols m) 0) as [E|_]; [rewrite E in Hwf; lia|].
      reflexivity. }
    unfold count_visible. rewrite !glow_blow_map by assumption.
    rewrite Hdata, !fmap_app, !fmap_cons, !fmap_replicate. split.
    + apply count_visible_single; [reflexivity|discriminate].
    + change (glow_px 56 2 60) with zero4. change (glow_px 56 2 0) with zero4.
      rewrite filter_app, filter_cons_False by (simpl; tauto).
      rewrite !filter_replicate_none by (simpl; tauto). reflexivity.
Qed.

Lemma glow_blow_highlights_witness :
  count_visible (glow_blow (Img8UC1 (mkMat 1 2 [0; 60])) Mat_nil 56 20) = 1%nat /\
  count_visible (glow_blow (Img8UC1 (mkMat 1 2 [0; 60])) Mat_nil 56 2) = 0%nat.
Proof.
  exact (proj2 (glow_blow_highlights (mkMat 1 2 [0; 60]) Mat_nil 56 20)
           1%nat 0%nat eq_refl eq_refl).
Defined.

(** *** The RGBA buffer behind the mipmap filter *)

Lemma convert_mask_writes (mask : Mat Z) (dst : list uchar4) (w h : nat) (key : Z) :
  convert_mask_to_rgba_buffer mask dst w h key
  = write_rows w (rgba_w mask key) h dst.
Proof.
  unfold convert_mask_to_rgba_buffer, write_rows.
  apply for_loop_ext. intros i d _. unfold write_row.
  apply for_loop_ext. intros j d' _. unfold write_cell, rgba_w.
  destruct (Mat_at mask i j); reflexivity.
Qed.

Lemma mipmap_src_img_writes (junk : nat -> uchar4) (mask : Mat Z) (key : Z) :
  mipmap_src_img junk mask key
  = write_rows (cols mask) (rgba_w mask key) (rows mask)
      (cudaMallocHost junk (cols mask * rows mask)).
Proof.
  unfold mipmap_src_img, write_rows.
  apply for_loop_ext. intros i d _. unfold write_row.
  apply for_loop_ext. intros j d' _. unfold write_cell, rgba_w.
  destruct (Mat_at mask i j); reflexivity.
Qed.

Lemma length_cudaMallocHost (junk : nat -> uchar4) (n : nat) :
  length (cudaMallocHost junk n) = n.
Proof. unfold cudaMallocHost. rewrite length_fmap. apply length_seq. Qed.

Lemma cell_after_Some {A} (x v : A) : cell_after (Some x) (Some v) = Some v.
Proof. reflexivity. Qed.

Lemma convert_mask_at (mask : Mat Z) (dst : list uchar4) (w h : nat) (key : Z)
    (i j : nat) (g : Z) :
  (i < h)%nat -> (j < w)%nat -> length dst = (w * h)%nat -> Mat_at mask i j = Some g ->
  convert_mask_to_rgba_buffer mask dst w h key !! (i * w + j)%nat
  = Some (rgba_of_gray g key).
Proof.
  intros Hi Hj Hlen Hg. rewrite convert_mask_writes, write_rows_at by assumption.
  destruct (lookup_lt_is_Some_2 dst (i * w + j)) as [x ->]; [nia|].
  unfold rgba_w. rewrite Hg. reflexivity.
Qed.

Lemma mipmap_src_img_at (junk : nat -> uchar4) (mask : Mat Z) (key : Z)
    (i j : nat) (g : Z) :
  (i < rows mask)%nat -> (j < cols mask)%nat -> Mat_at mask i j = Some g ->
  mipmap_src_img junk mask key !! (i * cols mask + j)%nat
  = Some (rgba_of_gray g key).
Proof.
  intros Hi Hj Hg. rewrite mipmap_src_img_writes, write_rows_at by assumption.
  destruct (lookup_lt_is_Some_2 (cudaMallocHost junk (cols mask * rows mask))
              (i * cols mask + j)) as [x ->];
    [rewrite length_cudaMallocHost; nia|].
  unfold rgba_w. rewrite Hg. reflexivity.
Qed.

(** The buffer is a function of the positions whose value is the key. *)
Lemma mipmap_src_img_exact_only (junk : nat -> uchar4) (m1 m2 : Mat Z) (key : Z) :
  Mat_wf m1 -> Mat_wf m2 -> rows m1 = rows m2 -> cols m1 = cols m2 ->
  (forall k, data m1 !! k = Some key <-> data m2 !! k = Some key) ->
  mipmap_src_img junk m1 key = mipmap_src_img junk m2 key.
Proof.
  intros Hwf1 Hwf2 Hr Hc Hsame.
  rewrite !mipmap_src_img_writes. rewrite <- Hr, <- Hc.
  apply list_eq. intros k. rewrite !write_rows_lookup.
  destruct (decide (k < rows m1 * cols m1)%nat) as [Hk|Hk]; [|reflexivity].
  unfold rgba_w, Mat_at. rewrite <- Hc, index_split.
  destruct (lookup_lt_is_Some_2 (data m1) k) as [p1 Hp1]; [rewrite Hwf1; exact Hk|].
  destruct (lookup_lt_is_Some_2 (data m2) k) as [p2 Hp2];
    [rewrite Hwf2, <- Hr, <- Hc; exact Hk|].
  rewrite Hp1, Hp2. simpl.
  assert (Hpx : rgba_of_gray p1 key = rgba_of_gray p2 key); [|rewrite Hpx; reflexivity].
  unfold rgba_of_gray.
  destruct (Z.eqb_spec p1 key) as [E1|N1], (Z.eqb_spec p2 key) as [E2|N2].
  - congruence.
  - exfalso. apply N2. rewrite E1 in Hp1. apply Hsame in Hp1. congruence.
  - exfalso. apply N1. rewrite E2 in Hp2. apply Hsame in Hp2. congruence.
  - reflexivity.
Qed.


End GlowFacts.

(** ** The blend *)

Module BlendFacts.
Import Cv Glow GlowFacts.

Lemma blend_pixel_eq (s d o : Vec4b) (alpha : Z) :
  blend_pixel s d o alpha = blend_px s d alpha.
Proof. destruct o. reflexivity. Qed.

Lemma mix_loop_data (src hl : Mat Vec4b) (gray : Mat Z) (key_scale : Z) :
  mix_loop src hl gray key_scale src
  = mkMat (rows src) (cols src)
      (write_rows (cols src) (mix_w src hl gray key_scale) (rows src) (data src)).
Proof.
  unfold mix_loop. destruct src as [r c d]. simpl rows. simpl cols. simpl data.
  apply Mat_loop_data. intros i j d'. unfold write_cell, mix_w.
  destruct (Mat_at gray i j) as [a|]; [|reflexivity].
  destruct (Mat_at (mkMat r c d) i j) as [s|]; [|reflexivity].
  destruct (Mat_at hl i j) as [p|]; [|reflexivity].
  unfold Mat_at, Mat_set. simpl.
  destruct (d' !! (i * c + j)%nat) as [o|] eqn:Ho.
  - rewrite blend_pixel_eq. reflexivity.
  - rewrite list_insert_ge by (apply lookup_ge_None_1; exact Ho). reflexivity.
Qed.

Lemma mix_loop_at (src hl : Mat Vec4b) (gray : Mat Z) (key_scale : Z)
    (i j : nat) (a : Z) (s d : Vec4b) :
  (i < rows src)%nat -> (j < cols src)%nat ->
  Mat_at gray i j = Some a -> Mat_at src i j = Some s -> Mat_at hl i j = Some d ->
  Mat_at (mix_loop src hl gray key_scale src) i j
  = Some (blend_px s d (blend_alpha a key_scale)).
Proof.
  intros Hi Hj Ha Hs Hd. rewrite mix_loop_data. unfold Mat_at at 1. simpl.
  rewrite write_rows_at by assumption. unfold mix_w. rewrite Ha, Hs, Hd.
  unfold Mat_at in Hs. rewrite Hs. reflexivity.
Qed.

(** The clamp of the output channel makes the narrowing harmless. *)
Lemma blend_channel_clamped (src dst alpha : Z) :
  blend_channel src dst alpha
  = Z.min 255 (Z.max 0 (Z.shiftr (src * (255 - alpha) + dst * alpha) 8)).
Proof. unfold blend_channel, uchar_cast. apply Z.mod_small. lia. Qed.

Lemma shiftr_255 (v : Z) : 0 <= v <= 255 -> Z.shiftr (v * 255) 8 = Z.max 0 (v - 1).
Proof.
  intros Hv. rewrite Z.shiftr_div_pow2 by lia. change (2 ^ 8) with 256.
  destruct (Z.eq_dec v 0) as [->|Hn]; [reflexivity|].
  rewrite Z.max_r by lia. symmetry.
  apply (Z.div_unique (v * 255) 256 (v - 1) (256 - v)); lia.
Qed.

Lemma blend_channel_zero_alpha (src dst : Z) :
  0 <= src <= 255 -> blend_channel src dst 0 = Z.max 0 (src - 1).
Proof.
  intros Hs. rewrite blend_channel_clamped.
  replace (src * (255 - 0) + dst * 0) with (src * 255) by lia.
  rewrite shiftr_255 by exact Hs. lia.
Qed.

Lemma blend_alpha_zero_scale (a : Z) : blend_alpha a 0 = 0.
Proof. unfold blend_alpha. rewrite Z.mul_0_r. reflexivity. Qed.

Lemma size_eqb_refl (a : nat * nat) : size_eqb a a = true.
Proof. unfold size_eqb. rewrite !Nat.eqb_refl. reflexivity. Qed.

Lemma size_eqb_eq (a b : nat * nat) : size_eqb a b = true <-> a = b.
Proof.
  destruct a as [a1 a2], b as [b1 b2]. unfold size_eqb. simpl.
  rewrite andb_true_iff, !Nat.eqb_eq. split; [intros []; congruence|].
  intros E. injection E. auto.
Qed.

Lemma mipmap_gray_of_shape `{ColorConversion} (im : Image) :
  Image_wf im ->
  Mat_wf (mipmap_gray_of im) /\ Mat_size (mipmap_gray_of im) = Image_size im.
Proof.
  destruct im as [m|m|m]; simpl; unfold Mat_wf, map_Mat; simpl;
    rewrite ?length_fmap; auto.
Qed.

Lemma Mat_at_wf {A} (m : Mat A) (i j : nat) :
  Mat_wf m -> (i < rows m)%nat -> (j < cols m)%nat -> is_Some (Mat_at m i j).
Proof.
  intros Hwf Hi Hj. unfold Mat_at. apply lookup_lt_is_Some_2. rewrite Hwf. nia.
Qed.

(** mix_images on a three-channel frame, a four-channel overlay and any
    mipmap result of the same non-empty size. *)
Lemma mix_images_frame `{ColorConversion} (frame : Mat Vec3b) (overlay : Mat Vec4b)
    (mipmap_result : Image) (key_scale : Z) :
  Mat_empty frame = false ->
  Mat_size overlay = Mat_size frame ->
  Image_size mipmap_result = Mat_size frame ->
  mix_images (Img8UC3 frame) (Img8UC4 overlay) mipmap_result key_scale
  = inr (let src := map_Mat (fun p => mkVec4b (b3 p) (g3 p) (r3 p) 255) frame in
         mix_loop src overlay (mipmap_gray_of mipmap_result) key_scale src).
Proof.
  intros Hne Hov Hmip. unfold mix_images.
  assert (Hne2 : Mat_empty overlay = false).
  { unfold Mat_empty, Mat_size in *. injection Hov as -> ->. exact Hne. }
  assert (Hne3 : Image_empty mipmap_result = false).
  { destruct mipmap_result as [m|m|m]; simpl in *;
      unfold Mat_empty, Mat_size in *; injection Hmip as -> ->; exact Hne. }
  simpl Image_empty at 1 2. rewrite Hne, Hne2, Hne3. simpl orb.
  simpl Image_size. rewrite Hov, Hmip, size_eqb_refl. simpl.
  destruct mipmap_result; reflexivity.
Qed.

Lemma glow_blow_shape (m : Mat Z) (dst0 : Mat Vec4b) (key delta : Z) :
  Mat_empty m = false ->
  Mat_wf (glow_blow (Img8UC1 m) dst0 key delta) /\
  Mat_size (glow_blow (Img8UC1 m) dst0 key delta) = Mat_size m.
Proof.
  intros Hne. rewrite glow_blow_data by exact Hne. unfold Mat_wf, Mat_size. simpl.
  rewrite write_rows_length, length_replicate. auto.
Qed.

(** C1 (amended). With [intensityScale = 0], highlight followed by blend
    gives an image of the frame's size in which the overlay and the mipmap
    result contribute nothing: each colour channel is [(src * 255) >> 8],
    that is [src - 1] for a non-zero channel and [0] for a zero one, and
    the alpha channel is 254. *)
Theorem blend_zero_scale `{ColorConversion} (frame : Mat Vec3b) (mask : Mat Z)
    (mipmap_result : Image) (dst0 : Mat Vec4b) (key delta : Z) :
  Mat_empty frame = false ->
  Mat_size mask = Mat_size frame ->
  Image_wf mipmap_result -> Image_size mipmap_result = Mat_size frame ->
  exists out,
    mix_images (Img8UC3 frame) (Img8UC4 (glow_blow (Img8UC1 mask) dst0 key delta))
      mipmap_result 0 = inr out /\
    Mat_size out = Mat_size frame /\
    forall i j p, (i < rows frame)%nat -> (j < cols frame)%nat ->
      Mat_at frame i j = Some p -> uchar_px p ->
      Mat_at out i j
      = Some (mkVec4b (Z.max 0 (b3 p - 1)) (Z.max 0 (g3 p - 1))
                (Z.max 0 (r3 p - 1)) 254).
Proof.
  intros Hne Hmask Hmwf Hmip.
  assert (Hmne : Mat_empty mask = false).
  { unfold Mat_empty, Mat_size in *. injection Hmask as -> ->. exact Hne. }
  destruct (glow_blow_shape mask dst0 key delta Hmne) as [Hgwf Hgsz].
  set (overlay := glow_blow (Img8UC1 mask) dst0 key delta) in *.
  rewrite mix_images_frame; [|exact Hne|congruence|exact Hmip].
  eexists. split; [reflexivity|]. split.
  - rewrite mix_loop_data. reflexivity.
  - intros i j p Hi Hj Hp [Hb [Hg Hr]].
    destruct (mipmap_gray_of_shape mipmap_result Hmwf) as [Hgraywf Hgraysz].
    assert (Hosz : Mat_size overlay = Mat_size frame) by congruence.
    assert (Hgs : Mat_size (mipmap_gray_of mipmap_result) = Mat_size frame)
      by congruence.
    unfold Mat_size in Hosz, Hgs. injection Hosz as Hoc Hor. injection Hgs as Hgc Hgr.
    destruct (Mat_at_wf overlay i j Hgwf) as [d Hd]; [lia|lia|].
    destruct (Mat_at_wf (mipmap_gray_of mipmap_result) i j Hgraywf) as [a Ha];
      [lia|lia|].
    cbv zeta.
    rewrite (mix_loop_at _ _ _ _ i j a (mkVec4b (b3 p) (g3 p) (r3 p) 255) d);
      try assumption.
    + rewrite blend_alpha_zero_scale. unfold blend_px. simpl.
      rewrite !blend_channel_zero_alpha by lia. reflexivity.
    + unfold Mat_at, map_Mat in *. simpl. rewrite list_lookup_fmap, Hp. reflexivity.
Qed.

End BlendFacts.

(** ** The triple-buffered mipmap pipeline *)

Module PipelineFacts.
Import Cv Glow.

Lemma length_write_front (cells buf : list uchar4) :
  length (write_front cells buf) = length buf.
Proof.
  unfold write_front. rewrite length_take, length_app, length_drop. lia.
Qed.

Lemma write_front_fits (cells buf : list uchar4) :
  (length cells <= length buf)%nat ->
  write_front cells buf = cells ++ drop (length cells) buf.
Proof.
  intros Hfit. unfold write_front. apply take_ge.
  rewrite length_app, length_drop. lia.
Qed.

Lemma write_front_full (cells buf : list uchar4) :
  length cells = length buf -> write_front cells buf = cells.
Proof.
  intros Hfull. rewrite write_front_fits by lia.
  rewrite drop_ge by lia. apply app_nil_r.
Qed.

Section Slots.
Context {Scale : Type} `{MipmapFilter Scale}.
Variable junk : nat -> uchar4.
Variable resized_masks : list (Mat Z).
Variables frame_width frame_height : nat.
Variable default_scale : Scale.
Variable param_KeyLevel : Z.

Local Abbreviation job := (Notions.job junk resized_masks default_scale param_KeyLevel).
Local Abbreviation fresh_buffer := (Notions.fresh_buffer junk frame_width frame_height).
Local Abbreviation slot_after :=
  (Notions.slot_after junk resized_masks frame_width frame_height default_scale
     param_KeyLevel).
Local Abbreviation slot_before :=
  (Notions.slot_before junk resized_masks frame_width frame_height default_scale
     param_KeyLevel).

Lemma length_fresh_buffer : length fresh_buffer = (frame_width * frame_height)%nat.
Proof. unfold Notions.fresh_buffer, cudaMallocHost. rewrite length_fmap, length_seq. reflexivity. Qed.

Lemma slot_after_step (k : nat) :
  slot_after k = write_front (job k) (slot_before k).
Proof.
  unfold Notions.slot_before. case_decide as Hk.
  - unfold Notions.slot_after.
    rewrite Nat.div_small, Nat.mod_small by exact Hk. reflexivity.
  - unfold Notions.slot_after.
    assert (Hk3 : k = (k - 3 + 1 * 3)%nat) by lia.
    rewrite Hk3 at 1 2. rewrite Nat.div_add, Nat.Div0.mod_add by lia.
    rewrite Nat.add_1_r. cbn [Notions.slot_chain]. f_equal. f_equal.
    pose proof (Nat.div_mod_eq (k - 3) 3). lia.
Qed.

Lemma length_slot_after (k : nat) :
  length (slot_after k) = (frame_width * frame_height)%nat.
Proof.
  unfold Notions.slot_after. generalize (k mod 3)%nat. intros r.
  induction (k / 3)%nat as [|n IH]; cbn [Notions.slot_chain];
    rewrite length_write_front; [apply length_fresh_buffer|exact IH].
Qed.

Lemma length_slot_before (k : nat) :
  length (slot_before k) = (frame_width * frame_height)%nat.
Proof.
  unfold Notions.slot_before. case_decide;
    [apply length_fresh_buffer|apply length_slot_after].
Qed.

(** A filter result that fills the buffer replaces what the slot held. *)
Lemma slot_after_full (k : nat) :
  length (job k) = (frame_width * frame_height)%nat -> slot_after k = job k.
Proof.
  intros Hfull. rewrite slot_after_step. apply write_front_full.
  rewrite length_slot_before. exact Hfull.
Qed.

End Slots.

Section Facts.
Context {Scale : Type} `{MipmapFilter Scale}.
Variable junk : nat -> uchar4.
Variable resized_masks : list (Mat Z).
Variables frame_width frame_height : nat.
Variable default_scale : Scale.
Variable param_KeyLevel : Z.
Variable cudaEventQuery : nat -> cudaError_t.

Let N := length resized_masks.

Let state :=
  pipeline_state junk resized_masks frame_width frame_height default_scale
    param_KeyLevel cudaEventQuery.

Local Abbreviation job := (Notions.job junk resized_masks default_scale param_KeyLevel).
Local Abbreviation harvested :=
  (Notions.harvested junk resized_masks frame_width frame_height default_scale
     param_KeyLevel cudaEventQuery).
Local Abbreviation pipe_inv :=
  (Notions.pipe_inv junk resized_masks frame_width frame_height default_scale
     param_KeyLevel cudaEventQuery).

Local Abbreviation fresh_buffer := (Notions.fresh_buffer junk frame_width frame_height).
Local Abbreviation slot_after :=
  (Notions.slot_after junk resized_masks frame_width frame_height default_scale
     param_KeyLevel).
Local Abbreviation slot_before :=
  (Notions.slot_before junk resized_masks frame_width frame_height default_scale
     param_KeyLevel).

Lemma pipe_inv_init : pipe_inv 0 (pipeline_init junk resized_masks frame_width frame_height).
Proof.
  unfold pipe_inv, pipeline_init. cbn [tripleDst outputImages].
  rewrite !length_replicate. repeat split; try reflexivity.
  - intros k Hk. simpl in Hk. lia.
  - intros r Hr _. apply lookup_replicate_2. unfold numBuffers. exact Hr.
  - intros k Hk. rewrite lookup_replicate_2 by exact Hk. reflexivity.
Qed.

Lemma pipe_inv_issue (n : nat) (st : PipeState) :
  pipe_inv n st ->
  let st' := pipeline_issue junk resized_masks frame_width frame_height
               default_scale param_KeyLevel n st in
  length (tripleDst st') = 3%nat /\
  outputImages st' = outputImages st /\
  (forall k, (k < Nat.min (S n) N)%nat -> (Nat.min (S n) N <= k + 3)%nat ->
     tripleDst st' !! (k mod 3)%nat = Some (slot_after k)) /\
  (forall r, (r < 3)%nat -> (Nat.min (S n) N <= r)%nat ->
     tripleDst st' !! r = Some fresh_buffer).
Proof.
  intros (Hlen & Hout & Hslots & Hfresh & _). unfold pipeline_issue.
  destruct (resized_masks !! n) as [mask|] eqn:Hmask;
    cbn [tripleDst outputImages tripleSrc].
  - assert (Hn : (n < N)%nat) by (apply lookup_lt_Some in Hmask; exact Hmask).
    rewrite length_alter. repeat split; try assumption.
    + intros k Hk Hk3. unfold numBuffers.
      destruct (decide (k = n)) as [->|Hne].
      * rewrite list_lookup_alter_eq.
        assert (Hold : tripleDst st !! (n mod 3)%nat = Some (slot_before n)).
        { unfold Notions.slot_before. case_decide as Hn3.
          - rewrite Nat.mod_small by exact Hn3. apply Hfresh; lia.
          - replace (n mod 3)%nat with ((n - 3) mod 3)%nat.
            + apply Hslots; lia.
            + assert (Hn' : n = (n - 3 + 1 * 3)%nat) by lia.
              rewrite Hn' at 2. rewrite Nat.Div0.mod_add. reflexivity. }
        rewrite Hold. cbn [fmap option_fmap option_map].
        rewrite slot_after_step. unfold Notions.job. rewrite Hmask. reflexivity.
      * assert (Hmod : (n mod 3 <> k mod 3)%nat).
        { pose proof (Nat.div_mod_eq n 3). pose proof (Nat.div_mod_eq k 3).
          pose proof (Nat.mod_upper_bound n 3). pose proof (Nat.mod_upper_bound k 3).
          lia. }
        rewrite list_lookup_alter_ne by exact Hmod. apply Hslots; lia.
    + intros r Hr Hmin. unfold numBuffers.
      assert (Hmod : (n mod 3 <> r)%nat).
      { assert (n < r)%nat by lia. rewrite Nat.mod_small by lia. lia. }
      rewrite list_lookup_alter_ne by exact Hmod. apply Hfresh; lia.
  - assert (Hn : (N <= n)%nat) by (apply lookup_ge_None_1 in Hmask; exact Hmask).
    repeat split; try assumption.
    + intros k Hk Hk3. apply Hslots; lia.
    + intros r Hr Hmin. apply Hfresh; lia.
Qed.

Hypothesis no_failure :
  forall k, (k < N)%nat -> cudaEventQuery (k + 2)%nat <> cudaErrorOther.

Lemma pipe_inv_step (n : nat) (st : PipeState) :
  pipe_inv n st ->
  exists st',
    pipeline_step junk resized_masks frame_width frame_height default_scale
      param_KeyLevel cudaEventQuery n (Some st) = Some st' /\
    pipe_inv (S n) st'.
Proof.
  intros Hinv.
  pose proof (pipe_inv_issue n st Hinv) as (Hlen & Hout & Hslots & Hfresh).
  destruct Hinv as (_ & Houtlen & _ & _ & Houts).
  unfold pipeline_step, pipeline_harvest. fold N.
  set (st1 := pipeline_issue _ _ _ _ _ _ n st) in *.
  destruct ((2 <=? n)%nat && (n - 2 <? N)%nat) eqn:Hcond.
  - apply andb_true_iff in Hcond as [H2 HN].
    apply Nat.leb_le in H2. apply Nat.ltb_lt in HN.
    assert (Hq : (n - 2 + 2 = n)%nat) by lia.
    assert (Hslot : tripleDst st1 !! ((n - 2) mod numBuffers)%nat
                    = Some (slot_after (n - 2)))
      by (apply Hslots; lia).
    pose proof (no_failure (n - 2)%nat HN) as Hnf. rewrite Hq in Hnf.
    assert (Hharv : harvested (n - 2) =
                    match cudaEventQuery n with
                    | cudaSuccess =>
                        mkMat frame_height frame_width
                          (take (frame_width * frame_height) (slot_after (n - 2)))
                    | _ => Mat_nil
                    end) by (unfold harvested; rewrite Hq; reflexivity).
    destruct (cudaEventQuery n) eqn:Hquery; [| |congruence].
    + rewrite Hslot. eexists. split; [reflexivity|].
      unfold pipe_inv. cbn [tripleDst outputImages tripleSrc].
      rewrite length_insert, Hout.
      repeat split; try assumption.
      intros k Hk. destruct (decide (k = n - 2)%nat) as [->|Hne].
      * rewrite list_lookup_insert_eq by lia.
        case_decide; [|lia]. rewrite Hharv. reflexivity.
      * rewrite list_lookup_insert_ne by lia. rewrite Houts by exact Hk.
        repeat case_decide; try lia; reflexivity.
    + exists st1. split; [reflexivity|].
      unfold pipe_inv. rewrite Hout. repeat split; try assumption.
      intros k Hk. rewrite Houts by exact Hk.
      destruct (decide (k = n - 2)%nat) as [->|Hne].
      * repeat case_decide; try lia.
        rewrite Hharv. reflexivity.
      * repeat case_decide; try lia; reflexivity.
  - exists st1. split; [reflexivity|].
    apply andb_false_iff in Hcond.
    unfold pipe_inv. rewrite Hout. repeat split; try assumption.
    intros k Hk. rewrite Houts by exact Hk.
    repeat case_decide; try reflexivity.
    + lia.
    + exfalso. destruct Hcond as [Hc|Hc].
      * apply Nat.leb_gt in Hc. lia.
      * apply Nat.ltb_ge in Hc. lia.
Qed.

Lemma pipeline_state_inv (n : nat) :
  exists st, state n = Some st /\ pipe_inv n st.
Proof.
  induction n as [|n [st [Hst Hinv]]].
  - eexists. split; [reflexivity|]. apply pipe_inv_init.
  - unfold state, pipeline_state in *. rewrite for_loop_S, Hst.
    apply pipe_inv_step, Hinv.
Qed.

Lemma pipeline_outputs :
  triple_buffered_mipmap_pipeline junk resized_masks frame_width frame_height
    default_scale param_KeyLevel cudaEventQuery
  = Some (harvested <$> seq 0 N).
Proof.
  unfold triple_buffered_mipmap_pipeline. fold N.
  destruct (pipeline_state_inv (N + 2)) as [st [Hst (_ & Hlen & _ & _ & Houts)]].
  unfold state in Hst. rewrite Hst. simpl. f_equal.
  apply list_eq. intros k. rewrite list_lookup_fmap.
  destruct (decide (k < N)%nat) as [Hk|Hk].
  - rewrite Houts by exact Hk. case_decide; [|lia].
    rewrite (lookup_seq_lt 0 N k) by exact Hk. reflexivity.
  - rewrite (lookup_ge_None_2 (outputImages st)) by lia.
    rewrite (lookup_ge_None_2 (seq 0 N)) by (rewrite length_seq; lia).
    reflexivity.
Qed.

(** The life of result [i]: in slot [i % 3] after step [i], still there
    and not yet in the output before step [i + 2], in the output after
    step [i + 2]. *)
Lemma pipeline_slot_life (i : nat) :
  (i < N)%nat ->
  (exists st, state (i + 1) = Some st /\
              tripleDst st !! (i mod 3)%nat = Some (slot_after i) /\
              outputImages st !! i = Some Mat_nil) /\
  (exists st, state (i + 2) = Some st /\
              tripleDst st !! (i mod 3)%nat = Some (slot_after i) /\
              outputImages st !! i = Some Mat_nil) /\
  (exists st, state (i + 3) = Some st /\
              outputImages st !! i = Some (harvested i)).
Proof.
  intros Hi. repeat split.
  - destruct (pipeline_state_inv (i + 1)) as [st [Hst (_ & _ & Hslots & _ & Houts)]].
    exists st. repeat split; [exact Hst|apply Hslots; lia|].
    rewrite Houts by exact Hi. case_decide; [lia|reflexivity].
  - destruct (pipeline_state_inv (i + 2)) as [st [Hst (_ & _ & Hslots & _ & Houts)]].
    exists st. repeat split; [exact Hst|apply Hslots; lia|].
    rewrite Houts by exact Hi. case_decide; [lia|reflexivity].
  - destruct (pipeline_state_inv (i + 3)) as [st [Hst (_ & _ & _ & _ & Houts)]].
    exists st. split; [exact Hst|].
    rewrite Houts by exact Hi. case_decide; [reflexivity|lia].
Qed.

End Facts.

End PipelineFacts.

(** ** The inference workers *)

Module TrtFacts.
Import Trt.

(** *** The partition *)

Lemma subBatch_covers (total nw : nat) :
  (1 <= nw)%nat -> (total <= nw * subBatch_of total nw)%nat.
Proof.
  intros Hnw. unfold subBatch_of.
  pose proof (Nat.div_mod_eq (total + nw - 1) nw) as Hdm.
  pose proof (Nat.mod_upper_bound (total + nw - 1) nw) as Hub.
  lia.
Qed.

Lemma range_cover (total nw i : nat) :
  (1 <= nw)%nat -> (i < total)%nat ->
  exists t, (t < nw)%nat /\ in_range total (subBatch_of total nw) t i.
Proof.
  intros Hnw Hi. pose proof (subBatch_covers total nw Hnw) as Hcov.
  set (sub := subBatch_of total nw) in *.
  assert (Hsub : sub <> 0%nat) by (intros E; rewrite E in Hcov; lia).
  exists (i / sub)%nat.
  pose proof (Nat.div_mod_eq i sub) as Hdm.
  pose proof (Nat.mod_upper_bound i sub Hsub) as Hub.
  split.
  - apply Nat.Div0.div_lt_upper_bound. lia.
  - unfold in_range, endIdx_of, startIdx_of. lia.
Qed.

Lemma range_disjoint (total sub t t' i : nat) :
  in_range total sub t i -> in_range total sub t' i -> t = t'.
Proof. unfold in_range, endIdx_of, startIdx_of. intros H1 H2. nia. Qed.

(** *** A worker of measure_segmentation_trt_performance_mul_concurrent *)

Section Workers.
Context {Tensor Scores Mask : Type} `{Engine Tensor Scores Mask}.

Lemma slice_length (l : list Tensor) (s e : nat) :
  (e <= length l)%nat -> length (slice l s e) = (e - s)%nat.
Proof. intros He. unfold slice. rewrite length_take, length_drop. lia. Qed.

Lemma slice_lookup (l : list Tensor) (s e j : nat) :
  (j < e - s)%nat -> slice l s e !! j = l !! (s + j)%nat.
Proof.
  intros Hj. unfold slice. rewrite lookup_take_lt by exact Hj. apply lookup_drop.
Qed.

Lemma pad_sub_batch_prefix (sub : list Tensor) :
  exists extra, pad_sub_batch sub = sub ++ extra.
Proof.
  unfold pad_sub_batch. destruct (length sub <? 4)%nat.
  - destruct (last sub) as [lf|]; [eexists; reflexivity|].
    exists []. symmetry. apply app_nil_r.
  - exists []. symmetry. apply app_nil_r.
Qed.

Lemma pad_sub_batch_spec (sub : list Tensor) :
  (1 <= length sub <= 4)%nat ->
  exists lastFrame,
    last sub = Some lastFrame /\
    pad_sub_batch sub = sub ++ replicate (4 - length sub) lastFrame /\
    length (pad_sub_batch sub) = 4%nat.
Proof.
  intros Hlen. destruct (last sub) as [lf|] eqn:Hlast.
  - exists lf. split; [reflexivity|].
    assert (Hpad : pad_sub_batch sub = sub ++ replicate (4 - length sub) lf).
    { unfold pad_sub_batch. rewrite Hlast.
      destruct (Nat.ltb_spec (length sub) 4) as [Hlt|Hge]; [reflexivity|].
      replace (4 - length sub)%nat with 0%nat by lia.
      simpl. symmetry. apply app_nil_r. }
    split; [exact Hpad|].
    rewrite Hpad, length_app, length_replicate. lia.
  - apply last_None in Hlast. subst sub. simpl in Hlen. lia.
Qed.

Lemma local_results_take (imagePost : list Mask) (n : nat) :
  (n <= length imagePost)%nat -> local_results imagePost n = take n imagePost.
Proof.
  unfold local_results. induction n as [|n IH]; intros Hn.
  - reflexivity.
  - rewrite for_loop_S, IH by lia.
    destruct (lookup_lt_is_Some_2 imagePost n) as [x Hx]; [lia|].
    rewrite Hx. symmetry. apply take_S_r, Hx.
Qed.

Lemma store_results_writes (localResults : list Mask) (startIdx n : nat)
    (allResults : list (option Mask)) :
  store_results localResults startIdx n allResults
  = write_row startIdx (fun _ j => Some <$> localResults !! j) n 1 allResults.
Proof.
  unfold store_results, write_row. apply for_loop_ext.
  intros i a _. unfold write_cell. rewrite Nat.mul_1_l.
  destruct (localResults !! i); reflexivity.
Qed.

Lemma store_results_length localResults startIdx n (allResults : list (option Mask)) :
  length (store_results localResults startIdx n allResults) = length allResults.
Proof. rewrite store_results_writes. apply write_row_length. Qed.

Lemma store_results_lookup localResults startIdx n (allResults : list (option Mask)) k :
  store_results localResults startIdx n allResults !! k =
  if decide (startIdx <= k < startIdx + n)%nat
  then cell_after (allResults !! k) (Some <$> localResults !! (k - startIdx)%nat)
  else allResults !! k.
Proof.
  rewrite store_results_writes, write_row_lookup, Nat.mul_1_l. reflexivity.
Qed.

(** The masks a thread keeps are those of its own slice. *)
Lemma thread_local_results (batch : list Tensor) (subBatch t : nat) :
  let startIdx := startIdx_of subBatch t in
  let endIdx := endIdx_of (length batch) subBatch t in
  local_results
    (torch_max_scaled <$> (infer <$> thread_batch batch subBatch t))
    (endIdx - startIdx)
  = seg_one <$> slice batch startIdx endIdx.
Proof.
  intros startIdx endIdx. unfold thread_batch. fold startIdx endIdx.
  assert (He : (endIdx <= length batch)%nat)
    by (unfold endIdx, endIdx_of; lia).
  pose proof (slice_length batch startIdx endIdx He) as Hsl.
  destruct (pad_sub_batch_prefix (slice batch startIdx endIdx)) as [extra ->].
  rewrite local_results_take
    by (rewrite !length_fmap, length_app; lia).
  rewrite <- list_fmap_compose, fmap_app.
  rewrite <- Hsl at 1.
  rewrite <- (length_fmap (torch_max_scaled ∘ infer) (slice batch startIdx endIdx)).
  rewrite take_app_length. reflexivity.
Qed.

(** The effect of a thread on [allResults], by the path it takes. *)
Lemma worker_thread_body (ctx_ok enq_ok : nat -> bool) (batch : list Tensor)
    (subBatch t : nat) (allResults : list (option Mask)) :
  worker_thread ctx_ok enq_ok batch subBatch t allResults
  = if negb (ctx_ok t) then Some allResults
    else if (endIdx_of (length batch) subBatch t <=? startIdx_of subBatch t)%nat
    then Some allResults
    else if negb (enq_ok t) then None
    else Some (store_results
                 (local_results
                    (torch_max_scaled <$> (infer <$> thread_batch batch subBatch t))
                    (endIdx_of (length batch) subBatch t - startIdx_of subBatch t))
                 (startIdx_of subBatch t)
                 (endIdx_of (length batch) subBatch t - startIdx_of subBatch t)
                 allResults).
Proof.
  unfold worker_thread, thread_run.
  destruct (ctx_ok t); [|reflexivity]. simpl negb. cbv iota zeta.
  destruct (_ <=? _)%nat; [reflexivity|].
  destruct (enq_ok t); reflexivity.
Qed.

Variable createExecutionContext_ok : nat -> bool.
Variable enqueueV2_ok : nat -> bool.
Hypothesis contexts_created : forall t, createExecutionContext_ok t = true.
Hypothesis enqueue_succeeds : forall t, enqueueV2_ok t = true.

Lemma worker_thread_effect (batch : list Tensor) (subBatch t : nat)
    (allResults : list (option Mask)) :
  length allResults = length batch ->
  exists allResults',
    worker_thread createExecutionContext_ok enqueueV2_ok batch subBatch t allResults
      = Some allResults' /\
    length allResults' = length batch /\
    forall k x, batch !! k = Some x ->
      (in_range (length batch) subBatch t k ->
         allResults' !! k = Some (Some (seg_one x))) /\
      (~ in_range (length batch) subBatch t k ->
         allResults' !! k = allResults !! k).
Proof.
  intros Hlen. rewrite worker_thread_body.
  rewrite contexts_created, enqueue_succeeds. simpl negb. cbv iota.
  set (startIdx := startIdx_of subBatch t).
  set (endIdx := endIdx_of (length batch) subBatch t).
  destruct (Nat.leb_spec endIdx startIdx) as [Hle|Hgt].
  - exists allResults. repeat split; try assumption.
    unfold in_range. fold startIdx endIdx. lia.
  - eexists. split; [reflexivity|].
    rewrite store_results_length. split; [exact Hlen|].
    intros k x Hx. rewrite store_results_lookup.
    pose proof (thread_local_results batch subBatch t) as Hloc.
    cbv zeta in Hloc. fold startIdx endIdx in Hloc. rewrite Hloc.
    unfold in_range. fold startIdx endIdx.
    assert (He : (endIdx <= length batch)%nat)
      by (unfold endIdx, endIdx_of; lia).
    split; intros Hin; case_decide; try lia; [|reflexivity].
    rewrite list_lookup_fmap, slice_lookup by lia.
    replace (startIdx + (k - startIdx))%nat with k by lia.
    rewrite Hx.
    destruct (lookup_lt_is_Some_2 allResults k) as [o ->];
      [rewrite Hlen; apply lookup_lt_Some in Hx; exact Hx|].
    reflexivity.
Qed.

(** Both orders in which the two threads can publish give every image
    its own mask. *)
Lemma run_threads_result (schedule : list nat) (batch : list Tensor) :
  schedule = [0; 1]%nat \/ schedule = [1; 0]%nat ->
  run_threads createExecutionContext_ok enqueueV2_ok schedule batch
  = Some ((fun x => Some (seg_one x)) <$> batch).
Proof.
  intros Hsched. unfold run_threads.
  set (sub := subBatch_of (length batch) numThreads).
  assert (Hcov : forall k, (k < length batch)%nat ->
            in_range (length batch) sub 0 k \/ in_range (length batch) sub 1 k).
  { intros k Hk.
    destruct (range_cover (length batch) numThreads k) as [t [Ht Hin]];
      [unfold numThreads; lia|exact Hk|].
    unfold numThreads in Ht. fold sub in Hin.
    destruct t as [|[|t]]; [left|right|lia]; exact Hin. }
  assert (Hdis : forall k, in_range (length batch) sub 0 k ->
            in_range (length batch) sub 1 k -> False).
  { intros k H0 H1. pose proof (range_disjoint _ _ _ _ _ H0 H1). discriminate. }
  assert (Hinit : length (replicate (length batch) (@None Mask)) = length batch)
    by apply length_replicate.
  destruct Hsched as [-> | ->]; simpl foldl.
  - destruct (worker_thread_effect batch sub 0 _ Hinit) as (a1 & -> & Hl1 & H1).
    simpl mbind.
    destruct (worker_thread_effect batch sub 1 _ Hl1) as (a2 & -> & Hl2 & H2).
    f_equal. apply list_eq. intros k. rewrite list_lookup_fmap.
    destruct (batch !! k) as [x|] eqn:Hx.
    + simpl. destruct (H1 k x Hx) as [H1in H1out].
      destruct (H2 k x Hx) as [H2in H2out].
      destruct (Hcov k) as [Hin|Hin]; [apply lookup_lt_Some in Hx; exact Hx| |].
      * rewrite H2out by (intros Hin'; exact (Hdis k Hin Hin')). apply H1in, Hin.
      * apply H2in, Hin.
    + simpl. apply lookup_ge_None_2. apply lookup_ge_None_1 in Hx. lia.
  - destruct (worker_thread_effect batch sub 1 _ Hinit) as (a1 & -> & Hl1 & H1).
    simpl mbind.
    destruct (worker_thread_effect batch sub 0 _ Hl1) as (a2 & -> & Hl2 & H2).
    f_equal. apply list_eq. intros k. rewrite list_lookup_fmap.
    destruct (batch !! k) as [x|] eqn:Hx.
    + simpl. destruct (H1 k x Hx) as [H1in H1out].
      destruct (H2 k x Hx) as [H2in H2out].
      destruct (Hcov k) as [Hin|Hin]; [apply lookup_lt_Some in Hx; exact Hx| |].
      * apply H2in, Hin.
      * rewrite H2out by (intros Hin'; exact (Hdis k Hin' Hin)). apply H1in, Hin.
    + simpl. apply lookup_ge_None_2. apply lookup_ge_None_1 in Hx. lia.
Qed.

End Workers.

End TrtFacts.

(** ** The orchestrator *)

Module VideoFacts.
Import Video.

Section Padding.
Context {Frame : Type}.

Lemma pad8_take_shape (f : Frame) (v : list Frame) :
  exists a b c d e g h i, pad8 (take 8 (f :: v)) = [a; b; c; d; e; g; h; i].
Proof.
  destruct v as [|f1 v]; [repeat eexists|].
  destruct v as [|f2 v]; [repeat eexists|].
  destruct v as [|f3 v]; [repeat eexists|].
  destruct v as [|f4 v]; [repeat eexists|].
  destruct v as [|f5 v]; [repeat eexists|].
  destruct v as [|f6 v]; [repeat eexists|].
  destruct v as [|f7 v]; repeat eexists.
Qed.

Lemma padded_unfold (f : Frame) (v : list Frame) :
  padded (f :: v) = pad8 (take 8 (f :: v)) ++ padded (drop 8 (f :: v)).
Proof.
  assert (Hl : (1 <= length (f :: v))%nat) by (simpl; lia).
  generalize dependent (f :: v). intros l Hl.
  destruct (last l) as [x|] eqn:Hlast;
    [|apply last_None in Hlast; subst l; simpl in Hl; lia].
  destruct (decide (length l <= 8)%nat) as [Hle|Hgt].
  - rewrite take_ge, drop_ge by lia.
    unfold padded, pad8. rewrite Hlast. simpl last.
    rewrite app_nil_r. f_equal. f_equal. lia.
  - assert (Hd : (1 <= length (drop 8 l))%nat) by (rewrite length_drop; lia).
    destruct (last (drop 8 l)) as [y|] eqn:Hlastd;
      [|apply last_None in Hlastd; rewrite Hlastd in Hd; simpl in Hd; lia].
    assert (Hxy : x = y).
    { rewrite <- (take_drop 8 l), last_app, Hlastd in Hlast. congruence. }
    subst y.
    assert (Ht : length (take 8 l) = 8%nat) by (rewrite length_take; lia).
    destruct (last (take 8 l)) as [z|] eqn:Hlastt;
      [|apply last_None in Hlastt; rewrite Hlastt in Ht; discriminate].
    unfold padded, pad8. rewrite Hlast, Hlastd, Hlastt, Ht, length_drop.
    rewrite Nat.sub_diag. cbn [replicate].
    rewrite app_nil_r, app_assoc, take_drop.
    f_equal. f_equal. lia.
Qed.

Lemma padded_length (video : list Frame) :
  length (padded video) = (8 * ((length video + 7) / 8))%nat.
Proof.
  unfold padded. destruct (last video) as [x|] eqn:Hlast.
  - rewrite length_app, length_replicate. lia.
  - apply last_None in Hlast. subst video. reflexivity.
Qed.

Lemma padded_spec (video : list Frame) (lastFrame : Frame) :
  last video = Some lastFrame ->
  padded video
  = video ++ replicate (8 * ((length video + 7) / 8) - length video) lastFrame.
Proof.
  intros Hlast. unfold padded. rewrite Hlast. f_equal. f_equal. lia.
Qed.

End Padding.

Section Facts.
Context {Frame Tensor Mask Out : Type}.
Variable process_img : Frame -> Tensor.
Variable segment : Tensor -> Mask.
Variable composite : option Frame -> option Mask -> Out.
Variable quit : nat -> bool.

Local Abbreviation mask_of := (Notions.mask_of process_img segment).

Lemma read_batch_nil :
  read_batch process_img [] = mkReadState [] [] [] true.
Proof. reflexivity. Qed.

Lemma read_batch_cons (f : Frame) (v : list Frame) :
  read_batch process_img (f :: v)
  = mkReadState (drop 8 (f :: v)) (process_img <$> pad8 (take 8 (f :: v)))
      (pad8 (take 8 (f :: v))) false.
Proof.
  destruct v as [|f1 v]; [reflexivity|].
  destruct v as [|f2 v]; [reflexivity|].
  destruct v as [|f3 v]; [reflexivity|].
  destruct v as [|f4 v]; [reflexivity|].
  destruct v as [|f5 v]; [reflexivity|].
  destruct v as [|f6 v]; [reflexivity|].
  destruct v as [|f7 v]; reflexivity.
Qed.

Lemma pad_batch_full (rs : @ReadState Frame Tensor) :
  length (rs_batch_frames rs) = 8%nat -> pad_batch rs = rs.
Proof.
  intros Hlen. unfold pad_batch.
  apply (for_loop_rel (fun a (_ : unit) => a = rs) 8 _ (fun _ u => u) rs tt);
    [reflexivity|].
  intros i a b _ ->. rewrite Hlen. reflexivity.
Qed.

Hypothesis never_quit : forall n, quit n = false.

Lemma drain_no_quit (offset : nat) (m0 m1 m2 m3 : Mask)
    (original_frames : list Frame) (sk : list Out) (sh : nat) :
  drain composite quit offset [m0; m1; m2; m3] original_frames
    (mkEmitState sk sh false)
  = mkEmitState
      (sk ++ [composite (original_frames !! (0 + offset)%nat) (Some m0);
              composite (original_frames !! (1 + offset)%nat) (Some m1);
              composite (original_frames !! (2 + offset)%nat) (Some m2);
              composite (original_frames !! (3 + offset)%nat) (Some m3)])
      (S (S (S (S sh)))) false.
Proof.
  unfold drain. rewrite !for_loop_S, for_loop_0.
  cbn [stopped shown sink]. rewrite never_quit.
  cbn [stopped shown sink]. rewrite never_quit.
  cbn [stopped shown sink]. rewrite never_quit.
  cbn [stopped shown sink]. rewrite never_quit.
  rewrite <- !app_assoc. reflexivity.
Qed.

(** Both drains of one pending batch of eight masks. *)
Lemma drains_no_quit (pm : list Mask) (original_frames : list Frame)
    (sk : list Out) (sh : nat) :
  length pm = 8%nat ->
  drain composite quit 4 (drop 4 pm) original_frames
    (drain composite quit 0 (take 4 pm) original_frames (mkEmitState sk sh false))
  = mkEmitState
      (sk ++ zip_with composite (bases8 original_frames) (Some <$> pm))
      (8 + sh) false.
Proof.
  intros Hlen.
  destruct pm as [|m0 [|m1 [|m2 [|m3 [|m4 [|m5 [|m6 [|m7 [|m8 pm]]]]]]]]];
    try discriminate.
  cbn [take drop]. rewrite !drain_no_quit. rewrite <- app_assoc. reflexivity.
Qed.

Lemma drain_futures_no_quit (pm : option (list Mask))
    (original_frames : list Frame) (sk : list Out) (sh : nat) :
  pending_ok pm ->
  exists sh',
    drain_future composite quit 4 (drop 4 <$> pm) original_frames
      (drain_future composite quit 0 (take 4 <$> pm) original_frames
         (mkEmitState sk sh false))
    = mkEmitState
        (sk ++ zip_with composite (bases8 original_frames)
                 (Some <$> pending_masks pm))
        sh' false /\
    drain_future composite quit 0 (take 4 <$> pm) original_frames
      (mkEmitState sk sh false)
    = match pm with
      | Some l => drain composite quit 0 (take 4 l) original_frames
                    (mkEmitState sk sh false)
      | None => mkEmitState sk sh false
      end.
Proof.
  intros Hok. destruct pm as [l|]; simpl in *.
  - exists (8 + sh)%nat. split; [apply drains_no_quit, Hok|reflexivity].
  - exists sh. rewrite app_nil_r. split; reflexivity.
Qed.

Lemma first_drain_not_stopped (l : list Mask) (original_frames : list Frame)
    (sk : list Out) (sh : nat) :
  length l = 8%nat ->
  stopped (drain composite quit 0 (take 4 l) original_frames
             (mkEmitState sk sh false)) = false.
Proof.
  intros Hlen.
  destruct l as [|m0 [|m1 [|m2 [|m3 [|m4 [|m5 [|m6 [|m7 [|m8 pm]]]]]]]]];
    try discriminate.
  cbn [take]. rewrite drain_no_quit. reflexivity.
Qed.

Lemma video_loop_nil (fuel : nat) (original_frames : list Frame)
    (f1 f2 : option (list Mask)) (es : EmitState) :
  video_loop process_img segment composite quit (S fuel)
    (mkLoopState [] original_frames f1 f2 es)
  = Some (mkLoopState [] [] f1 f2 es).
Proof. reflexivity. Qed.

(** One full iteration of the loop on a source that still has frames. *)
Lemma video_loop_cons (fuel : nat) (f : Frame) (v original_frames : list Frame)
    (pm : option (list Mask)) (sk : list Out) (sh : nat) :
  pending_ok pm ->
  let chunk := pad8 (take 8 (f :: v)) in
  exists sh',
    video_loop process_img segment composite quit (S fuel)
      (mkLoopState (f :: v) original_frames (take 4 <$> pm) (drop 4 <$> pm)
         (mkEmitState sk sh false))
    = video_loop process_img segment composite quit fuel
        (mkLoopState (drop 8 (f :: v)) chunk
           (take 4 <$> Some (mask_of <$> chunk))
           (drop 4 <$> Some (mask_of <$> chunk))
           (mkEmitState
              (sk ++ zip_with composite (bases8 chunk) (Some <$> pending_masks pm))
              sh' false)).
Proof.
  intros Hok chunk.
  destruct (drain_futures_no_quit pm chunk sk sh Hok) as (sh' & Hboth & Hfirst).
  exists sh'.
  cbn [video_loop ls_video segFuture1 segFuture2 ls_emit ls_original_frames].
  rewrite read_batch_cons. fold chunk.
  cbn [rs_batch_frames rs_original_frames rs_video].
  destruct (pad8_take_shape f v) as (a & b & c & d & e & g & h & i & Hshape).
  fold chunk in Hshape.
  assert (Hfull : pad_batch (mkReadState (drop 8 (f :: v)) (process_img <$> chunk)
                               chunk false)
                  = mkReadState (drop 8 (f :: v)) (process_img <$> chunk) chunk false).
  { apply pad_batch_full. cbn [rs_batch_frames]. rewrite Hshape. reflexivity. }
  assert (Hne : exists t ts, process_img <$> chunk = t :: ts)
    by (rewrite Hshape; repeat eexists).
  destruct Hne as (t & ts & Hts). rewrite Hts. rewrite <- Hts.
  rewrite Hfull. cbn [rs_batch_frames rs_original_frames rs_video].
  assert (Hs1 : stopped (drain_future composite quit 0 (take 4 <$> pm) chunk
                           (mkEmitState sk sh false)) = false).
  { rewrite Hfirst. destruct pm as [l|]; [|reflexivity].
    apply first_drain_not_stopped, Hok. }
  rewrite Hs1, Hboth. cbn [stopped].
  change mask_of with (segment ∘ process_img). rewrite !list_fmap_compose.
  cbn [fmap option_fmap option_map]. rewrite fmap_take, fmap_drop. reflexivity.
Qed.

(** The loop and the final drain: the sink grows by one write per slot
    of the pending batch and of every batch still to be read. *)
Lemma video_loop_no_quit (fuel : nat) :
  forall (v original_frames : list Frame) (pm : option (list Mask))
         (sk : list Out) (sh : nat),
    (length v < fuel)%nat -> pending_ok pm ->
    exists st bases,
      video_loop process_img segment composite quit fuel
        (mkLoopState v original_frames (take 4 <$> pm) (drop 4 <$> pm)
           (mkEmitState sk sh false)) = Some st /\
      length bases = (length (pending_masks pm) + length (padded v))%nat /\
      final_drain composite quit st
      = sk ++ zip_with composite bases
                (Some <$> (pending_masks pm ++ (mask_of <$> padded v))).
Proof.
  induction fuel as [|fuel IH]; intros v original_frames pm sk sh Hfuel Hok;
    [lia|].
  destruct v as [|f v].
  - rewrite video_loop_nil.
    destruct (drain_futures_no_quit pm [] sk sh Hok) as (sh' & Hboth & Hfirst).
    exists (mkLoopState [] [] (take 4 <$> pm) (drop 4 <$> pm)
              (mkEmitState sk sh false)).
    exists (match pm with Some _ => bases8 [] | None => [] end).
    split; [reflexivity|]. split.
    + destruct pm as [l|]; simpl in *; [rewrite Hok|]; reflexivity.
    + unfold final_drain.
      cbn [ls_emit stopped segFuture1 segFuture2 ls_original_frames].
      assert (Hs1 : stopped (drain_future composite quit 0 (take 4 <$> pm) []
                               (mkEmitState sk sh false)) = false).
      { rewrite Hfirst. destruct pm as [l|]; [|reflexivity].
        apply first_drain_not_stopped, Hok. }
      rewrite Hs1, Hboth. cbn [sink]. change (padded []) with (@nil Frame).
      rewrite fmap_nil, app_nil_r.
      destruct pm as [l|]; [reflexivity|]. simpl. reflexivity.
  - destruct (video_loop_cons fuel f v original_frames pm sk sh Hok) as [sh' ->].
    set (chunk := pad8 (take 8 (f :: v))).
    assert (Hchunk : length chunk = 8%nat).
    { destruct (pad8_take_shape f v) as (a & b & c & d & e & g & h & i & Hshape).
      unfold chunk. rewrite Hshape. reflexivity. }
    destruct (IH (drop 8 (f :: v)) chunk (Some (mask_of <$> chunk))
                (sk ++ zip_with composite (bases8 chunk) (Some <$> pending_masks pm))
                sh') as (st & bases & Hst & Hlen & Hfinal).
    { rewrite length_drop. simpl in *. lia. }
    { simpl. rewrite length_fmap. exact Hchunk. }
    exists st.
    exists (match pm with Some _ => bases8 chunk | None => [] end ++ bases).
    split; [exact Hst|]. split.
    + rewrite padded_unfold. fold chunk.
      rewrite !length_app, Hlen. simpl pending_masks.
      rewrite length_fmap, Hchunk.
      destruct pm as [l|]; simpl in *; [rewrite Hok|]; lia.
    + rewrite Hfinal. simpl pending_masks. rewrite padded_unfold. fold chunk.
      rewrite <- app_assoc. f_equal.
      rewrite (fmap_app mask_of), !fmap_app.
      destruct pm as [l|].
      * rewrite zip_with_app; [reflexivity|].
        simpl in *. rewrite length_fmap, Hok. reflexivity.
      * simpl. reflexivity.
Qed.

End Facts.

End VideoFacts.

(** ** The blend at concrete images *)

Module BlendClaims.
Import Cv Glow GlowFacts BlendFacts SpecWords Examples.

Lemma mix_images_size_mismatch `{ColorConversion} (src dst mip : Image) (key_scale : Z) :
  Image_empty src = false -> Image_empty dst = false -> Image_empty mip = false ->
  Image_size src <> Image_size dst \/ Image_size src <> Image_size mip ->
  mix_images src dst mip key_scale = inl SizeMismatch.
Proof.
  intros H1 H2 H3 Hsz. unfold mix_images. rewrite H1, H2, H3. simpl orb.
  destruct (size_eqb (Image_size src) (Image_size dst)) eqn:E1;
    destruct (size_eqb (Image_size src) (Image_size mip)) eqn:E2;
    try reflexivity.
  apply size_eqb_eq in E1. apply size_eqb_eq in E2. tauto.
Qed.

(** C1, as stated, fails: at [intensityScale = 0] a frame pixel
    (10, 20, 30) does not keep its channel values. *)
Lemma blend_zero_scale_changes_frame :
  ~ (exists out,
       @mix_images bt601 (Img8UC3 frame_1x1)
         (Img8UC4 (glow_blow (Img8UC1 mask_1x1) Mat_nil 56 20))
         white_mipmap_1x1 0 = inr out /\
       channels_preserved frame_1x1 out).
Proof.
  intros (out & Hout & Hpres). vm_compute in Hout. injection Hout as <-.
  destruct (Hpres 0%nat 0%nat (mkVec3b 10 20 30) eq_refl) as (q & Hq & Hc & _).
  vm_compute in Hq. injection Hq as <-. simpl in Hc. discriminate.
Qed.

Lemma blend_zero_scale_witness :
  exists out,
    @mix_images bt601 (Img8UC3 frame_1x1)
      (Img8UC4 (glow_blow (Img8UC1 mask_1x1) Mat_nil 56 20))
      white_mipmap_1x1 0 = inr out /\
    Mat_at out 0 0 = Some (mkVec4b 9 19 29 254).
Proof.
  destruct (@blend_zero_scale bt601 frame_1x1 mask_1x1 white_mipmap_1x1 Mat_nil 56 20
              eq_refl eq_refl eq_refl eq_refl) as (out & H1 & _ & H3).
  exists out. split; [exact H1|].
  apply (H3 0%nat 0%nat (mkVec3b 10 20 30));
    [simpl; lia|simpl; lia|reflexivity|].
  unfold uchar_px. simpl. lia.
Defined.

(** C2, at the failing input: with the luma 255 and the scale 600 the
    code's weight is [597 mod 256 = 85], where the clamped weight of the
    specification is 255; the blended pixel is (42, 0, 42, 254) where the
    clamped weight gives (127, 0, 127, 254). *)
Theorem blend_weight_wraps_at_600 :
  blend_alpha 255 600 = 85 /\
  spec_weight 255 600 = 255 /\
  @mix_images bt601 (Img8UC3 black_1x1)
    (Img8UC4 (glow_blow (Img8UC1 mask_1x1) Mat_nil 56 10))
    white_mipmap_1x1 600 = inr (mkMat 1 1 [mkVec4b 42 0 42 254]) /\
  blend_px (mkVec4b 0 0 0 255) overlay_color (spec_weight 255 600)
  = mkVec4b 127 0 127 254.
Proof. repeat split; vm_compute; reflexivity. Qed.

End BlendClaims.

(** ** The mipmap buffer and the pipeline at concrete inputs *)

Module PipelineClaims.
Import Cv Glow GlowFacts PipelineFacts Examples.


(** When no event is ever ready, every result slot stays empty. *)
Lemma pipeline_never_ready {Scale : Type} `{MipmapFilter Scale}
    (junk : nat -> uchar4) (masks : list (Mat Z)) (w h : nat) (scale : Scale)
    (key : Z) (query : nat -> cudaError_t) :
  (forall i, query i = cudaErrorNotReady) ->
  triple_buffered_mipmap_pipeline junk masks w h scale key query
  = Some (replicate (length masks) Mat_nil).
Proof.
  intros Hq. rewrite pipeline_outputs by (intros k _; rewrite Hq; discriminate).
  f_equal. apply list_eq. intros k. rewrite list_lookup_fmap.
  destruct (decide (k < length masks)%nat) as [Hk|Hk].
  - rewrite lookup_seq_lt, lookup_replicate_2 by exact Hk. simpl.
    unfold harvested. rewrite Hq. reflexivity.
  - rewrite (lookup_ge_None_2 (seq 0 (length masks))) by (rewrite length_seq; lia).
    symmetry. apply lookup_ge_None_2. rewrite length_replicate. lia.
Qed.

(** C4, at the failing input: one mask whose event is not ready when it
    is polled at step 2. The pipeline returns without waiting and its only
    result is an empty image; with a ready event it is the filter's
    output. *)
Theorem pipeline_unready_slot_stays_empty :
  @triple_buffered_mipmap_pipeline unit copy_filter no_junk [mask_1x1] 1 1 tt 56
    (fun _ => cudaErrorNotReady) = Some [Mat_nil] /\
  @triple_buffered_mipmap_pipeline unit copy_filter no_junk [mask_1x1] 1 1 tt 56
    (fun _ => cudaSuccess) = Some [mkMat 1 1 [mkVec4b 56 56 56 255]].
Proof. split; reflexivity. Qed.

(** C7. The results come back in the order of the masks; the filter
    output of mask [i] is written to buffer slot [i mod 3] at step [i],
    over the front of what that slot held (the buffer of mask [i - 3], or
    the fresh allocation), stays there untouched and unharvested through
    step [i + 1], and is copied out of that slot by the poll of step
    [i + 2]: what slot [i] of the output then holds is the buffer as the
    launch for mask [i] left it (or nothing, when the event was not
    ready). For a mask of the frame's size that buffer is the filter's
    output for mask [i]. *)
Theorem triple_buffer_order {Scale : Type} `{MipmapFilter Scale}
    (junk : nat -> uchar4) (masks : list (Mat Z)) (w h : nat) (scale : Scale)
    (key : Z) (query : nat -> cudaError_t) :
  (forall k, (k < length masks)%nat -> query (k + 2)%nat <> cudaErrorOther) ->
  (forall k, (k < length masks)%nat ->
     (length (job junk masks scale key k) <= w * h)%nat) ->
  let slot := slot_after junk masks w h scale key in
  let result := fun i =>
    match query (i + 2)%nat with
    | cudaSuccess => mkMat h w (take (w * h) (slot i))
    | _ => Mat_nil
    end in
  triple_buffered_mipmap_pipeline junk masks w h scale key query
  = Some (result <$> seq 0 (length masks)) /\
  forall i, (i < length masks)%nat ->
    (slot i
     = job junk masks scale key i
       ++ drop (length (job junk masks scale key i))
            (slot_before junk masks w h scale key i) /\
     length (slot i) = (w * h)%nat /\
     (length (job junk masks scale key i) = (w * h)%nat ->
      slot i = job junk masks scale key i)) /\
    (exists st, pipeline_state junk masks w h scale key query (i + 1) = Some st /\
                tripleDst st !! (i mod 3)%nat = Some (slot i) /\
                outputImages st !! i = Some Mat_nil) /\
    (exists st, pipeline_state junk masks w h scale key query (i + 2) = Some st /\
                tripleDst st !! (i mod 3)%nat = Some (slot i) /\
                outputImages st !! i = Some Mat_nil) /\
    (exists st, pipeline_state junk masks w h scale key query (i + 3) = Some st /\
                outputImages st !! i = Some (result i)).
Proof.
  intros Hq Hfit slot result. split.
  - apply pipeline_outputs, Hq.
  - intros i Hi. split.
    + split; [|split].
      * unfold slot. rewrite slot_after_step. apply write_front_fits.
        rewrite length_slot_before. apply Hfit, Hi.
      * apply length_slot_after.
      * apply slot_after_full.
    + apply (pipeline_slot_life junk masks w h scale key query Hq i Hi).
Qed.

Lemma triple_buffer_order_witness :
  @triple_buffered_mipmap_pipeline unit copy_filter no_junk
    [mask_1x1; mkMat 1 1 [7]] 2 1 tt 56 (fun _ => cudaSuccess)
  = Some [mkMat 1 2 [mkVec4b 56 56 56 255; mkVec4b 0 0 0 0];
          mkMat 1 2 [mkVec4b 0 0 0 0; mkVec4b 0 0 0 0]].
Proof.
  pose proof (@triple_buffer_order unit copy_filter no_junk
                [mask_1x1; mkMat 1 1 [7]] 2 1 tt 56 (fun _ => cudaSuccess))
    as Horder.
  cbv zeta in Horder. destruct Horder as [Hresults _].
  - intros k _. discriminate.
  - intros [|[|k]] Hk; simpl in Hk; [vm_compute; lia|vm_compute; lia|lia].
  - rewrite Hresults. vm_compute. reflexivity.
Defined.

End PipelineClaims.

(** ** The orchestrator's claims *)

Module VideoClaims.
Import Video VideoFacts.

(** C3 (amended). When no quit key is pressed, a video of [N >= 1] frames
    gives [8 * ceil(N / 8)] writes, one per slot of every batch of eight:
    the k-th write is composited with the mask of the k-th frame of the
    video filled up with copies of its last frame. *)
Theorem video_writes_padded_batches {Frame Tensor Mask Out : Type}
    (process_img : Frame -> Tensor) (segment : Tensor -> Mask)
    (composite : option Frame -> option Mask -> Out) (quit : nat -> bool)
    (video : list Frame) (lastFrame : Frame) :
  (forall n, quit n = false) -> last video = Some lastFrame ->
  let N := length video in
  let total := (8 * ((N + 7) / 8))%nat in
  exists sink bases,
    glow_effect_video process_img segment composite quit video = Some sink /\
    length sink = total /\
    length bases = total /\
    sink = zip_with composite bases
             (Some <$> ((fun f => segment (process_img f)) <$>
                          (video ++ replicate (total - N) lastFrame))).
Proof.
  intros Hquit Hlast N total.
  destruct (video_loop_no_quit process_img segment composite quit Hquit
              (S N) video [] None [] 0%nat) as (st & bases & Hst & Hlen & Hfinal);
    [unfold N; lia|exact I|].
  cbn [pending_masks length app] in Hlen, Hfinal.
  rewrite padded_length in Hlen. rewrite (padded_spec video lastFrame Hlast) in Hfinal.
  fold N in Hlen, Hfinal. fold total in Hlen, Hfinal.
  exists (final_drain composite quit st), bases.
  split; [|split; [|split]].
  - unfold glow_effect_video. fold N.
    exact (f_equal (fmap (final_drain composite quit)) Hst).
  - rewrite Hfinal, length_zip_with, !length_fmap, length_app, length_replicate.
    fold N. unfold total in *. lia.
  - exact Hlen.
  - exact Hfinal.
Qed.

(** What the sink receives for nine frames: frames 0 to 7 are never the
    base of a write. *)
Lemma video_nine_frames_sink :
  glow_effect_video (fun f : nat => f) (fun t : nat => t)
    (fun (b : option nat) (m : option nat) => (b, m)) (fun _ => false) (seq 0 9)
  = Some (((fun k => (Some 8%nat, Some k)) <$> seq 0 8)
          ++ replicate 8 (None, Some 8%nat)).
Proof. vm_compute. reflexivity. Qed.

(** What the sink receives for sixteen frames, where no batch is padded:
    the masks of frames 0 to 7 are blended over frames 8 to 15, and the
    masks of frames 8 to 15 over the slots of a cleared vector. *)
Lemma video_sixteen_frames_sink :
  glow_effect_video (fun f : nat => f) (fun t : nat => t)
    (fun (b : option nat) (m : option nat) => (b, m)) (fun _ => false) (seq 0 16)
  = Some (((fun k => (Some (k + 8)%nat, Some k)) <$> seq 0 8)
          ++ ((fun k => (None, Some k)) <$> seq 8 8)).
Proof. vm_compute. reflexivity. Qed.

(** C3, as stated, fails: nine frames do not give nine writes, one per
    frame in order; nor do they give, with the seven padding copies
    admitted, every frame blended with its own mask. *)
Lemma video_nine_frames_not_nine_writes :
  ~ (glow_effect_video (fun f : nat => f) (fun t : nat => t)
       (fun (b : option nat) (m : option nat) => (b, m)) (fun _ => false) (seq 0 9)
     = Some ((fun f => (Some f, Some f)) <$> seq 0 9)) /\
  ~ (glow_effect_video (fun f : nat => f) (fun t : nat => t)
       (fun (b : option nat) (m : option nat) => (b, m)) (fun _ => false) (seq 0 9)
     = Some ((fun f => (Some f, Some f)) <$> padded (seq 0 9))).
Proof.
  split.
  - intros Hclaim. apply (f_equal (fun o => length <$> o)) in Hclaim.
    vm_compute in Hclaim. discriminate.
  - intros Hclaim. vm_compute in Hclaim. discriminate.
Qed.

Lemma video_writes_padded_batches_witness :
  exists sink,
    glow_effect_video (fun f : nat => f) (fun t : nat => t)
      (fun (b : option nat) (m : option nat) => (b, m)) (fun _ => false) (seq 0 9)
    = Some sink /\ length sink = 16%nat.
Proof.
  destruct (video_writes_padded_batches (fun f : nat => f) (fun t : nat => t)
              (fun (b : option nat) (m : option nat) => (b, m)) (fun _ => false)
              (seq 0 9) 8%nat (fun _ => eq_refl) eq_refl)
    as (sink & bases & Hsink & Hlen & _).
  exists sink. split; [exact Hsink|exact Hlen].
Defined.

End VideoClaims.

(** * Further properties *)

Import MoreNotions.

(** ** Loops that update a row-major buffer in place *)

Section Alters.
Context {A : Type}.
Variable c : nat.
Variable f : nat -> nat -> A -> A.

Lemma alter_row_lookup n i d k :
  alter_row c f n i d !! k =
  if decide (i * c <= k < i * c + n)%nat
  then f i (k - i * c)%nat <$> d !! k
  else d !! k.
Proof.
  unfold alter_row. induction n as [|n IH].
  - rewrite for_loop_0. destruct (decide _); [lia|reflexivity].
  - rewrite for_loop_S. unfold alter_cell at 1.
    destruct (decide (k = i * c + n)%nat) as [->|Hne].
    + rewrite list_lookup_alter_eq, IH.
      replace (i * c + n - i * c)%nat with n by lia.
      destruct (decide (i * c <= i * c + n < i * c + S n)%nat); [|lia].
      destruct (decide (i * c <= i * c + n < i * c + n)%nat); [lia|].
      reflexivity.
    + rewrite list_lookup_alter_ne by lia. rewrite IH.
      destruct (decide _), (decide _); try lia; reflexivity.
Qed.

Lemma alter_row_length n i d : length (alter_row c f n i d) = length d.
Proof.
  unfold alter_row. induction n as [|n IH]; [reflexivity|].
  rewrite for_loop_S. unfold alter_cell at 1. rewrite length_alter. exact IH.
Qed.

Lemma alter_rows_length r d : length (alter_rows c f r d) = length d.
Proof.
  unfold alter_rows. induction r as [|r IH]; [reflexivity|].
  rewrite for_loop_S, alter_row_length. exact IH.
Qed.

Lemma alter_rows_lookup r d k :
  alter_rows c f r d !! k =
  if decide (k < r * c)%nat
  then f (k / c)%nat (k mod c)%nat <$> d !! k
  else d !! k.
Proof.
  unfold alter_rows. induction r as [|r IH].
  - rewrite for_loop_0. destruct (decide _); [lia|reflexivity].
  - rewrite for_loop_S, alter_row_lookup, IH.
    destruct (decide (r * c <= k < r * c + c)%nat) as [Hin|Hout].
    + destruct (decide (k < r * c)%nat); [lia|].
      destruct (decide (k < S r * c)%nat); [|lia].
      assert (Hc : (0 < c)%nat) by lia.
      assert (Hq : (k / c = r)%nat).
      { symmetry. apply (Nat.div_unique k c r (k - r * c)); lia. }
      assert (Hm : (k mod c = k - r * c)%nat).
      { symmetry. apply (Nat.mod_unique k c r (k - r * c)); lia. }
      rewrite Hq, Hm. reflexivity.
    + destruct (decide (k < r * c)%nat), (decide (k < S r * c)%nat);
        try lia; reflexivity.
Qed.

Lemma alter_rows_at r d i j :
  (i < r)%nat -> (j < c)%nat ->
  alter_rows c f r d !! (i * c + j)%nat = f i j <$> d !! (i * c + j)%nat.
Proof.
  intros Hi Hj. rewrite alter_rows_lookup.
  destruct (decide _) as [_|Hn]; [|nia].
  assert (Hq : ((i * c + j) / c = i)%nat).
  { symmetry. apply (Nat.div_unique _ c i j); lia. }
  assert (Hm : ((i * c + j) mod c = j)%nat).
  { symmetry. apply (Nat.mod_unique _ c i j); lia. }
  rewrite Hq, Hm. reflexivity.
Qed.

Lemma insert_as_alter (g : A -> A) (d : list A) (k : nat) (x : A) :
  d !! k = Some x -> <[k := g x]> d = alter g k d.
Proof.
  intros Hx. apply list_eq. intros n.
  destruct (decide (n = k)) as [->|Hne].
  - rewrite list_lookup_insert_eq by (apply lookup_lt_Some in Hx; exact Hx).
    rewrite list_lookup_alter_eq, Hx. reflexivity.
  - rewrite list_lookup_insert_ne, list_lookup_alter_ne by congruence. reflexivity.
Qed.

Lemma alter_out_of_range (g : A -> A) (d : list A) (k : nat) :
  d !! k = None -> alter g k d = d.
Proof.
  intros Hx. apply list_eq. intros n.
  destruct (decide (n = k)) as [->|Hne].
  - rewrite list_lookup_alter_eq, Hx. reflexivity.
  - rewrite list_lookup_alter_ne by congruence. reflexivity.
Qed.

End Alters.

(** ** The threads of the two batched inference functions *)

Module WorkerFacts.
Import Trt TrtMore TrtFacts.

Section OwnSlice.
Context {Tensor Mask : Type}.
Variable mask : Tensor -> Mask.

(** The masks a thread keeps are those of its own slice, whatever the
    reduction that produced them. *)
Lemma local_results_own_slice (batch : list Tensor) (subBatch t : nat) :
  let startIdx := startIdx_of subBatch t in
  let endIdx := endIdx_of (length batch) subBatch t in
  local_results (mask <$> thread_batch batch subBatch t) (endIdx - startIdx)
  = mask <$> slice batch startIdx endIdx.
Proof.
  intros startIdx endIdx. unfold thread_batch. fold startIdx endIdx.
  assert (He : (endIdx <= length batch)%nat) by (unfold endIdx, endIdx_of; lia).
  pose proof (slice_length batch startIdx endIdx He) as Hsl.
  destruct (pad_sub_batch_prefix (slice batch startIdx endIdx)) as [extra ->].
  rewrite local_results_take by (rewrite length_fmap, length_app; lia).
  rewrite fmap_app. rewrite <- Hsl at 1.
  rewrite <- (length_fmap mask (slice batch startIdx endIdx)).
  rewrite take_app_length. reflexivity.
Qed.

(** What the locked loop of thread [t] leaves in [allResults]. *)
Lemma own_store (batch : list Tensor) (subBatch t : nat)
    (allResults : list (option Mask)) :
  let startIdx := startIdx_of subBatch t in
  let endIdx := endIdx_of (length batch) subBatch t in
  let allResults' :=
    store_results
      (local_results (mask <$> thread_batch batch subBatch t) (endIdx - startIdx))
      startIdx (endIdx - startIdx) allResults in
  length allResults = length batch ->
  length allResults' = length batch /\
  forall k x, batch !! k = Some x ->
    (in_range (length batch) subBatch t k -> allResults' !! k = Some (Some (mask x))) /\
    (~ in_range (length batch) subBatch t k -> allResults' !! k = allResults !! k).
Proof.
  intros startIdx endIdx allResults' Hlen. unfold allResults'.
  rewrite store_results_length. split; [exact Hlen|].
  intros k x Hx. rewrite store_results_lookup.
  pose proof (local_results_own_slice batch subBatch t) as Hloc.
  cbv zeta in Hloc. fold startIdx endIdx in Hloc. rewrite Hloc.
  unfold in_range. fold startIdx endIdx.
  assert (He : (endIdx <= length batch)%nat) by (unfold endIdx, endIdx_of; lia).
  split; intros Hin; case_decide; try lia; [|reflexivity].
  rewrite list_lookup_fmap, slice_lookup by lia.
  replace (startIdx + (k - startIdx))%nat with k by lia.
  rewrite Hx.
  destruct (lookup_lt_is_Some_2 allResults k) as [o ->];
    [rewrite Hlen; apply lookup_lt_Some in Hx; exact Hx|].
  reflexivity.
Qed.

(** Two threads, each of which either publishes the masks of its slice
    or leaves [allResults] alone, in either order. *)
Lemma two_threads (thr : nat -> list (option Mask) -> option (list (option Mask)))
    (ok : nat -> bool) (batch : list Tensor) (schedule : list nat) :
  let subBatch := subBatch_of (length batch) numThreads in
  (forall t allResults, length allResults = length batch ->
     thr t allResults
     = Some (if ok t
             then store_results
                    (local_results (mask <$> thread_batch batch subBatch t)
                       (endIdx_of (length batch) subBatch t - startIdx_of subBatch t))
                    (startIdx_of subBatch t)
                    (endIdx_of (length batch) subBatch t - startIdx_of subBatch t)
                    allResults
             else allResults)) ->
  schedule = [0; 1]%nat \/ schedule = [1; 0]%nat ->
  exists res,
    foldl (fun allResults t => allResults ≫= thr t)
      (Some (replicate (length batch) None)) schedule = Some res /\
    length res = length batch /\
    forall k x t, batch !! k = Some x -> in_range (length batch) subBatch t k ->
      res !! k = Some (if ok t then Some (mask x) else None).
Proof.
  intros sub Hthr Hsched.
  assert (Heff : forall t all, length all = length batch ->
            exists all', thr t all = Some all' /\ length all' = length batch /\
              forall k x, batch !! k = Some x ->
                (in_range (length batch) sub t k ->
                   all' !! k = if ok t then Some (Some (mask x)) else all !! k) /\
                (~ in_range (length batch) sub t k -> all' !! k = all !! k)).
  { intros t all Hlen. rewrite (Hthr t all Hlen).
    destruct (own_store batch sub t all Hlen) as [Hl Hat].
    destruct (ok t); eexists; (split; [reflexivity|]).
    - split; [exact Hl|exact Hat].
    - split; [exact Hlen|]. intros k x Hx. split; reflexivity. }
  assert (Hcov : forall k, (k < length batch)%nat ->
            in_range (length batch) sub 0 k \/ in_range (length batch) sub 1 k).
  { intros k Hk.
    destruct (range_cover (length batch) numThreads k) as [t [Ht Hin]];
      [unfold numThreads; lia|exact Hk|].
    unfold numThreads in Ht. fold sub in Hin.
    destruct t as [|[|t]]; [left|right|lia]; exact Hin. }
  assert (Hinit : length (replicate (length batch) (@None Mask)) = length batch)
    by apply length_replicate.
  assert (Hnone : forall k x, batch !! k = Some x ->
            replicate (length batch) (@None Mask) !! k = Some None).
  { intros k x Hx. apply lookup_replicate_2. apply lookup_lt_Some in Hx. exact Hx. }
  destruct Hsched as [-> | ->]; cbn [foldl mbind option_bind].
  - destruct (Heff 0%nat _ Hinit) as (a1 & -> & Hl1 & H1). cbn [mbind option_bind].
    destruct (Heff 1%nat _ Hl1) as (a2 & -> & Hl2 & H2).
    exists a2. split; [reflexivity|]. split; [exact Hl2|].
    intros k x t Hx Hin.
    destruct (H1 k x Hx) as [H1in H1out]. destruct (H2 k x Hx) as [H2in H2out].
    destruct (Hcov k) as [Hin'|Hin']; [apply lookup_lt_Some in Hx; exact Hx| |];
      pose proof (range_disjoint _ _ _ _ _ Hin Hin') as ->.
    + rewrite H2out by (intros Hin1; pose proof (range_disjoint _ _ _ _ _ Hin Hin1);
                        discriminate).
      rewrite (H1in Hin). destruct (ok 0%nat); [reflexivity|]. eapply Hnone, Hx.
    + rewrite (H2in Hin). destruct (ok 1%nat); [reflexivity|].
      rewrite H1out by (intros Hin0; pose proof (range_disjoint _ _ _ _ _ Hin Hin0);
                        discriminate).
      eapply Hnone, Hx.
  - destruct (Heff 1%nat _ Hinit) as (a1 & -> & Hl1 & H1). cbn [mbind option_bind].
    destruct (Heff 0%nat _ Hl1) as (a2 & -> & Hl2 & H2).
    exists a2. split; [reflexivity|]. split; [exact Hl2|].
    intros k x t Hx Hin.
    destruct (H1 k x Hx) as [H1in H1out]. destruct (H2 k x Hx) as [H2in H2out].
    destruct (Hcov k) as [Hin'|Hin']; [apply lookup_lt_Some in Hx; exact Hx| |];
      pose proof (range_disjoint _ _ _ _ _ Hin Hin') as ->.
    + rewrite (H2in Hin). destruct (ok 0%nat); [reflexivity|].
      rewrite H1out by (intros Hin1; pose proof (range_disjoint _ _ _ _ _ Hin Hin1);
                        discriminate).
      eapply Hnone, Hx.
    + rewrite H2out by (intros Hin0; pose proof (range_disjoint _ _ _ _ _ Hin Hin0);
                        discriminate).
      rewrite (H1in Hin). destruct (ok 1%nat); [reflexivity|]. eapply Hnone, Hx.
Qed.

(** Once a thread has ended the process, nothing is returned. *)
Lemma foldl_bind_None (thr : nat -> list (option Mask) -> option (list (option Mask)))
    (schedule : list nat) :
  foldl (fun allResults t => allResults ≫= thr t) None schedule = None.
Proof. induction schedule as [|t s IH]; [reflexivity|exact IH]. Qed.

Lemma foldl_bind_exits (thr : nat -> list (option Mask) -> option (list (option Mask)))
    (schedule : list nat) (t : nat) (init : option (list (option Mask))) :
  t ∈ schedule -> (forall allResults, thr t allResults = None) ->
  foldl (fun allResults t => allResults ≫= thr t) init schedule = None.
Proof.
  intros Hin Hexit. revert init.
  induction schedule as [|t' s IH]; intros init; [inversion Hin|].
  cbn [foldl]. apply elem_of_cons in Hin as [<-|Hin].
  - destruct init as [a|]; cbn [mbind option_bind];
      [rewrite Hexit|]; apply foldl_bind_None.
  - apply IH, Hin.
Qed.

End OwnSlice.

End WorkerFacts.

Module WorkerProps.
Import Trt TrtMore TrtFacts WorkerFacts Examples.



(** In measure_segmentation_trt_performance_mul_concurrent a failed
    [enqueueV2] in a thread that has a context and at least one image ends
    the process ([exit(EXIT_FAILURE)]): no vector is returned, the masks the
    other thread computed included. *)
Theorem enqueue_failure_ends_process {Tensor Scores Mask : Type}
    `{Engine Tensor Scores Mask}
    (createExecutionContext_ok enqueueV2_ok : nat -> bool)
    (batch : list Tensor) (schedule : list nat) (t : nat) :
  t ∈ schedule ->
  createExecutionContext_ok t = true ->
  (startIdx_of (subBatch_of (length batch) numThreads) t < length batch)%nat ->
  (0 < length batch)%nat ->
  enqueueV2_ok t = false ->
  run_threads createExecutionContext_ok enqueueV2_ok schedule batch = None.
Proof.
  intros Hin Hctx Hstart Hpos Henq. unfold run_threads.
  apply (foldl_bind_exits _ schedule t); [exact Hin|].
  intros all. rewrite worker_thread_body. rewrite Hctx, Henq. simpl negb. cbv iota.
  set (sub := subBatch_of (length batch) numThreads) in *.
  assert (Hsub : (0 < sub)%nat).
  { pose proof (subBatch_covers (length batch) numThreads ltac:(unfold numThreads; lia)).
    fold sub in H0. unfold numThreads in H0. lia. }
  destruct (Nat.leb_spec (endIdx_of (length batch) sub t) (startIdx_of sub t))
    as [Hle|Hgt]; [|reflexivity].
  unfold endIdx_of in Hle. lia.
Qed.

Lemma enqueue_failure_ends_process_witness :
  @measure_segmentation_trt_performance_mul_concurrent nat nat nat toy_engine
    (fun _ => true) (fun t => (t =? 0)%nat) [1; 2; 3; 4; 5]%nat
  = None.
Proof.
  apply (@enqueue_failure_ends_process nat nat nat toy_engine (fun _ => true)
           (fun t => (t =? 0)%nat) [1; 2; 3; 4; 5]%nat [0; 1]%nat 1%nat).
  - apply list_elem_of_lookup. exists 1%nat. reflexivity.
  - reflexivity.
  - vm_compute. lia.
  - simpl. lia.
  - reflexivity.
Defined.



End WorkerProps.

(** ** The workers of the single-image inference functions *)

Lemma for_loop_from_S {St : Type} (lo hi : nat) (body : nat -> St -> St) (s : St) :
  (lo <= hi)%nat ->
  for_loop lo (S hi) body s = body hi (for_loop lo hi body s).
Proof.
  intros Hle. unfold for_loop.
  replace (S hi - lo)%nat with (S (hi - lo)) by lia.
  rewrite seq_S, fold_left_app. simpl.
  replace (lo + (hi - lo))%nat with hi by lia. reflexivity.
Qed.

Lemma for_loop_empty {St : Type} (lo hi : nat) (body : nat -> St -> St) (s : St) :
  (hi <= lo)%nat -> for_loop lo hi body s = s.
Proof.
  intros Hle. unfold for_loop. replace (hi - lo)%nat with 0%nat by lia. reflexivity.
Qed.

Lemma lookup_insert_fmap {A : Type} (d : list A) (k : nat) (v : A) :
  <[k := v]> d !! k = (fun _ => v) <$> d !! k.
Proof.
  destruct (d !! k) as [x|] eqn:Hx.
  - rewrite list_lookup_insert_eq by (apply lookup_lt_Some in Hx; exact Hx).
    reflexivity.
  - rewrite list_insert_ge by (apply lookup_ge_None_1 in Hx; exact Hx).
    rewrite Hx. reflexivity.
Qed.

Module SingleFacts.
Import Trt TrtMore TrtFacts WorkerNotions.

Section Facts.
Context {Tensor Scores Mask : Type} `{Engine Tensor Scores Mask}.
Variable createExecutionContext_ok : nat -> bool.
Variable dims_ok : Tensor -> bool.
Variable inference_ok : nat -> bool.
Variable capture : nat -> CaptureOutcome.
Variable cudaGraphLaunch_ok : nat -> bool.
Variable copy_back_ok : nat -> bool.
Variable d_output : nat -> nat.
Variable d_argmax_output : nat -> nat.

Local Abbreviation process_one :=
  (process_one dims_ok inference_ok capture cudaGraphLaunch_ok copy_back_ok
     d_output d_argmax_output).

Lemma kernel_writes_mask (img : Tensor) (D A : nat) (mem : DevMem) :
  launchArgmaxKernel D A (enqueueV2 img D mem) A
  = Some (MaskBuf (argmax_kernel (infer img))).
Proof.
  unfold launchArgmaxKernel, enqueueV2, mem_write.
  rewrite !Nat.eqb_refl. reflexivity.
Qed.

(** Post-processing with a graph captured on the buffers of the current
    image, or with none. *)
Lemma postprocess_on_own_buffers (cap : CaptureOutcome) (launch_ok : bool)
    (img : Tensor) (D A : nat) (g : GraphState) (mem : DevMem) :
  graph_on D A g ->
  let g' := try_capture cap D A g in
  graph_on D A g' /\
  run_postprocess launch_ok D A g' (enqueueV2 img D mem) A
  = Some (MaskBuf (argmax_kernel (infer img))).
Proof.
  intros Hg g'. unfold g', try_capture.
  destruct (postGraphCaptured g) eqn:Ecap.
  - split; [exact Hg|]. unfold run_postprocess. rewrite Ecap, (Hg Ecap).
    simpl. destruct launch_ok; apply kernel_writes_mask.
  - destruct cap; (split; [unfold graph_on; simpl; intros Hc;
                            first [discriminate Hc|reflexivity]|]);
      unfold run_postprocess; simpl;
      try (destruct launch_ok); apply kernel_writes_mask.
Qed.

(** One image, when the buffers are those the graph was captured on. *)
Lemma process_one_result (idx : nat) (img : Tensor) (ws : WorkerState Scores Mask) :
  graph_on (d_output idx) (d_argmax_output idx) (ws_graph ws) ->
  let ws' := process_one idx img ws in
  graph_on (d_output idx) (d_argmax_output idx) (ws_graph ws') /\
  ws_results ws'
  = if dims_ok img && inference_ok idx && copy_back_ok idx
    then <[idx := CopiedFrom (Some (MaskBuf (argmax_kernel (infer img))))]>
           (ws_results ws)
    else ws_results ws.
Proof.
  intros Hg ws'. unfold ws', TrtMore.process_one.
  destruct (dims_ok img); simpl negb; cbv iota; [|split; [exact Hg|reflexivity]].
  destruct (inference_ok idx); simpl negb; cbv iota;
    [|split; [exact Hg|reflexivity]].
  destruct (postprocess_on_own_buffers (capture idx) (cudaGraphLaunch_ok idx) img
              (d_output idx) (d_argmax_output idx) (ws_graph ws) (ws_mem ws) Hg)
    as [Hg' Hmask].
  destruct (copy_back_ok idx); simpl negb; cbv iota; cbn [ws_graph ws_results].
  - split; [exact Hg'|]. simpl andb. cbv iota. rewrite Hmask. reflexivity.
  - split; [exact Hg'|reflexivity].
Qed.

(** The loop of a worker over the images [lo] to [hi], all of which get
    the same two device buffers. *)
Lemma worker_loop_results (imgs : list Tensor) (D A lo hi : nat)
    (ws : WorkerState Scores Mask) :
  (forall idx, (lo <= idx < hi)%nat -> d_output idx = D /\ d_argmax_output idx = A) ->
  graph_on D A (ws_graph ws) ->
  let ws' :=
    for_loop lo hi (fun img_idx ws =>
      match imgs !! img_idx with
      | Some img_tensor => process_one img_idx img_tensor ws
      | None => ws
      end) ws in
  graph_on D A (ws_graph ws') /\
  length (ws_results ws') = length (ws_results ws) /\
  forall k,
    ws_results ws' !! k
    = match imgs !! k with
      | Some img =>
          if decide (lo <= k < hi)%nat
          then if dims_ok img && inference_ok k && copy_back_ok k
               then (fun _ => CopiedFrom (Some (MaskBuf (argmax_kernel (infer img)))))
                      <$> ws_results ws !! k
               else ws_results ws !! k
          else ws_results ws !! k
      | None => ws_results ws !! k
      end.
Proof.
  intros Haddr Hg.
  assert (Hbase : forall hi', (hi' <= lo)%nat ->
            let ws' :=
              for_loop lo hi' (fun img_idx ws =>
                match imgs !! img_idx with
                | Some img_tensor => process_one img_idx img_tensor ws
                | None => ws
                end) ws in
            graph_on D A (ws_graph ws') /\
            length (ws_results ws') = length (ws_results ws) /\
            forall k,
              ws_results ws' !! k
              = match imgs !! k with
                | Some img =>
                    if decide (lo <= k < hi')%nat
                    then if dims_ok img && inference_ok k && copy_back_ok k
                         then (fun _ => CopiedFrom
                                          (Some (MaskBuf (argmax_kernel (infer img)))))
                                <$> ws_results ws !! k
                         else ws_results ws !! k
                    else ws_results ws !! k
                | None => ws_results ws !! k
                end).
  { intros hi' Hle ws'. unfold ws'. rewrite for_loop_empty by lia.
    split; [exact Hg|]. split; [reflexivity|].
    intros k. destruct (imgs !! k); [|reflexivity].
    case_decide; [lia|reflexivity]. }
  destruct (decide (lo <= hi)%nat) as [Hle|Hgt]; [|apply Hbase; lia].
  induction Hle as [|hi Hle IH]; [apply Hbase; lia|].
  intros ws'. unfold ws'. rewrite for_loop_from_S by exact Hle.
  destruct IH as (Hg1 & Hl1 & Hat1); [intros idx Hidx; apply Haddr; lia|].
  set (ws1 := for_loop lo hi _ ws) in *.
  destruct (imgs !! hi) as [img|] eqn:Himg.
  - destruct (Haddr hi ltac:(lia)) as [HD HA].
    destruct (process_one_result hi img ws1) as [Hg2 Hres2];
      [rewrite HD, HA; exact Hg1|].
    rewrite HD, HA in Hg2. split; [exact Hg2|].
    rewrite Hres2. split.
    + destruct (_ && _ && _); [rewrite length_insert|]; exact Hl1.
    + intros k. destruct (decide (k = hi)) as [->|Hne].
      * rewrite Himg. case_decide; [|lia].
        destruct (dims_ok img && inference_ok hi && copy_back_ok hi).
        -- rewrite lookup_insert_fmap, Hat1, Himg.
           case_decide; [lia|]. reflexivity.
        -- rewrite Hat1, Himg. case_decide; [lia|]. reflexivity.
      * destruct (imgs !! k) as [img'|] eqn:Himg'.
        -- assert (Hk : (if dims_ok img && inference_ok hi && copy_back_ok hi
                         then <[hi := CopiedFrom
                                        (Some (MaskBuf (argmax_kernel (infer img))))]>
                                (ws_results ws1)
                         else ws_results ws1) !! k = ws_results ws1 !! k).
           { destruct (_ && _ && _); [|reflexivity].
             apply list_lookup_insert_ne. congruence. }
           rewrite Hk, Hat1, Himg'.
           repeat case_decide; try lia; reflexivity.
        -- assert (Hk : (if dims_ok img && inference_ok hi && copy_back_ok hi
                         then <[hi := CopiedFrom
                                        (Some (MaskBuf (argmax_kernel (infer img))))]>
                                (ws_results ws1)
                         else ws_results ws1) !! k = ws_results ws1 !! k).
           { destruct (_ && _ && _); [|reflexivity].
             apply list_lookup_insert_ne. congruence. }
           rewrite Hk, Hat1, Himg'. reflexivity.
  - split; [exact Hg1|]. split; [exact Hl1|].
    intros k. rewrite Hat1. destruct (imgs !! k) as [img'|] eqn:Himg'; [|reflexivity].
    repeat case_decide; try lia; try reflexivity.
    assert (k = hi) by lia. subst k. congruence.
Qed.


(** Worker [t] on images that all get the same two device buffers. *)
Lemma worker_results (imgs : list Tensor) (ipt t : nat) (mem : DevMem)
    (results : list (HostMask Scores Mask)) :
  (0 < ipt)%nat ->
  (forall idx idx', (idx / ipt = idx' / ipt)%nat ->
     d_output idx = d_output idx' /\ d_argmax_output idx = d_argmax_output idx') ->
  length results = length imgs ->
  let res' :=
    snd (worker createExecutionContext_ok dims_ok inference_ok capture
           cudaGraphLaunch_ok copy_back_ok d_output d_argmax_output imgs ipt t mem
           results) in
  length res' = length imgs /\
  forall k img, imgs !! k = Some img ->
    res' !! k
    = if decide (t * ipt <= k < t * ipt + ipt)%nat
      then if createExecutionContext_ok t
              && (dims_ok img && inference_ok k && copy_back_ok k)
           then Some (CopiedFrom (Some (MaskBuf (argmax_kernel (infer img)))))
           else results !! k
      else results !! k.
Proof.
  intros Hipt Hstable Hlen res'. unfold res', worker.
  destruct (Nat.leb_spec (length imgs) (t * ipt)) as [Hout|Hin].
  { split; [exact Hlen|]. intros k img Hk. apply lookup_lt_Some in Hk.
    case_decide; [lia|reflexivity]. }
  destruct (createExecutionContext_ok t); simpl negb; cbv iota.
  2:{ split; [exact Hlen|]. intros k img Hk.
      case_decide; reflexivity. }
  destruct (worker_loop_results imgs (d_output (t * ipt)) (d_argmax_output (t * ipt))
              (t * ipt) (Nat.min (t * ipt + ipt) (length imgs))
              (mkWorkerState graph_uncaptured mem results))
    as (_ & Hl & Hat).
  { intros idx Hidx. apply Hstable.
    rewrite Nat.div_mul by lia. symmetry.
    apply (Nat.div_unique idx ipt t (idx - t * ipt)); lia. }
  { unfold graph_on. simpl. discriminate. }
  cbn [snd ws_results] in *. split; [rewrite Hl; exact Hlen|].
  intros k img Hk. rewrite Hat, Hk. simpl andb.
  pose proof (lookup_lt_Some _ _ _ Hk) as Hkn.
  destruct (lookup_lt_is_Some_2 results k) as [o Ho]; [lia|].
  repeat case_decide; try lia; try reflexivity.
  rewrite Ho. destruct (_ && _ && _); reflexivity.
Qed.

(** The workers [0] to [m - 1], in that order. *)
Lemma workers_prefix (num_streams : nat) (imgs : list Tensor) (mem : DevMem)
    (m : nat) :
  let ipt := ((length imgs + num_streams - 1) / num_streams)%nat in
  (0 < ipt)%nat ->
  (forall idx idx', (idx / ipt = idx' / ipt)%nat ->
     d_output idx = d_output idx' /\ d_argmax_output idx = d_argmax_output idx') ->
  let res :=
    run_workers num_streams createExecutionContext_ok dims_ok inference_ok capture
      cudaGraphLaunch_ok copy_back_ok d_output d_argmax_output (seq 0 m) imgs mem in
  length res = length imgs /\
  forall (k : nat) (img : Tensor), imgs !! k = Some img ->
    res !! k
    = Some (if decide (k < m * ipt)%nat
            then expected_slot
                   (createExecutionContext_ok (k / ipt)%nat
                    && (dims_ok img && inference_ok k && copy_back_ok k)) img
            else EmptyMat).
Proof.
  intros ipt Hipt Hstable. unfold run_workers. fold ipt.
  induction m as [|m IH].
  - cbn [seq foldl snd]. rewrite length_replicate. split; [reflexivity|].
    intros k img Hk. rewrite lookup_replicate_2 by (eapply lookup_lt_Some, Hk).
    destruct (decide (k < 0 * ipt)%nat); [lia|reflexivity].
  - rewrite seq_S, foldl_app. cbn [foldl]. simpl Nat.add.
    destruct IH as [Hl Hat].
    set (st := foldl _ _ (seq 0 m)) in *.
    destruct (worker_results imgs ipt m (fst st) (snd st) Hipt Hstable Hl)
      as [Hl' Hat'].
    split; [exact Hl'|].
    intros k img Hk. rewrite (Hat' k img Hk), (Hat k img Hk).
    repeat case_decide; try lia; try reflexivity.
    + assert (Hq : (k / ipt = m)%nat).
      { symmetry. apply (Nat.div_unique k ipt m (k - m * ipt)); lia. }
      rewrite Hq. unfold expected_slot.
      destruct (createExecutionContext_ok m && _); reflexivity.
Qed.

End Facts.

(** Two images on two workers: each worker has one image, and the masks
    come back in the order of the images. *)
Lemma preloaded_two {Tensor Scores Mask : Type} `{Engine Tensor Scores Mask}
    (createExecutionContext_ok : nat -> bool) (dims_ok : Tensor -> bool)
    (inference_ok : nat -> bool) (capture : nat -> CaptureOutcome)
    (cudaGraphLaunch_ok copy_back_ok : nat -> bool)
    (d_output d_argmax_output : nat -> nat) (t u : Tensor) (mem : DevMem) :
  measure_segmentation_trt_performance_single_batch_parallel_preloaded 2
    createExecutionContext_ok dims_ok inference_ok capture cudaGraphLaunch_ok
    copy_back_ok d_output d_argmax_output true [t; u] mem
  = [expected_slot (createExecutionContext_ok 0%nat
                    && (dims_ok t && inference_ok 0%nat && copy_back_ok 0%nat)) t;
     expected_slot (createExecutionContext_ok 1%nat
                    && (dims_ok u && inference_ok 1%nat && copy_back_ok 1%nat)) u].
Proof.
  unfold measure_segmentation_trt_performance_single_batch_parallel_preloaded.
  cbn [negb length Nat.eqb].
  destruct (workers_prefix createExecutionContext_ok dims_ok inference_ok capture
              cudaGraphLaunch_ok copy_back_ok d_output d_argmax_output
              2 [t; u] mem 2) as [Hl Hat].
  { cbn. lia. }
  { intros idx idx'. change ((length [t; u] + 2 - 1) / 2)%nat with 1%nat.
    rewrite !Nat.div_1_r. intros ->. split; reflexivity. }
  change (seq 0 2) with [0; 1]%nat in *.
  apply list_eq. intros [|[|k]].
  - rewrite (Hat 0%nat t eq_refl). reflexivity.
  - rewrite (Hat 1%nat u eq_refl). reflexivity.
  - cbn [lookup list_lookup]. apply lookup_ge_None. rewrite Hl. simpl. lia.
Qed.

(** The vector the single-image workers return, whatever the capture and
    the launch of the graph answer. *)
Lemma single_batch_parallel_results {Tensor Scores Mask : Type}
    `{Engine Tensor Scores Mask} (num_streams : nat)
    (createExecutionContext_ok : nat -> bool) (dims_ok : Tensor -> bool)
    (inference_ok : nat -> bool) (capture : nat -> CaptureOutcome)
    (cudaGraphLaunch_ok copy_back_ok : nat -> bool)
    (d_output d_argmax_output : nat -> nat) (imgs : list Tensor) (mem : DevMem) :
  let ipt := ((length imgs + num_streams - 1) / num_streams)%nat in
  (1 <= num_streams)%nat ->
  (length imgs <= num_streams)%nat \/
  (forall idx idx', (idx / ipt = idx' / ipt)%nat ->
     d_output idx = d_output idx' /\ d_argmax_output idx = d_argmax_output idx') ->
  measure_segmentation_trt_performance_single_batch_parallel num_streams
    createExecutionContext_ok dims_ok inference_ok capture cudaGraphLaunch_ok
    copy_back_ok d_output d_argmax_output true true imgs mem
  = imap (fun idx img =>
            expected_slot
              (createExecutionContext_ok (idx / ipt)%nat
               && (dims_ok img && inference_ok idx && copy_back_ok idx)) img) imgs.
Proof.
  intros ipt Hs Hstable.
  unfold measure_segmentation_trt_performance_single_batch_parallel.
  simpl negb. cbv iota.
  destruct (Nat.eqb_spec (length imgs) 0) as [Hz|Hnz].
  { destruct imgs; [reflexivity|discriminate]. }
  assert (Hcov : (length imgs <= num_streams * ipt)%nat)
    by (apply (subBatch_covers (length imgs) num_streams Hs)).
  assert (Hipt : (0 < ipt)%nat) by (destruct ipt; lia).
  assert (Hst : forall idx idx', (idx / ipt = idx' / ipt)%nat ->
            d_output idx = d_output idx' /\ d_argmax_output idx = d_argmax_output idx').
  { destruct Hstable as [Hfew|Hst]; [|exact Hst].
    assert (Hone : ipt = 1%nat).
    { unfold ipt. symmetry.
      apply (Nat.div_unique _ num_streams 1 (length imgs - 1)); lia. }
    rewrite Hone. intros idx idx'. rewrite !Nat.div_1_r. intros ->.
    split; reflexivity. }
  destruct (workers_prefix createExecutionContext_ok dims_ok inference_ok capture
              cudaGraphLaunch_ok copy_back_ok d_output d_argmax_output
              num_streams imgs mem num_streams Hipt Hst) as [Hl Hat].
  apply list_eq. intros k. rewrite list_lookup_imap.
  destruct (imgs !! k) as [img|] eqn:Hk.
  - rewrite (Hat k img Hk). cbn [fmap option_fmap option_map].
    pose proof (lookup_lt_Some _ _ _ Hk) as Hlt.
    case_decide as Hd; [reflexivity|]. exfalso. apply Hd.
    exact (Nat.lt_le_trans _ _ _ Hlt Hcov).
  - apply lookup_ge_None_2. rewrite Hl. apply lookup_ge_None_1 in Hk. exact Hk.
Qed.

End SingleFacts.

(** ** The workers' claims *)

Module WorkerClaims.
Import Trt TrtMore TrtFacts WorkerNotions WorkerFacts SingleFacts Examples.

(** C5. In measure_segmentation_trt_performance_mul_concurrent a thread
    whose sub-batch has one to four tensors runs the engine on exactly four:
    its own tensors followed by copies of the last one. It keeps only the
    first [validCount] results, the masks of its own tensors, and writes
    them to its own [validCount] slots of [allResults], leaving every other
    slot as it was; the function returns one mask per image of the batch,
    not one per padded slot. *)
Theorem sub_batch_padded_to_four {Tensor Scores Mask : Type}
    `{Engine Tensor Scores Mask}
    (createExecutionContext_ok enqueueV2_ok : nat -> bool) (batch : list Tensor) :
  (forall t, createExecutionContext_ok t = true) ->
  (forall t, enqueueV2_ok t = true) ->
  (forall (subBatch t : nat) (allResults : list (option Mask)),
     let startIdx := startIdx_of subBatch t in
     let endIdx := endIdx_of (length batch) subBatch t in
     let validCount := (endIdx - startIdx)%nat in
     let sub := slice batch startIdx endIdx in
     (1 <= validCount <= 4)%nat -> length allResults = length batch ->
     exists lastFrame run,
       thread_run createExecutionContext_ok enqueueV2_ok batch subBatch t allResults
         = Some run /\
       worker_thread createExecutionContext_ok enqueueV2_ok batch subBatch t
         allResults = Some (tr_allResults run) /\
       length sub = validCount /\
       last sub = Some lastFrame /\
       tr_subTensor run = Some (sub ++ replicate (4 - validCount) lastFrame) /\
       length (sub ++ replicate (4 - validCount) lastFrame) = 4%nat /\
       tr_localResults run = seg_one <$> sub /\
       length (tr_localResults run) = validCount /\
       length (tr_allResults run) = length batch /\
       forall k,
         tr_allResults run !! k
         = if decide (startIdx <= k < startIdx + validCount)%nat
           then Some (seg_one <$> sub !! (k - startIdx)%nat)
           else allResults !! k) /\
  measure_segmentation_trt_performance_mul_concurrent createExecutionContext_ok
    enqueueV2_ok batch
  = Some ((fun x => Some (seg_one x)) <$> batch) /\
  length ((fun x : Tensor => Some (seg_one x)) <$> batch) = length batch.
Proof.
  intros Hctx Henq. split; [|split].
  - intros subBatch t allResults startIdx endIdx validCount sub Hvc Hlen.
    assert (He : (endIdx <= length batch)%nat) by (unfold endIdx, endIdx_of; lia).
    assert (Hsub : length sub = validCount)
      by exact (slice_length batch startIdx endIdx He).
    destruct (pad_sub_batch_spec sub) as (lf & Hlast & Hpad & Hlen4); [lia|].
    pose proof (thread_local_results batch subBatch t) as Hkept.
    cbv zeta in Hkept. fold startIdx endIdx validCount sub in Hkept.
    assert (Hrun : thread_run createExecutionContext_ok enqueueV2_ok batch subBatch
                     t allResults
                   = Some (mkThreadRun (Some (thread_batch batch subBatch t))
                             (seg_one <$> sub)
                             (store_results (seg_one <$> sub) startIdx validCount
                                allResults))).
    { unfold thread_run. rewrite Hctx, Henq. simpl negb. cbv iota zeta.
      fold startIdx endIdx validCount.
      destruct (Nat.leb_spec endIdx startIdx) as [Hle|_]; [lia|].
      rewrite Hkept. reflexivity. }
    exists lf. eexists. split; [exact Hrun|].
    cbn [tr_subTensor tr_localResults tr_allResults].
    split; [unfold worker_thread; rewrite Hrun; reflexivity|].
    split; [exact Hsub|]. split; [exact Hlast|].
    split.
    { unfold thread_batch. fold startIdx endIdx sub. rewrite Hpad, Hsub.
      reflexivity. }
    split; [rewrite <- Hsub, <- Hpad; exact Hlen4|].
    split; [reflexivity|].
    split; [rewrite length_fmap; exact Hsub|].
    split; [rewrite store_results_length; exact Hlen|].
    intros k. rewrite store_results_lookup.
    case_decide as Hk; [|reflexivity].
    rewrite list_lookup_fmap.
    destruct (lookup_lt_is_Some_2 sub (k - startIdx)) as [x Hx]; [lia|].
    destruct (lookup_lt_is_Some_2 allResults k) as [o Ho]; [lia|].
    rewrite Hx, Ho. reflexivity.
  - exact (run_threads_result createExecutionContext_ok enqueueV2_ok Hctx Henq
             [0; 1]%nat batch (or_introl eq_refl)).
  - apply length_fmap.
Qed.

Lemma sub_batch_padded_to_four_witness :
  exists run,
    @thread_run nat nat nat toy_engine (fun _ => true) (fun _ => true)
      [10; 20; 30]%nat 2 1 [None; None; None]
    = Some run /\
    tr_subTensor run = Some [30; 30; 30; 30]%nat /\
    tr_localResults run = [260]%nat /\
    tr_allResults run = [None; None; Some 260%nat].
Proof.
  destruct (@sub_batch_padded_to_four nat nat nat toy_engine (fun _ => true)
              (fun _ => true) [10; 20; 30]%nat (fun _ => eq_refl) (fun _ => eq_refl))
    as (Hthread & _).
  destruct (Hthread 2%nat 1%nat [None; None; None]) as (lf & run & Hrun & _).
  - vm_compute. lia.
  - reflexivity.
  - exists run. split; [exact Hrun|].
    vm_compute in Hrun. injection Hrun as <-. repeat split.
Defined.



(** C8, where the code departs from it. In
    measure_segmentation_trt_performance_mul_concurrent_graph the capture
    calls go through [checkCudaErrors] inside the [try] block: with the
    macro of the CUDA samples a failing capture call in a thread that has
    its context, an image and a successful warm-up ends the process, and no
    mask is returned; the handler that would fall back to the direct
    launch is never reached. The sibling
    measure_segmentation_trt_performance_single_batch_parallel throws and
    catches: there the capture and the launch of the graph make no
    difference to the vector returned, when every worker has one image or
    keeps its device buffers. *)
Theorem capture_failure_ends_graph_process {Tensor Scores Mask : Type}
    `{Engine Tensor Scores Mask}
    (createExecutionContext_ok warmup_ok enqueueV2_ok : nat -> bool)
    (capture : nat -> CaptureOutcome) (cudaGraphLaunch_ok : nat -> bool)
    (batch : list Tensor) (t : nat) :
  (t < numThreads)%nat ->
  createExecutionContext_ok t = true -> warmup_ok t = true ->
  (startIdx_of (subBatch_of (length batch) numThreads) t < length batch)%nat ->
  capture t <> CaptureSucceeds ->
  measure_segmentation_trt_performance_mul_concurrent_graph CheckExits
    createExecutionContext_ok warmup_ok enqueueV2_ok capture cudaGraphLaunch_ok batch
  = None /\
  (forall schedule, t ∈ schedule ->
     run_graph_threads CheckExits createExecutionContext_ok warmup_ok enqueueV2_ok
       capture cudaGraphLaunch_ok schedule batch = None) /\
  (forall (num_streams : nat) (context_ok : nat -> bool) (dims_ok : Tensor -> bool)
          (inference_ok : nat -> bool) (capture' : nat -> CaptureOutcome)
          (launch_ok copy_back_ok : nat -> bool)
          (d_output d_argmax_output : nat -> nat) (img_tensors : list Tensor)
          (mem : DevMem),
     (1 <= num_streams)%nat ->
     (length img_tensors <= num_streams)%nat \/
     (forall idx idx',
        (idx / subBatch_of (length img_tensors) num_streams
         = idx' / subBatch_of (length img_tensors) num_streams)%nat ->
        d_output idx = d_output idx' /\ d_argmax_output idx = d_argmax_output idx') ->
     measure_segmentation_trt_performance_single_batch_parallel num_streams
       context_ok dims_ok inference_ok capture' launch_ok copy_back_ok d_output
       d_argmax_output true true img_tensors mem
     = measure_segmentation_trt_performance_single_batch_parallel num_streams
         context_ok dims_ok inference_ok (fun _ => CaptureSucceeds) (fun _ => true)
         copy_back_ok d_output d_argmax_output true true img_tensors mem /\
     forall idx img, img_tensors !! idx = Some img ->
       context_ok (idx / subBatch_of (length img_tensors) num_streams)%nat = true ->
       dims_ok img = true -> inference_ok idx = true -> copy_back_ok idx = true ->
       measure_segmentation_trt_performance_single_batch_parallel num_streams
         context_ok dims_ok inference_ok capture' launch_ok copy_back_ok d_output
         d_argmax_output true true img_tensors mem !! idx
       = Some (CopiedFrom (Some (MaskBuf (argmax_kernel (infer img)))))).
Proof.
  intros Ht Hctx Hwarm Hstart Hcap.
  assert (Hexit : forall schedule, t ∈ schedule ->
            run_graph_threads CheckExits createExecutionContext_ok warmup_ok
              enqueueV2_ok capture cudaGraphLaunch_ok schedule batch = None).
  { intros schedule Hin. unfold run_graph_threads.
    apply (foldl_bind_exits _ schedule t); [exact Hin|].
    intros all. unfold graph_worker_thread. rewrite Hctx, Hwarm.
    simpl negb. cbv iota.
    set (sub := subBatch_of (length batch) numThreads) in *.
    assert (Hsub : (0 < sub)%nat).
    { pose proof (subBatch_covers (length batch) numThreads
                    ltac:(unfold numThreads; lia)) as Hcov.
      fold sub in Hcov. unfold numThreads in Hcov. lia. }
    destruct (Nat.leb_spec (endIdx_of (length batch) sub t) (startIdx_of sub t))
      as [Hle|Hgt]; [unfold endIdx_of in Hle; lia|].
    unfold capture_graph. destruct (capture t); try reflexivity. congruence. }
  split; [|split].
  - unfold measure_segmentation_trt_performance_mul_concurrent_graph.
    apply Hexit. apply elem_of_seq. lia.
  - exact Hexit.
  - intros num_streams context_ok dims_ok inference_ok capture' launch_ok
      copy_back_ok d_output d_argmax_output img_tensors mem Hs Hstable.
    rewrite !single_batch_parallel_results by assumption.
    split; [reflexivity|].
    intros idx img Himg Hc Hd Hi Hcp. rewrite list_lookup_imap, Himg.
    cbn [fmap option_fmap option_map]. unfold subBatch_of in Hc.
    rewrite Hc, Hd, Hi, Hcp. reflexivity.
Qed.

Lemma capture_failure_ends_graph_process_witness :
  @measure_segmentation_trt_performance_mul_concurrent_graph nat nat nat toy_engine
    CheckExits (fun _ => true) (fun _ => true) (fun _ => true)
    (fun t => if (t =? 0)%nat then BeginCaptureFails else CaptureSucceeds)
    (fun _ => true) [1; 2; 3; 4; 5]%nat
  = None.
Proof.
  destruct (@capture_failure_ends_graph_process nat nat nat toy_engine
              (fun _ => true) (fun _ => true) (fun _ => true)
              (fun t => if (t =? 0)%nat then BeginCaptureFails else CaptureSucceeds)
              (fun _ => true) [1; 2; 3; 4; 5]%nat 0%nat) as [Hexit _].
  - unfold numThreads. lia.
  - reflexivity.
  - reflexivity.
  - vm_compute. lia.
  - discriminate.
  - exact Hexit.
Defined.

End WorkerClaims.

Module SingleProps.
Import Trt TrtMore TrtFacts WorkerNotions SingleFacts Examples.

(** The single-image workers keep the index of every image. If every
    worker has at most one image, or the allocator hands every image of a
    worker the same two device buffers, slot [idx] of the result of
    measure_segmentation_trt_performance_single_batch_parallel and of its
    variant with a preloaded engine is the argmax mask of image [idx] when
    the worker got its context and every step on the image succeeded, and
    the empty image otherwise; a failure on one image costs no other
    image its mask, and the outcome of the graph capture and of the graph
    launch makes no difference. *)
Theorem single_image_workers_keep_index {Tensor Scores Mask : Type}
    `{Engine Tensor Scores Mask} (num_streams : nat)
    (createExecutionContext_ok : nat -> bool) (dims_ok : Tensor -> bool)
    (inference_ok : nat -> bool) (capture : nat -> CaptureOutcome)
    (cudaGraphLaunch_ok copy_back_ok : nat -> bool)
    (d_output d_argmax_output : nat -> nat) (img_tensors : list Tensor)
    (mem : DevMem) :
  let images_per_thread :=
    ((length img_tensors + num_streams - 1) / num_streams)%nat in
  (1 <= num_streams)%nat ->
  (length img_tensors <= num_streams)%nat \/
  (forall idx idx', (idx / images_per_thread = idx' / images_per_thread)%nat ->
     d_output idx = d_output idx' /\ d_argmax_output idx = d_argmax_output idx') ->
  let results :=
    measure_segmentation_trt_performance_single_batch_parallel_preloaded
      num_streams createExecutionContext_ok dims_ok inference_ok capture
      cudaGraphLaunch_ok copy_back_ok d_output d_argmax_output true img_tensors mem in
  length results = length img_tensors /\
  measure_segmentation_trt_performance_single_batch_parallel
    num_streams createExecutionContext_ok dims_ok inference_ok capture
    cudaGraphLaunch_ok copy_back_ok d_output d_argmax_output true true img_tensors mem
  = results /\
  forall (idx : nat) (img : Tensor), img_tensors !! idx = Some img ->
    results !! idx
    = Some (expected_slot
              (createExecutionContext_ok (idx / images_per_thread)%nat
               && (dims_ok img && inference_ok idx && copy_back_ok idx)) img).
Proof.
  intros ipt Hs Hstable results. unfold results.
  unfold measure_segmentation_trt_performance_single_batch_parallel_preloaded,
    measure_segmentation_trt_performance_single_batch_parallel.
  simpl negb. cbv iota.
  destruct (Nat.eqb_spec (length img_tensors) 0) as [Hz|Hnz].
  { split; [symmetry; exact Hz|]. split; [reflexivity|].
    intros idx img Hidx. apply lookup_lt_Some in Hidx. lia. }
  assert (Hcov : (length img_tensors <= num_streams * ipt)%nat)
    by (apply (subBatch_covers (length img_tensors) num_streams Hs)).
  assert (Hipt : (0 < ipt)%nat) by (destruct ipt; [lia|lia]).
  assert (Hst : forall idx idx', (idx / ipt = idx' / ipt)%nat ->
            d_output idx = d_output idx' /\ d_argmax_output idx = d_argmax_output idx').
  { destruct Hstable as [Hfew|Hst]; [|exact Hst].
    assert (Hone : ipt = 1%nat).
    { unfold ipt. symmetry.
      apply (Nat.div_unique _ num_streams 1 (length img_tensors - 1)); lia. }
    rewrite Hone. intros idx idx'. rewrite !Nat.div_1_r. intros ->. split; reflexivity. }
  destruct (workers_prefix createExecutionContext_ok dims_ok inference_ok capture
              cudaGraphLaunch_ok copy_back_ok d_output d_argmax_output
              num_streams img_tensors mem num_streams Hipt Hst) as [Hl Hat].
  split; [exact Hl|]. split; [reflexivity|].
  intros idx img Hidx. rewrite (Hat idx img Hidx).
  pose proof (lookup_lt_Some _ _ _ Hidx) as Hlt.
  case_decide as Hd; [reflexivity|]. exfalso. apply Hd.
  exact (Nat.lt_le_trans _ _ _ Hlt Hcov).
Qed.

Lemma single_image_workers_keep_index_witness :
  @measure_segmentation_trt_performance_single_batch_parallel_preloaded nat nat nat
    toy_engine 2 (fun _ => true) (fun _ => true) (fun idx => (idx =? 0)%nat)
    (fun _ => EndCaptureFails) (fun _ => true) (fun _ => true)
    (fun _ => 0%nat) (fun _ => 1%nat) true [5; 7]%nat (fun _ => None)
  = [CopiedFrom (Some (MaskBuf 315%nat)); EmptyMat].
Proof.
  pose proof (@single_image_workers_keep_index nat nat nat toy_engine 2
                (fun _ => true) (fun _ => true) (fun idx => (idx =? 0)%nat)
                (fun _ => EndCaptureFails) (fun _ => true) (fun _ => true)
                (fun _ => 0%nat) (fun _ => 1%nat) [5; 7]%nat (fun _ => None))
    as Hthm.
  cbv zeta in Hthm.
  assert (Hs : (1 <= 2)%nat) by lia.
  assert (Hfew : (length [5; 7]%nat <= 2)%nat) by (simpl; lia).
  destruct (Hthm Hs (or_introl Hfew)) as (_ & _ & Hat).
  apply list_eq. intros [|[|k]].
  - rewrite (Hat 0%nat 5%nat eq_refl). reflexivity.
  - rewrite (Hat 1%nat 7%nat eq_refl). reflexivity.
  - reflexivity.
Defined.

(** From the second image of a worker on, the graph replays the kernel
    on the buffers of the image it was captured on. When the mask buffer
    of the current image is another one, a successful launch leaves it
    unwritten, and what is copied back to [results] is whatever the buffer
    held before; a failed launch falls back to the direct launch and gives
    the image its mask. *)
Theorem stale_graph_returns_unwritten_buffer {Tensor Scores Mask : Type}
    `{Engine Tensor Scores Mask} (dims_ok : Tensor -> bool)
    (inference_ok : nat -> bool) (capture : nat -> CaptureOutcome)
    (cudaGraphLaunch_ok copy_back_ok : nat -> bool)
    (d_output d_argmax_output : nat -> nat) (img_idx : nat) (img_tensor : Tensor)
    (node : GraphNode) (ws : WorkerState Scores Mask) :
  ws_graph ws = mkGraphState (Some node) (Some node) true ->
  node_dst node <> d_argmax_output img_idx ->
  d_output img_idx <> d_argmax_output img_idx ->
  dims_ok img_tensor = true -> inference_ok img_idx = true ->
  copy_back_ok img_idx = true ->
  (img_idx < length (ws_results ws))%nat ->
  let ws' :=
    process_one dims_ok inference_ok capture cudaGraphLaunch_ok copy_back_ok
      d_output d_argmax_output img_idx img_tensor ws in
  ws_graph ws' = ws_graph ws /\
  (cudaGraphLaunch_ok img_idx = true ->
   ws_results ws' !! img_idx
   = Some (CopiedFrom (ws_mem ws (d_argmax_output img_idx)))) /\
  (cudaGraphLaunch_ok img_idx = false ->
   ws_results ws' !! img_idx
   = Some (CopiedFrom (Some (MaskBuf (argmax_kernel (infer img_tensor)))))).
Proof.
  intros Hg Hdst Hout Hdims Hinf Hcopy Hidx ws'. unfold ws', process_one.
  rewrite Hdims, Hinf, Hcopy. simpl negb. cbv iota.
  cbn [ws_graph ws_results]. rewrite Hg.
  unfold try_capture. cbn [postGraphCaptured].
  split; [reflexivity|].
  unfold run_postprocess. cbn [postGraphCaptured postprocessGraphExec].
  split; intros Hlaunch; rewrite Hlaunch, list_lookup_insert_eq by exact Hidx;
    f_equal; f_equal.
  - unfold launchArgmaxKernel, enqueueV2, mem_write.
    destruct (Nat.eqb_spec (node_src node) (d_output img_idx)) as [E|N].
    + destruct (Nat.eqb_spec (d_argmax_output img_idx) (node_dst node));
        [congruence|].
      destruct (Nat.eqb_spec (d_argmax_output img_idx) (d_output img_idx));
        [congruence|reflexivity].
    + destruct (ws_mem ws (node_src node)) as [[s|m|]|];
        destruct (Nat.eqb_spec (d_argmax_output img_idx) (d_output img_idx));
        try congruence; try reflexivity.
      destruct (Nat.eqb_spec (d_argmax_output img_idx) (node_dst node));
        [congruence|].
      destruct (Nat.eqb_spec (d_argmax_output img_idx) (d_output img_idx));
        [congruence|reflexivity].
  - apply SingleFacts.kernel_writes_mask.
Qed.

Lemma stale_graph_returns_unwritten_buffer_witness :
  ws_results
    (@process_one nat nat nat toy_engine (fun _ => true) (fun _ => true)
       (fun _ => CaptureSucceeds) (fun _ => true) (fun _ => true)
       (fun idx => (2 * idx)%nat) (fun idx => (2 * idx + 1)%nat) 1%nat 7%nat
       (mkWorkerState (mkGraphState (Some (mkGraphNode 0 1)) (Some (mkGraphNode 0 1)) true)
          (fun _ => None) [EmptyMat; EmptyMat])) !! 1%nat
  = Some (CopiedFrom None).
Proof.
  pose proof (@stale_graph_returns_unwritten_buffer nat nat nat toy_engine
                (fun _ => true) (fun _ => true) (fun _ => CaptureSucceeds)
                (fun _ => true) (fun _ => true)
                (fun idx => (2 * idx)%nat) (fun idx => (2 * idx + 1)%nat)
                1%nat 7%nat (mkGraphNode 0 1)
                (mkWorkerState
                   (mkGraphState (Some (mkGraphNode 0 1))
                      (Some (mkGraphNode 0 1)) true)
                   (fun _ => None) [EmptyMat; EmptyMat])) as Hthm.
  cbv zeta in Hthm.
  destruct Hthm as (_ & Hstale & _).
  - reflexivity.
  - simpl. lia.
  - simpl. lia.
  - reflexivity.
  - reflexivity.
  - reflexivity.
  - simpl. lia.
  - apply Hstale. reflexivity.
Defined.

End SingleProps.

(** ** The compositor: bounds, errors and regions *)

Module CompositorFacts.
Import Cv Glow GlowMore GlowFacts BlendFacts.

Lemma shiftr_8 (v : Z) : Z.shiftr v 8 = v / 256.
Proof. rewrite Z.shiftr_div_pow2 by lia. reflexivity. Qed.

Lemma blend_alpha_range (a key_scale : Z) : 0 <= blend_alpha a key_scale <= 255.
Proof.
  unfold blend_alpha, uchar_cast.
  pose proof (Z.mod_pos_bound (Z.shiftr (a * key_scale) 8) 256). lia.
Qed.

Lemma blend_channel_between (s d alpha : Z) :
  0 <= s <= 255 -> 0 <= d <= 255 -> 0 <= alpha <= 255 ->
  blend_channel s d alpha = (s * (255 - alpha) + d * alpha) / 256 /\
  blended_between s d (blend_channel s d alpha).
Proof.
  intros Hs Hd Ha. rewrite blend_channel_clamped, shiftr_8.
  set (v := s * (255 - alpha) + d * alpha).
  assert (Hlo : Z.min s d * 255 <= v) by (unfold v; nia).
  assert (Hhi : v <= Z.max s d * 255) by (unfold v; nia).
  assert (Hq : Z.min s d - 1 <= v / 256 <= Z.max s d).
  { split.
    - apply Z.div_le_lower_bound; lia.
    - apply Z.div_le_upper_bound; lia. }
  assert (H254 : v / 256 <= 254).
  { apply Z.lt_succ_r. apply Z.div_lt_upper_bound; lia. }
  split; [lia|]. unfold blended_between. lia.
Qed.

Lemma blend_channel_exact (s d alpha : Z) :
  0 <= s <= 255 -> 0 <= d <= 255 -> 0 <= alpha <= 255 ->
  blended_exactly s d alpha (blend_channel s d alpha).
Proof.
  intros Hs Hd Ha.
  destruct (blend_channel_between s d alpha Hs Hd Ha) as [Heq [Hrange H254]].
  rewrite Heq in Hrange, H254. unfold blended_exactly.
  rewrite shiftr_8. split; [exact Heq|].
  assert (H0 : 0 <= (s * (255 - alpha) + d * alpha) / 256)
    by (apply Z.div_pos; nia).
  split; [lia|]. unfold uchar_cast. apply Z.mod_small. lia.
Qed.

Lemma mix_loop_shape (src hl : Mat Vec4b) (gray : Mat Z) (key_scale : Z) :
  Mat_size (mix_loop src hl gray key_scale src) = Mat_size src /\
  (Mat_wf src -> Mat_wf (mix_loop src hl gray key_scale src)).
Proof.
  rewrite mix_loop_data. unfold Mat_size, Mat_wf. simpl.
  rewrite write_rows_length. auto.
Qed.

(** The source buffer of the filter on a well-formed mask: no cell keeps
    its arbitrary initial content. *)
Lemma mipmap_src_img_map (junk : nat -> uchar4) (mask : Mat Z) (key : Z) :
  Mat_wf mask -> mipmap_src_img junk mask key = rgba_image mask key.
Proof.
  intros Hwf. rewrite mipmap_src_img_writes. unfold rgba_image.
  apply list_eq. intros k. rewrite write_rows_lookup, list_lookup_fmap.
  destruct (decide (k < rows mask * cols mask)%nat) as [Hk|Hk].
  - destruct (lookup_lt_is_Some_2 (cudaMallocHost junk (cols mask * rows mask)) k)
      as [x ->]; [rewrite length_cudaMallocHost; lia|].
    unfold rgba_w, Mat_at. rewrite index_split.
    destruct (lookup_lt_is_Some_2 (data mask) k) as [g ->]; [rewrite Hwf; exact Hk|].
    reflexivity.
  - rewrite (lookup_ge_None_2 (data mask) k) by (rewrite Hwf; lia).
    apply lookup_ge_None_2. rewrite length_cudaMallocHost. lia.
Qed.

Lemma rgba_image_length (mask : Mat Z) (key : Z) :
  length (rgba_image mask key) = length (data mask).
Proof. unfold rgba_image. apply length_fmap. Qed.

Lemma vec4b_eta (v : Vec4b) : mkVec4b (c0 v) (c1 v) (c2 v) (c3 v) = v.
Proof. destruct v. reflexivity. Qed.

(** The copy loop of apply_mipmap. *)
Lemma copy_out_data (junk : nat -> uchar4) (dst_img : list uchar4) (w h : nat) :
  length dst_img = (w * h)%nat ->
  for_loop 0 h (fun i output_image =>
    for_loop 0 w (fun j output_image =>
      match dst_img !! (i * w + j)%nat with
      | Some value =>
          Mat_set output_image i j
            (mkVec4b (c0 value) (c1 value) (c2 value) (c3 value))
      | None => output_image
      end) output_image)
    (mkMat h w (new_array junk (h * w)))
  = mkMat h w dst_img.
Proof.
  unfold uchar4 in *. intros Hlen.
  rewrite (Mat_loop_data h w (fun i j => dst_img !! (i * w + j)%nat)).
  - f_equal. apply list_eq. intros k. rewrite write_rows_lookup.
    destruct (decide (k < h * w)%nat) as [Hk|Hk].
    + rewrite index_split.
      destruct (lookup_lt_is_Some_2 dst_img k) as [v Hv]; [rewrite Hlen; lia|].
      rewrite Hv.
      match goal with |- cell_after ?o _ = _ => destruct o as [x|] eqn:Hx end;
        [reflexivity|].
      apply lookup_ge_None_1 in Hx. unfold new_array in Hx.
      rewrite length_fmap, length_seq in Hx. lia.
    + rewrite (lookup_ge_None_2 dst_img k) by (rewrite Hlen; lia).
      apply lookup_ge_None_2. unfold new_array.
      rewrite length_fmap, length_seq. lia.
  - intros i j d'. unfold write_cell.
    destruct (dst_img !! (i * w + j)%nat) as [v|]; [|reflexivity].
    rewrite vec4b_eta. reflexivity.
Qed.

Lemma apply_mipmap_data {Scale : Type} `{MipmapFilterSync Scale}
    (junk : nat -> uchar4) (m : Mat Z) (out0 : Mat Vec4b) (scale : Scale) (key : Z) :
  Mat_wf m ->
  length (filter_mipmap (cols m) (rows m) scale (rgba_image m key))
    = (cols m * rows m)%nat ->
  apply_mipmap junk (Img8UC1 m) out0 scale key
  = mkMat (rows m) (cols m)
      (filter_mipmap (cols m) (rows m) scale (rgba_image m key)).
Proof.
  intros Hwf Hlen. unfold apply_mipmap.
  change (for_loop 0 (rows m) _ (new_array junk (cols m * rows m)))
    with (mipmap_src_img junk m key).
  rewrite (mipmap_src_img_map junk m key Hwf).
  apply copy_out_data, Hlen.
Qed.

(** The loops of visualize_segmentation_regions on an image as wide as
    the mask. *)
Lemma visualize_data (mask : Mat Z) (key delta : Z) (r : nat) (d : list Vec3b) :
  for_loop 0 (rows mask) (fun i visualization =>
    for_loop 0 (cols mask) (fun j visualization =>
      match Mat_at mask i j with
      | Some mask_pixel =>
          if Z.abs (mask_pixel - key) <? delta
          then match Mat_at visualization i j with
               | Some pixel => Mat_set visualization i j (highlight_pixel pixel)
               | None => visualization
               end
          else visualization
      | None => visualization
      end) visualization) (mkMat r (cols mask) d)
  = mkMat r (cols mask)
      (alter_rows (cols mask) (vis_f mask key delta) (rows mask) d).
Proof.
  unfold alter_rows.
  apply (for_loop_rel (fun (M : Mat Vec3b) d' => M = mkMat r (cols mask) d'));
    [reflexivity|].
  intros i M d' _ ->. unfold alter_row.
  apply (for_loop_rel (fun (M : Mat Vec3b) d' => M = mkMat r (cols mask) d'));
    [reflexivity|].
  intros j M d'' _ ->. unfold alter_cell, vis_f, vis_px.
  destruct (Mat_at mask i j) as [g|]; [|rewrite list_alter_id; reflexivity].
  destruct (Z.abs (g - key) <? delta); [|rewrite list_alter_id; reflexivity].
  unfold Mat_at, Mat_set. simpl.
  destruct (d'' !! (i * cols mask + j)%nat) as [px|] eqn:Hpx.
  - rewrite (insert_as_alter highlight_pixel d'' _ px Hpx). reflexivity.
  - rewrite alter_out_of_range by exact Hpx. reflexivity.
Qed.

Lemma half_to_white_range (v : Z) :
  0 <= v <= 255 -> 127 <= half_to_white v <= 255 /\ v <= half_to_white v.
Proof.
  intros Hv. unfold half_to_white.
  rewrite Z.quot_div_nonneg by lia.
  pose proof (Z.div_mod (v + 255) 2 ltac:(lia)).
  pose proof (Z.mod_pos_bound (v + 255) 2 ltac:(lia)). lia.
Qed.

Lemma half_range (v : Z) : 0 <= v <= 255 -> 0 <= half v <= 127 /\ half v <= v.
Proof.
  intros Hv. unfold half. rewrite Z.quot_div_nonneg by lia.
  pose proof (Z.div_mod v 2 ltac:(lia)).
  pose proof (Z.mod_pos_bound v 2 ltac:(lia)). lia.
Qed.

Lemma mix_images_inr_inv `{ColorConversion} (src dst mip : Image) (key_scale : Z)
    (out : Mat Vec4b) :
  mix_images src dst mip key_scale = inr out ->
  Image_empty dst = false /\ Image_size dst = Image_size src.
Proof.
  unfold mix_images.
  destruct (Image_empty src), (Image_empty dst), (Image_empty mip);
    simpl orb; cbv iota; try discriminate.
  destruct (size_eqb (Image_size src) (Image_size dst)) eqn:S1;
    [|simpl; discriminate].
  apply size_eqb_eq in S1. intros _. split; [reflexivity|congruence].
Qed.

(** An [int] of at most 24 bits passes through the [float] parameter
    unchanged. *)
Lemma float_of_int_exact (n : Z) : Z.abs n <= 2 ^ 24 -> float_of_int n = n.
Proof.
  intros Hn. unfold float_of_int.
  destruct (Z.ltb_spec (Z.abs n) (2 ^ 24)) as [Hlt|Hge]; [reflexivity|].
  assert (Ha : Z.abs n = 2 ^ 24) by lia.
  rewrite Ha.
  destruct (Z.abs_eq_or_opp n) as [E|E]; rewrite E in Ha.
  - rewrite Ha. reflexivity.
  - assert (Hn' : n = - 2 ^ 24) by lia. rewrite Hn'. reflexivity.
Qed.

(** Beyond 24 bits the scale is rounded before mix_images reads it. *)
Lemma float_of_int_rounds :
  float_of_int 33554438 = 33554440 /\ float_of_int 16777217 = 16777216.
Proof. split; reflexivity. Qed.

Lemma glow_blow_early_return (mask : Image) (dst0 : Mat Vec4b) (key delta : Z) :
  Image_empty mask = true \/ channels mask <> 1%nat ->
  glow_blow mask dst0 key delta = dst0.
Proof.
  intros Hbad. unfold glow_blow.
  destruct (Image_empty mask) eqn:E; [reflexivity|].
  destruct mask as [m|m|m]; [|reflexivity|reflexivity].
  destruct Hbad as [Hb|Hb]; [discriminate|]. exfalso. apply Hb. reflexivity.
Qed.

End CompositorFacts.

Module CompositorProps.
Import Cv Glow GlowMore GlowFacts BlendFacts CompositorFacts Examples MoreExamples.

(** The blend never brightens and never reaches white: on 8-bit inputs
    each channel of the output is [(src * (255 - alpha) + dst * alpha) / 256],
    which lies between the smaller input less one and the larger input and
    is at most 254, whatever the mipmap result and the scale. The range
    check of mix_images never fires. *)
Theorem blend_stays_below_white `{ColorConversion} (frame : Mat Vec3b)
    (overlay : Mat Vec4b) (mipmap_result : Image) (key_scale : Z) :
  Mat_empty frame = false ->
  Mat_wf overlay -> Mat_size overlay = Mat_size frame ->
  Image_wf mipmap_result -> Image_size mipmap_result = Mat_size frame ->
  exists out,
    mix_images (Img8UC3 frame) (Img8UC4 overlay) mipmap_result key_scale = inr out /\
    forall i j p d, (i < rows frame)%nat -> (j < cols frame)%nat ->
      Mat_at frame i j = Some p -> Mat_at overlay i j = Some d ->
      uchar_px p -> uchar4_px d ->
      exists a q,
        Mat_at (mipmap_gray_of mipmap_result) i j = Some a /\
        Mat_at out i j = Some q /\
        let alpha := blend_alpha a key_scale in
        (blended_exactly (b3 p) (c0 d) alpha (c0 q) /\
         blended_exactly (g3 p) (c1 d) alpha (c1 q) /\
         blended_exactly (r3 p) (c2 d) alpha (c2 q) /\
         blended_exactly 255 (c3 d) alpha (c3 q)) /\
        blended_between (b3 p) (c0 d) (c0 q) /\
        blended_between (g3 p) (c1 d) (c1 q) /\
        blended_between (r3 p) (c2 d) (c2 q) /\
        blended_between 255 (c3 d) (c3 q).
Proof.
  intros Hne Howf Hosz Hmwf Hmsz.
  rewrite mix_images_frame by assumption.
  eexists. split; [reflexivity|].
  intros i j p d Hi Hj Hp Hd (Hb & Hg & Hr) (H0 & H1 & H2 & H3).
  destruct (mipmap_gray_of_shape mipmap_result Hmwf) as [Hgraywf Hgraysz].
  assert (Hgs : Mat_size (mipmap_gray_of mipmap_result) = Mat_size frame)
    by congruence.
  unfold Mat_size in Hgs. injection Hgs as Hgc Hgr.
  destruct (Mat_at_wf (mipmap_gray_of mipmap_result) i j Hgraywf) as [a Ha];
    [lia|lia|].
  cbv zeta.
  rewrite (mix_loop_at _ _ _ _ i j a (mkVec4b (b3 p) (g3 p) (r3 p) 255) d);
    try assumption.
  - exists a. eexists. split; [exact Ha|]. split; [reflexivity|].
    pose proof (blend_alpha_range a key_scale) as Halpha.
    unfold blend_px. cbn [c0 c1 c2 c3].
    split.
    + repeat split; apply blend_channel_exact; lia.
    + repeat split; apply blend_channel_between; lia.
  - unfold Mat_at, map_Mat in *. simpl. rewrite list_lookup_fmap, Hp. reflexivity.
Qed.

Lemma blend_stays_below_white_witness :
  exists out,
    @mix_images bt601 (Img8UC3 (mkMat 1 1 [mkVec3b 255 255 255]))
      (Img8UC4 (mkMat 1 1 [overlay_color])) white_mipmap_1x1 600 = inr out /\
    exists q, Mat_at out 0 0 = Some q /\ c0 q <= 254.
Proof.
  destruct (@blend_stays_below_white bt601 (mkMat 1 1 [mkVec3b 255 255 255])
              (mkMat 1 1 [overlay_color]) white_mipmap_1x1 600
              eq_refl eq_refl eq_refl eq_refl eq_refl) as (out & Hout & Hpx).
  exists out. split; [exact Hout|].
  destruct (Hpx 0%nat 0%nat (mkVec3b 255 255 255) overlay_color
              ltac:(simpl; lia) ltac:(simpl; lia) eq_refl eq_refl
              ltac:(unfold uchar_px; simpl; lia)
              ltac:(unfold uchar4_px; simpl; lia))
    as (a & q & _ & Hq & _ & (_ & Hc0) & _).
  exists q. split; [exact Hq|exact Hc0].
Defined.

Local Ltac mix_cases :=
  repeat split; intros;
  repeat match goal with
         | H : exists _, _ |- _ => destruct H
         | H : _ /\ _ |- _ => destruct H
         | H : _ \/ _ |- _ => destruct H
         end;
  try discriminate; try congruence; auto.

(** mix_images returns an image exactly when its three inputs are
    non-empty and of one size and neither [src_img] nor [dst_rgba] has a
    single channel; the image then has the size of [src_img]. An empty
    input and a size mismatch are reported in that order of precedence; a
    single-channel [src_img] or [dst_rgba] of matching size reaches
    [cv::cvtColor] and raises its exception. *)
Theorem mix_images_returns_image_iff `{ColorConversion} (src dst mip : Image)
    (key_scale : Z) :
  ((exists out, mix_images src dst mip key_scale = inr out) <->
   Image_empty src = false /\ Image_empty dst = false /\ Image_empty mip = false /\
   Image_size dst = Image_size src /\ Image_size mip = Image_size src /\
   channels src <> 1%nat /\ channels dst <> 1%nat) /\
  (forall out, mix_images src dst mip key_scale = inr out ->
     Mat_size out = Image_size src) /\
  (mix_images src dst mip key_scale = inl EmptyInput <->
   Image_empty src = true \/ Image_empty dst = true \/ Image_empty mip = true) /\
  (mix_images src dst mip key_scale = inl SizeMismatch <->
   Image_empty src = false /\ Image_empty dst = false /\ Image_empty mip = false /\
   (Image_size dst <> Image_size src \/ Image_size mip <> Image_size src)).
Proof.
  assert (Hsz : forall a b, size_eqb a b = false -> b <> a).
  { intros a b Hf E. rewrite E, size_eqb_refl in Hf. discriminate. }
  unfold mix_images.
  destruct (Image_empty src) eqn:E1; [simpl; mix_cases|].
  destruct (Image_empty dst) eqn:E2; [simpl; mix_cases|].
  destruct (Image_empty mip) eqn:E3; [simpl; mix_cases|].
  simpl orb. cbv iota.
  destruct (size_eqb (Image_size src) (Image_size dst)) eqn:S1;
    [apply size_eqb_eq in S1|apply Hsz in S1; simpl; mix_cases].
  destruct (size_eqb (Image_size src) (Image_size mip)) eqn:S2;
    [apply size_eqb_eq in S2|apply Hsz in S2; simpl; mix_cases].
  simpl negb. simpl orb. cbv iota.
  destruct src as [s|s|s], dst as [d|d|d], mip as [m|m|m];
    cbn [cvtColor_BGR2BGRA cvtColor_BGR2GRAY channels]; mix_cases;
    try (eexists; reflexivity);
    match goal with
    | Hout : inr _ = inr _ |- _ =>
        injection Hout as <-; rewrite (proj1 (mix_loop_shape _ _ _ _)); reflexivity
    end.
Qed.


(** The highlight and the glow start from the same mask with different
    tests. At a pixel of value [g] the buffer handed to the mipmap filter
    is opaque exactly when [g] equals the key, and the overlay of glow_blow
    is opaque exactly when [|g - key| < Delta]. So for [Delta >= 1] every
    pixel that feeds the filter is highlighted, for [Delta = 1] the two
    regions are the same, and for [Delta <= 0] nothing is highlighted,
    not even a pixel equal to the key. *)
Theorem highlight_covers_mipmap_source (junk : nat -> uchar4) (m : Mat Z)
    (dst0 : Mat Vec4b) (key delta : Z) (i j : nat) (g : Z) :
  (i < rows m)%nat -> (j < cols m)%nat -> Mat_at m i j = Some g ->
  exists q s : Vec4b,
    Mat_at (glow_blow (Img8UC1 m) dst0 key delta) i j = Some q /\
    mipmap_src_img junk m key !! (i * cols m + j)%nat = Some s /\
    (c3 s = 255 <-> g = key) /\ (c3 s = 0 <-> g <> key) /\
    (c3 q = 255 <-> Z.abs (g - key) < delta) /\
    (c3 q = 0 <-> ~ Z.abs (g - key) < delta) /\
    (1 <= delta -> c3 s = 255 -> c3 q = 255) /\
    (delta = 1 -> (c3 q = 255 <-> c3 s = 255)) /\
    (delta <= 0 -> c3 q = 0).
Proof.
  intros Hi Hj Hg.
  exists (glow_px key delta g), (rgba_of_gray g key).
  split; [apply glow_blow_at; assumption|].
  split; [apply mipmap_src_img_at; assumption|].
  unfold glow_px, rgba_of_gray.
  destruct (Z.eqb_spec g key) as [E|N];
    destruct (Z.ltb_spec (Z.abs (g - key)) delta) as [Hlt|Hge];
    cbn [c3 overlay_color zero4]; repeat split; intros; try lia; try congruence.
Qed.

Lemma highlight_covers_mipmap_source_witness :
  exists q s : Vec4b,
    Mat_at (glow_blow (Img8UC1 (mkMat 1 2 [56; 60])) Mat_nil 56 20) 0 1 = Some q /\
    mipmap_src_img no_junk (mkMat 1 2 [56; 60]) 56 !! 1%nat = Some s /\
    c3 q = 255 /\ c3 s = 0.
Proof.
  destruct (highlight_covers_mipmap_source no_junk (mkMat 1 2 [56; 60]) Mat_nil
              56 20 0 1 60 ltac:(simpl; lia) ltac:(simpl; lia) eq_refl)
    as (q & s & Hq & Hs & _ & Hs0 & Hq255 & _).
  exists q, s. split; [exact Hq|]. split; [exact Hs|].
  split; [apply Hq255; reflexivity|apply Hs0; discriminate].
Defined.

(** visualize_segmentation_regions tints exactly the pixels that
    glow_blow highlights. On a three-channel frame of the mask's size the
    pixel under an opaque overlay pixel becomes
    [((B + 255) / 2, (G + 255) / 2, R / 2)], a 50% blend with cyan, and
    every other pixel is kept; the tinted pixel is an 8-bit pixel with blue
    and green at least 127 and red at most 127. *)
Theorem visualize_tints_highlight_region (frame : Mat Vec3b) (mask : Mat Z)
    (dst0 : Mat Vec4b) (key delta : Z) :
  Mat_size mask = Mat_size frame ->
  exists vis,
    visualize_segmentation_regions (Img8UC3 frame) mask key delta = Some vis /\
    Mat_size vis = Mat_size frame /\
    forall i j p g, (i < rows frame)%nat -> (j < cols frame)%nat ->
      Mat_at frame i j = Some p -> Mat_at mask i j = Some g ->
      exists q,
        Mat_at (glow_blow (Img8UC1 mask) dst0 key delta) i j = Some q /\
        (q = overlay_color \/ q = zero4) /\
        (q = overlay_color -> Mat_at vis i j = Some (highlight_pixel p)) /\
        (q = zero4 -> Mat_at vis i j = Some p) /\
        (uchar_px p ->
         highlight_pixel p
         = mkVec3b ((b3 p + 255) / 2) ((g3 p + 255) / 2) (r3 p / 2) /\
         127 <= b3 (highlight_pixel p) <= 255 /\
         127 <= g3 (highlight_pixel p) <= 255 /\
         0 <= r3 (highlight_pixel p) <= 127).
Proof.
  intros Hsz. unfold Mat_size in Hsz. injection Hsz as Hc Hr.
  unfold visualize_segmentation_regions.
  destruct frame as [fr fc fd]. simpl in Hc, Hr. subst fr fc.
  rewrite visualize_data. eexists. split; [reflexivity|].
  split; [reflexivity|].
  intros i j p g Hi Hj Hp Hg. simpl in Hi, Hj.
  exists (glow_px key delta g).
  split; [apply glow_blow_at; assumption|].
  assert (Hvis : Mat_at (mkMat (rows mask) (cols mask)
                           (alter_rows (cols mask) (vis_f mask key delta)
                              (rows mask) fd)) i j
                 = Some (vis_px key delta g p)).
  { unfold Mat_at in *. simpl in *.
    rewrite alter_rows_at by assumption. rewrite Hp. simpl.
    unfold vis_f, Mat_at. rewrite Hg. reflexivity. }
  rewrite Hvis. unfold glow_px, vis_px.
  destruct (Z.abs (g - key) <? delta).
  - split; [left; reflexivity|]. split; [reflexivity|].
    split; [discriminate|].
    intros (Hb & Hgg & Hrr).
    pose proof (half_to_white_range (b3 p) Hb).
    pose proof (half_to_white_range (g3 p) Hgg).
    pose proof (half_range (r3 p) Hrr).
    cbn [highlight_pixel b3 g3 r3].
    split; [|lia].
    unfold highlight_pixel, half_to_white, half.
    rewrite !Z.quot_div_nonneg by lia. reflexivity.
  - split; [right; reflexivity|]. split; [discriminate|].
    split; [reflexivity|].
    intros (Hb & Hgg & Hrr).
    pose proof (half_to_white_range (b3 p) Hb).
    pose proof (half_to_white_range (g3 p) Hgg).
    pose proof (half_range (r3 p) Hrr).
    cbn [highlight_pixel b3 g3 r3].
    split; [|lia].
    unfold highlight_pixel, half_to_white, half.
    rewrite !Z.quot_div_nonneg by lia. reflexivity.
Qed.

Lemma visualize_tints_highlight_region_witness :
  visualize_segmentation_regions
    (Img8UC3 (mkMat 1 2 [mkVec3b 10 20 30; mkVec3b 10 20 30]))
    (mkMat 1 2 [0; 60]) 56 20
  = Some (mkMat 1 2 [mkVec3b 10 20 30; mkVec3b 132 137 15]).
Proof.
  destruct (visualize_tints_highlight_region
              (mkMat 1 2 [mkVec3b 10 20 30; mkVec3b 10 20 30])
              (mkMat 1 2 [0; 60]) Mat_nil 56 20 eq_refl) as (vis & Hvis & _).
  rewrite Hvis. vm_compute in Hvis. injection Hvis as <-. reflexivity.
Defined.

(** apply_mipmap hands the filter the RGBA image of the mask and returns
    the filter's output as an image of the mask's size. On a well-formed
    mask no cell of the source buffer and no pixel of the result keeps the
    arbitrary content of its fresh allocation: the result does not depend
    on it, nor on what [output_image] held. An input that is not 8-bit
    single-channel leaves [output_image] as it was. *)
Theorem apply_mipmap_is_filter_of_rgba_image {Scale : Type}
    `{MipmapFilterSync Scale} (junk : nat -> uchar4) (m : Mat Z)
    (output_image : Mat Vec4b) (scale : Scale) (key : Z) :
  Mat_wf m ->
  length (filter_mipmap (cols m) (rows m) scale
            ((fun g => rgba_of_gray g key) <$> data m))
    = (cols m * rows m)%nat ->
  apply_mipmap junk (Img8UC1 m) output_image scale key
  = mkMat (rows m) (cols m)
      (filter_mipmap (cols m) (rows m) scale
         ((fun g => rgba_of_gray g key) <$> data m)) /\
  (forall junk' output_image',
     apply_mipmap junk' (Img8UC1 m) output_image' scale key
     = apply_mipmap junk (Img8UC1 m) output_image scale key) /\
  (forall c3m : Mat Vec3b,
     apply_mipmap junk (Img8UC3 c3m) output_image scale key = output_image) /\
  (forall c4m : Mat Vec4b,
     apply_mipmap junk (Img8UC4 c4m) output_image scale key = output_image).
Proof.
  intros Hwf Hlen. split; [|split; [|split]].
  - apply apply_mipmap_data; assumption.
  - intros junk' out'. rewrite !apply_mipmap_data by assumption. reflexivity.
  - reflexivity.
  - reflexivity.
Qed.


Lemma apply_mipmap_is_filter_of_rgba_image_witness :
  @apply_mipmap unit copy_filter_sync no_junk (Img8UC1 (mkMat 1 2 [56; 60])) Mat_nil
    tt 56
  = mkMat 1 2 [mkVec4b 56 56 56 255; mkVec4b 0 0 0 0].
Proof.
  exact (proj1 (@apply_mipmap_is_filter_of_rgba_image unit copy_filter_sync no_junk
                  (mkMat 1 2 [56; 60]) Mat_nil tt 56 eq_refl eq_refl)).
Defined.

(** glow_effect_image on a loaded image and an 8-bit mask of the image's
    size shows the blend of the image with the overlay of tolerance 10,
    weighted per pixel by the luma of the filtered mask times the scale
    mix_images reads: the [int] [param_KeyScale] rounded to a [float], which
    is [param_KeyScale] itself up to [2^24] in absolute value. *)
Theorem glow_effect_image_shows_blend `{ColorConversion} {Scale : Type}
    `{MipmapFilterSync Scale} (junk : nat -> uchar4) (src_img : Mat Vec3b)
    (m : Mat Z) (key key_scale : Z) (scale : Scale) :
  Mat_empty src_img = false -> Mat_wf m -> Mat_size m = Mat_size src_img ->
  length (filter_mipmap (cols m) (rows m) scale
            ((fun g => rgba_of_gray g key) <$> data m))
    = (cols m * rows m)%nat ->
  - 2 ^ 31 <= key_scale < 2 ^ 31 - 64 ->
  exists final_result,
    glow_effect_image junk src_img (Img8UC1 m) key key_scale scale
      = Some final_result /\
    Mat_size final_result = Mat_size src_img /\
    (forall i j p g v, (i < rows src_img)%nat -> (j < cols src_img)%nat ->
       Mat_at src_img i j = Some p -> Mat_at m i j = Some g ->
       filter_mipmap (cols m) (rows m) scale
         ((fun g => rgba_of_gray g key) <$> data m) !! (i * cols m + j)%nat = Some v ->
       Mat_at final_result i j
       = Some (blend_px (mkVec4b (b3 p) (g3 p) (r3 p) 255)
                 (if Z.abs (g - key) <? 10 then overlay_color else zero4)
                 (blend_alpha (bgr2gray (c0 v) (c1 v) (c2 v))
                    (float_of_int key_scale)))) /\
    (Z.abs key_scale <= 2 ^ 24 -> float_of_int key_scale = key_scale).
Proof.
  intros Hne Hwf Hsz Hlen _. unfold glow_effect_image, key_scale_in_mix_images.
  rewrite Hne.
  assert (Hmne : Mat_empty m = false).
  { unfold Mat_empty, Mat_size in *. injection Hsz as -> ->. exact Hne. }
  destruct (glow_blow_shape m Mat_nil key 10 Hmne) as [Hgwf Hgsz].
  rewrite apply_mipmap_data by assumption.
  unfold rgba_image, uchar4 in *.
  set (dst := filter_mipmap _ _ _ _) in *.
  rewrite mix_images_frame; [|exact Hne|congruence|exact Hsz].
  eexists. split; [reflexivity|]. split; [|split].
  - cbv zeta. rewrite mix_loop_data. reflexivity.
  - intros i j p g v Hi Hj Hp Hg Hv.
    unfold Mat_size in Hsz. injection Hsz as Hc Hr.
    cbv zeta.
    rewrite (mix_loop_at _ _ _ _ i j (bgr2gray (c0 v) (c1 v) (c2 v))
               (mkVec4b (b3 p) (g3 p) (r3 p) 255) (glow_px key 10 g)).
    + reflexivity.
    + exact Hi.
    + exact Hj.
    + unfold mipmap_gray_of, Mat_at, map_Mat. simpl.
      rewrite list_lookup_fmap, Hv. reflexivity.
    + unfold Mat_at, map_Mat in *. simpl. rewrite list_lookup_fmap, Hp. reflexivity.
    + apply glow_blow_at; [lia|lia|exact Hg].
  - apply float_of_int_exact.
Qed.

Lemma glow_effect_image_shows_blend_witness :
  @glow_effect_image bt601 unit copy_filter_sync no_junk black_1x1 (Img8UC1 mask_1x1)
    56 600 tt
  = Some (mkMat 1 1 [mkVec4b 65 0 65 254]).
Proof.
  destruct (@glow_effect_image_shows_blend bt601 unit copy_filter_sync no_junk
              black_1x1 mask_1x1 56 600 tt eq_refl eq_refl eq_refl eq_refl)
    as (out & Hout & _ & _); [lia|].
  rewrite Hout. vm_compute in Hout. injection Hout as <-. reflexivity.
Defined.

(** glow_effect_image does not resize the mask. With a mask that is not
    8-bit single-channel, that is empty, or whose size differs from the
    image's, mix_images returns early and [final_result] reaches
    [cv::imshow] as the empty image it was constructed as. *)
Theorem glow_effect_image_needs_matching_mask `{ColorConversion} {Scale : Type}
    `{MipmapFilterSync Scale} (junk : nat -> uchar4) (src_img : Mat Vec3b)
    (grayscale_mask : Image) (key key_scale : Z) (scale : Scale) :
  Mat_empty src_img = false ->
  channels grayscale_mask <> 1%nat \/ Image_empty grayscale_mask = true \/
  Image_size grayscale_mask <> Mat_size src_img ->
  glow_effect_image junk src_img grayscale_mask key key_scale scale = Some Mat_nil.
Proof.
  intros Hne Hbad. unfold glow_effect_image. rewrite Hne.
  destruct (mix_images _ _ _ _) as [e|out] eqn:Hmix; [reflexivity|].
  exfalso.
  destruct (mix_images_inr_inv _ _ _ _ _ Hmix) as [Hd Hdsz].
  clear Hmix. cbn [Image_empty Image_size] in Hd, Hdsz.
  destruct (Image_empty grayscale_mask) eqn:Em.
  - rewrite glow_blow_early_return in Hd by (left; exact Em). discriminate.
  - destruct grayscale_mask as [m|m|m].
    + destruct Hbad as [Hb|[Hb|Hb]].
      * apply Hb. reflexivity.
      * discriminate.
      * cbn [Image_empty Image_size] in Em, Hb.
        rewrite (proj2 (glow_blow_shape m Mat_nil key 10 Em)) in Hdsz. congruence.
    + rewrite glow_blow_early_return in Hd by (right; discriminate). discriminate.
    + rewrite glow_blow_early_return in Hd by (right; discriminate). discriminate.
Qed.

Lemma glow_effect_image_needs_matching_mask_witness :
  @glow_effect_image bt601 unit copy_filter_sync no_junk black_1x1
    (Img8UC1 (mkMat 1 2 [56; 60])) 56 600 tt
  = Some Mat_nil.
Proof.
  apply (@glow_effect_image_needs_matching_mask bt601 unit copy_filter_sync).
  - reflexivity.
  - right. right. cbn. discriminate.
Defined.

End CompositorProps.

(** ** Masks from class labels *)

Module SegProps.
Import Cv Glow Seg GlowFacts CompositorFacts Examples.

Lemma image_post_scaled (l : Z) : 0 <= l <= 21 -> image_post l = 12 * l.
Proof.
  intros Hl. unfold image_post, uchar_cast. change scaleFactor with 12.
  rewrite Z.mod_small by lia. lia.
Qed.

(** The masks that the [torch::max] post-processing builds hold 12 times
    the class index (for up to 22 classes nothing wraps), so distinct
    classes have distinct grey values. Of such a mask the buffer handed to
    the mipmap filter is opaque exactly at the pixels of class [c] when
    the key is [12 * c], and transparent black everywhere when the key is
    not a multiple of 12, as for the key 56; glow_blow highlights a pixel
    of class [l] exactly when [|12 * l - key| < Delta]. *)
Theorem label_mask_meets_key_at_multiples_of_12 (junk : nat -> uchar4)
    (segMask : Mat Z) (dst0 : Mat Vec4b) (key delta : Z) :
  Mat_wf segMask ->
  (forall k l, data segMask !! k = Some l -> 0 <= l <= 21) ->
  (forall i j l, Mat_at segMask i j = Some l ->
     Mat_at (mask_of_labels segMask) i j = Some (12 * l)) /\
  (forall i j l, (i < rows segMask)%nat -> (j < cols segMask)%nat ->
     Mat_at segMask i j = Some l ->
     exists q s : Vec4b,
       Mat_at (glow_blow (Img8UC1 (mask_of_labels segMask)) dst0 key delta) i j
         = Some q /\
       (c3 q = 255 <-> Z.abs (12 * l - key) < delta) /\
       mipmap_src_img junk (mask_of_labels segMask) key
         !! (i * cols segMask + j)%nat = Some s /\
       (c3 s = 255 <-> key = 12 * l)) /\
  (key mod 12 <> 0 ->
     mipmap_src_img junk (mask_of_labels segMask) key
     = replicate (cols segMask * rows segMask) zero4).
Proof.
  intros Hwf Hrange.
  assert (Hat : forall i j l, Mat_at segMask i j = Some l ->
            Mat_at (mask_of_labels segMask) i j = Some (12 * l)).
  { intros i j l Hl. unfold Mat_at, mask_of_labels, map_Mat in *. simpl.
    rewrite list_lookup_fmap, Hl. simpl.
    rewrite image_post_scaled by (eapply Hrange; exact Hl). reflexivity. }
  split; [exact Hat|]. split.
  - intros i j l Hi Hj Hl. pose proof (Hat i j l Hl) as Hm.
    exists (glow_px key delta (12 * l)), (rgba_of_gray (12 * l) key).
    split; [apply glow_blow_at; assumption|].
    split.
    { unfold glow_px. destruct (Z.ltb_spec (Z.abs (12 * l - key)) delta);
        cbn [c3 overlay_color zero4]; split; intros; try lia; try discriminate. }
    split; [apply (mipmap_src_img_at junk (mask_of_labels segMask)); assumption|].
    unfold rgba_of_gray. destruct (Z.eqb_spec (12 * l) key);
      cbn [c3]; split; intros; try lia; try discriminate; congruence.
  - intros Hkey.
    assert (Hwf' : Mat_wf (mask_of_labels segMask)).
    { unfold Mat_wf, mask_of_labels, map_Mat in *. simpl.
      rewrite length_fmap. exact Hwf. }
    rewrite (mipmap_src_img_map junk _ key Hwf').
    unfold MoreNotions.rgba_image, mask_of_labels, map_Mat. simpl.
    apply list_eq. intros k. rewrite !list_lookup_fmap.
    destruct (data segMask !! k) as [l|] eqn:Hl; simpl.
    + rewrite lookup_replicate_2
        by (apply lookup_lt_Some in Hl; rewrite Hwf in Hl; lia).
      rewrite image_post_scaled by (eapply Hrange; exact Hl).
      unfold rgba_of_gray. destruct (Z.eqb_spec (12 * l) key) as [E|N];
        [|reflexivity].
      exfalso. apply Hkey. rewrite <- E, Z.mul_comm. apply Z.mod_mul. lia.
    + symmetry. apply lookup_ge_None_2. rewrite length_replicate.
      apply lookup_ge_None_1 in Hl. rewrite Hwf in Hl. lia.
Qed.

Lemma label_mask_meets_key_at_multiples_of_12_witness :
  mipmap_src_img no_junk (mask_of_labels (mkMat 1 3 [4; 5; 6])) 56
  = [zero4; zero4; zero4].
Proof.
  apply (proj2 (proj2 (label_mask_meets_key_at_multiples_of_12 no_junk
                         (mkMat 1 3 [4; 5; 6]) Mat_nil 56 20 eq_refl
                         ltac:(intros [|[|[|k]]] l Hl; simpl in Hl;
                               try discriminate; injection Hl as <-; lia)))).
  discriminate.
Defined.

End SegProps.

(** ** The pipeline: hard errors, and the two versions of the filter *)

Module PipelineProps.
Import Cv Glow GlowMore GlowFacts PipelineFacts CompositorFacts Examples MoreExamples.

Lemma pipeline_state_None_S {Scale : Type} `{MipmapFilter Scale}
    (junk : nat -> uchar4) (masks : list (Mat Z)) (w h : nat) (scale : Scale)
    (key : Z) (query : nat -> cudaError_t) (n : nat) :
  pipeline_state junk masks w h scale key query n = None ->
  pipeline_state junk masks w h scale key query (S n) = None.
Proof. intros Hn. unfold pipeline_state in *. rewrite for_loop_S, Hn. reflexivity. Qed.

Lemma pipeline_state_None_le {Scale : Type} `{MipmapFilter Scale}
    (junk : nat -> uchar4) (masks : list (Mat Z)) (w h : nat) (scale : Scale)
    (key : Z) (query : nat -> cudaError_t) (n n' : nat) :
  (n <= n')%nat ->
  pipeline_state junk masks w h scale key query n = None ->
  pipeline_state junk masks w h scale key query n' = None.
Proof.
  intros Hle Hn. induction Hle as [|n' Hle IH]; [exact Hn|].
  apply pipeline_state_None_S, IH.
Qed.

(** A hard CUDA error at the poll of any mask ends the pipeline through
    [checkCudaErrors]: no result vector is returned, the results already
    harvested included. *)
Theorem pipeline_hard_error_loses_batch {Scale : Type} `{MipmapFilter Scale}
    (junk : nat -> uchar4) (masks : list (Mat Z)) (w h : nat) (scale : Scale)
    (key : Z) (query : nat -> cudaError_t) (k : nat) :
  (k < length masks)%nat -> query (k + 2)%nat = cudaErrorOther ->
  triple_buffered_mipmap_pipeline junk masks w h scale key query = None.
Proof.
  intros Hk Hq. unfold triple_buffered_mipmap_pipeline.
  rewrite (pipeline_state_None_le junk masks w h scale key query (S (k + 2)));
    [reflexivity|lia|].
  unfold pipeline_state. rewrite for_loop_S.
  destruct (for_loop 0 (k + 2) _ _) as [st|]; [|reflexivity].
  unfold pipeline_step, pipeline_harvest.
  replace (k + 2 - 2)%nat with k by lia.
  destruct (Nat.leb_spec 2 (k + 2)) as [_|Hn]; [|lia].
  destruct (Nat.ltb_spec k (length masks)) as [_|Hn]; [|lia].
  simpl andb. cbv iota. rewrite Hq. reflexivity.
Qed.

Lemma pipeline_hard_error_loses_batch_witness :
  @triple_buffered_mipmap_pipeline unit copy_filter no_junk
    [mask_1x1; mask_1x1] 1 1 tt 56
    (fun i => if (i =? 3)%nat then cudaErrorOther else cudaSuccess)
  = None.
Proof.
  apply (@pipeline_hard_error_loses_batch unit copy_filter no_junk
           [mask_1x1; mask_1x1] 1 1 tt 56 _ 1%nat).
  - simpl. lia.
  - reflexivity.
Defined.

(** The video path and the image path filter a mask alike. When every
    poll finds its event complete and the masks have the size the pipeline
    was given, result [k] of triple_buffered_mipmap_pipeline is the image
    apply_mipmap returns for mask [k], provided the asynchronous kernel
    computes what the synchronous one does. *)
Theorem pipeline_agrees_with_apply_mipmap {Scale : Type} `{MipmapFilter Scale}
    `{MipmapFilterSync Scale} (junk : nat -> uchar4) (masks : list (Mat Z))
    (w h : nat) (scale : Scale) (key : Z) (query : nat -> cudaError_t) :
  (forall w' h' s src, filter_mipmap_async w' h' s src = filter_mipmap w' h' s src) ->
  (forall k, (k < length masks)%nat -> query (k + 2)%nat = cudaSuccess) ->
  (forall k m, masks !! k = Some m ->
     Mat_wf m /\ cols m = w /\ rows m = h /\
     length (filter_mipmap w h scale ((fun g => rgba_of_gray g key) <$> data m))
       = (w * h)%nat) ->
  triple_buffered_mipmap_pipeline junk masks w h scale key query
  = Some ((fun m => apply_mipmap junk (Img8UC1 m) Mat_nil scale key) <$> masks).
Proof.
  intros Hsame Hready Hmasks.
  rewrite pipeline_outputs by (intros k Hk; rewrite (Hready k Hk); discriminate).
  f_equal. apply list_eq. intros k. rewrite !list_lookup_fmap.
  destruct (masks !! k) as [m|] eqn:Hm.
  - assert (Hk : (k < length masks)%nat) by (apply lookup_lt_Some in Hm; exact Hm).
    rewrite (lookup_seq_lt 0 _ k Hk). cbn [fmap option_fmap option_map].
    change (0 + k)%nat with k.
    destruct (Hmasks k m Hm) as (Hwf & Hc & Hr & Hlen).
    assert (Hjob : Notions.job junk masks scale key k
                   = filter_mipmap w h scale (MoreNotions.rgba_image m key)).
    { unfold Notions.job. rewrite Hm. unfold apply_mipmap_async.
      rewrite (mipmap_src_img_map junk m key Hwf), Hsame, Hc, Hr. reflexivity. }
    unfold Notions.harvested. rewrite (Hready k Hk).
    rewrite slot_after_full by (rewrite Hjob; exact Hlen).
    rewrite Hjob.
    rewrite apply_mipmap_data; [|exact Hwf|rewrite Hc, Hr; exact Hlen].
    rewrite Hc, Hr. rewrite take_ge; [reflexivity|].
    unfold MoreNotions.rgba_image. rewrite Hlen. lia.
  - rewrite (lookup_ge_None_2 (seq 0 (length masks)));
      [reflexivity|].
    rewrite length_seq. apply lookup_ge_None_1 in Hm. exact Hm.
Qed.

Lemma pipeline_agrees_with_apply_mipmap_witness :
  @triple_buffered_mipmap_pipeline unit copy_filter no_junk
    [mask_1x1; mkMat 1 1 [60]] 1 1 tt 56 (fun _ => cudaSuccess)
  = Some [@apply_mipmap unit copy_filter_sync no_junk (Img8UC1 mask_1x1) Mat_nil tt 56;
          @apply_mipmap unit copy_filter_sync no_junk (Img8UC1 (mkMat 1 1 [60]))
            Mat_nil tt 56].
Proof.
  apply (@pipeline_agrees_with_apply_mipmap unit copy_filter copy_filter_sync).
  - reflexivity.
  - reflexivity.
  - intros [|[|k]] m Hm; simpl in Hm; try discriminate; injection Hm as <-;
      repeat split.
Defined.

End PipelineProps.

(** ** The post-processing of a sub-batch *)

Module SubBatchFacts.
Import Cv Glow SubBatch GlowFacts BlendFacts PipelineFacts CompositorFacts.

Lemma mapM_lookup_total {A B : Type} (f : A -> option B) (l : list A) :
  (forall i x, l !! i = Some x -> is_Some (f x)) ->
  exists k, mapM f l = Some k /\ length k = length l /\
    forall i x, l !! i = Some x -> exists y, k !! i = Some y /\ f x = Some y.
Proof.
  intros Htotal.
  destruct (mapM_is_Some_2 f l) as [k Hk].
  { apply Forall_lookup_2. exact Htotal. }
  exists k. split; [exact Hk|].
  apply mapM_Some_1 in Hk. split.
  - symmetry. eapply Forall2_length, Hk.
  - intros i x Hx. destruct (Forall2_lookup_l _ _ _ _ _ Hk Hx) as (y & Hy & Hf).
    exists y. split; assumption.
Qed.

Lemma Mat_empty_of_size {A B : Type} (m : Mat A) (m' : Mat B) :
  Mat_size m = Mat_size m' -> Mat_empty m = Mat_empty m'.
Proof. unfold Mat_size, Mat_empty. intros E. injection E as -> ->. reflexivity. Qed.

Lemma Mat_nonempty_size {A : Type} (m : Mat A) (w h : nat) :
  (0 < w)%nat -> (0 < h)%nat -> Mat_size m = (w, h) -> Mat_empty m = false.
Proof.
  unfold Mat_size, Mat_empty. intros Hw Hh E. injection E as -> ->.
  destruct w, h; try lia. reflexivity.
Qed.

Section Facts.
Context `{ColorConversion} {Scale : Type} `{MipmapFilter Scale}.
Variable resize : Mat Z -> nat * nat -> option (Mat Z).
Variables w h : nat.
Variables key key_scale : Z.
Hypothesis w_pos : (0 < w)%nat.
Hypothesis h_pos : (0 < h)%nat.

Lemma defaultSize_known : defaultSize w h = (w, h).
Proof.
  unfold defaultSize.
  destruct (Nat.ltb_spec 0 w); [|lia]. destruct (Nat.ltb_spec 0 h); [|lia].
  reflexivity.
Qed.

Lemma blank_output_data :
  blank_output w h = mkMat h w (replicate (h * w) (mkVec4b 0 0 0 255)).
Proof. unfold blank_output, Mat_filled. rewrite defaultSize_known. reflexivity. Qed.

Lemma resized_mask_size (f : Mat Vec3b) (m : Mat Z) :
  Mat_size f = (w, h) ->
  (forall r, resize m (w, h) = Some r -> Mat_size r = (w, h)) ->
  Mat_size (resized_mask resize w h f m) = (w, h).
Proof.
  intros Hf Hres. unfold resized_mask, targetSize.
  rewrite (Mat_nonempty_size f w h w_pos h_pos Hf), Hf.
  destruct (resize m (w, h)) as [r|]; [apply Hres; reflexivity|reflexivity].
Qed.

(** With three and four channels mix_images never reaches the exception
    of [cv::cvtColor]. *)
Lemma final_result_cases (f : Mat Vec3b) (g mip : Mat Vec4b) :
  (Mat_empty mip = true -> final_result w h key_scale f g mip = Some (blank_output w h)) /\
  (Mat_empty f = false -> Mat_size g = Mat_size f -> Mat_size mip = Mat_size f ->
   exists out,
     mix_images (Img8UC3 f) (Img8UC4 g) (Img8UC4 mip) key_scale = inr out /\
     final_result w h key_scale f g mip = Some out) /\
  is_Some (final_result w h key_scale f g mip).
Proof.
  split; [|split].
  - intros Hmip. unfold final_result, mix_images. simpl Image_empty.
    rewrite Hmip, !orb_true_r. reflexivity.
  - intros Hf Hg Hmip. unfold final_result.
    rewrite mix_images_frame by assumption. cbv zeta.
    eexists. split; [reflexivity|].
    rewrite (Mat_empty_of_size _ f), Hf; [reflexivity|].
    rewrite (proj1 (mix_loop_shape _ _ _ _)). reflexivity.
  - unfold final_result, mix_images. simpl Image_empty. simpl Image_size.
    destruct (Mat_empty f || Mat_empty g || Mat_empty mip); [eexists; reflexivity|].
    destruct (negb _ || negb _); [eexists; reflexivity|].
    cbn [cvtColor_BGR2BGRA cvtColor_BGR2GRAY].
    destruct (Mat_empty _); eexists; reflexivity.
Qed.

End Facts.

End SubBatchFacts.

Module SubBatchProps.
Import Cv Glow SubBatch GlowFacts BlendFacts PipelineFacts CompositorFacts
  SubBatchFacts Examples.

(** A mipmap result that is not ready when it is polled costs the frame.
    For frames of the capture's size and masks that [cv::resize] brings to
    that size (or fails on, which gives a blank mask), the frame a
    sub-batch shows for slot [i] is the blend of frame [i] with its overlay
    and the slot's buffer when the poll of step [i + 2] finds the event
    complete, and the opaque black image of the default size when the poll
    says not ready: the source frame is not passed through. The slot's
    buffer is the filter's output when that has one cell per pixel. *)
Theorem unready_mipmap_blanks_frame `{ColorConversion} {Scale : Type}
    `{MipmapFilter Scale} (resize : Mat Z -> nat * nat -> option (Mat Z))
    (junk : nat -> uchar4) (w h : nat) (scale : Scale) (key key_scale : Z)
    (query : nat -> cudaError_t) (frames : list (Mat Vec3b)) (masks : list (Mat Z)) :
  (0 < w)%nat -> (0 < h)%nat -> length frames = length masks ->
  (forall i f, frames !! i = Some f -> Mat_size f = (w, h)) ->
  (forall i m r, masks !! i = Some m -> resize m (w, h) = Some r ->
     Mat_size r = (w, h)) ->
  (forall k, (k < length masks)%nat -> query (k + 2)%nat <> cudaErrorOther) ->
  exists outs,
    process_sub_batch resize junk w h scale key key_scale query frames masks
      = Some outs /\
    length outs = length frames /\
    blank_output w h = mkMat h w (replicate (h * w) (mkVec4b 0 0 0 255)) /\
    forall i f m, frames !! i = Some f -> masks !! i = Some m ->
      (query (i + 2)%nat = cudaErrorNotReady ->
       outs !! i = Some (blank_output w h)) /\
      (query (i + 2)%nat = cudaSuccess ->
       exists out,
         mix_images (Img8UC3 f)
           (Img8UC4 (glow_blow (Img8UC1 (resized_mask resize w h f m)) Mat_nil key 10))
           (Img8UC4 (mkMat h w
                       (take (w * h)
                          (Notions.slot_after junk
                             (zip_with (resized_mask resize w h) frames masks)
                             w h scale key i))))
           key_scale = inr out /\
         outs !! i = Some out /\
         (length (apply_mipmap_async junk (resized_mask resize w h f m) scale key)
          = (w * h)%nat ->
          mix_images (Img8UC3 f)
            (Img8UC4 (glow_blow (Img8UC1 (resized_mask resize w h f m)) Mat_nil
                        key 10))
            (Img8UC4 (mkMat h w
                        (take (w * h)
                           (apply_mipmap_async junk (resized_mask resize w h f m)
                              scale key))))
            key_scale = inr out)).
Proof.
  intros Hw Hh Hlen Hframes Hresize Hquery.
  unfold process_sub_batch.
  set (R := zip_with (resized_mask resize w h) frames masks).
  assert (HR : forall i f m, frames !! i = Some f -> masks !! i = Some m ->
            R !! i = Some (resized_mask resize w h f m)).
  { intros i f m Hf Hm. unfold R. rewrite lookup_zip_with, Hf, Hm. reflexivity. }
  assert (HRinv : forall i r, R !! i = Some r ->
            exists f m, frames !! i = Some f /\ masks !! i = Some m /\
                        r = resized_mask resize w h f m).
  { intros i r Hr. unfold R in Hr. apply lookup_zip_with_Some in Hr.
    destruct Hr as (f & m & -> & Hf & Hm). eauto. }
  assert (HRlen : length R = length frames).
  { unfold R. rewrite length_zip_with. lia. }
  assert (HRsize : forall i r, R !! i = Some r -> Mat_size r = (w, h)).
  { intros i r Hr. destruct (HRinv i r Hr) as (f & m & Hf & Hm & ->).
    apply resized_mask_size; [exact Hw|exact Hh|eapply Hframes; exact Hf|].
    intros r' Hr'. eapply Hresize; eassumption. }
  (* the overlays *)
  destruct (mapM_lookup_total (glow_blow_result key) R) as (G & HG & HGlen & HGat).
  { intros i r Hr. unfold glow_blow_result.
    rewrite (Mat_nonempty_size r w h Hw Hh (HRsize i r Hr)). eexists. reflexivity. }
  rewrite HG. cbn [mbind option_bind].
  (* the mipmap results *)
  rewrite pipeline_outputs by (intros k Hk; apply Hquery; lia).
  cbn [mbind option_bind].
  set (M := Notions.harvested junk R w h scale key query <$> seq 0 (length R)).
  assert (HMat : forall i, (i < length R)%nat ->
            M !! i = Some (Notions.harvested junk R w h scale key query i)).
  { intros i Hi. unfold M. rewrite list_lookup_fmap, lookup_seq_lt by exact Hi.
    reflexivity. }
  (* the blends *)
  destruct (mapM_lookup_total
              (fun x : Mat Vec3b * Mat Vec4b * Mat Vec4b =>
                 final_result w h key_scale x.1.1 x.1.2 x.2)
              (zip (zip frames G) M)) as (outs & Houts & Houtslen & Houtsat).
  { intros i x _. apply final_result_cases. }
  exists outs. split; [exact Houts|]. split.
  { rewrite Houtslen, !length_zip_with.
    unfold M. rewrite length_fmap, length_seq. lia. }
  split; [apply blank_output_data; assumption|].
  intros i f m Hf Hm.
  pose proof (HR i f m Hf Hm) as Hr.
  set (r := resized_mask resize w h f m) in *.
  assert (Hi : (i < length R)%nat) by (apply lookup_lt_Some in Hr; exact Hr).
  destruct (HGat i r Hr) as (g & Hg & Hgr).
  unfold glow_blow_result in Hgr.
  rewrite (Mat_nonempty_size r w h Hw Hh (HRsize i r Hr)) in Hgr.
  injection Hgr as <-.
  assert (Hzip : zip (zip frames G) M !! i
                 = Some (f, glow_blow (Img8UC1 r) Mat_nil key 10,
                         Notions.harvested junk R w h scale key query i)).
  { rewrite !lookup_zip_with, Hf, Hg, (HMat i Hi). reflexivity. }
  destruct (Houtsat i _ Hzip) as (out & Hout & Hfin).
  cbn [fst snd] in Hfin.
  assert (Hfsz : Mat_size f = (w, h)) by (eapply Hframes; exact Hf).
  split.
  - intros Hnr. rewrite Hout. f_equal.
    unfold Notions.harvested in Hfin. rewrite Hnr in Hfin.
    rewrite (proj1 (final_result_cases w h key_scale f _ Mat_nil) eq_refl) in Hfin.
    congruence.
  - intros Hok. unfold Notions.harvested in Hfin.
    rewrite Hok in Hfin.
    destruct (proj1 (proj2 (final_result_cases w h key_scale f
                              (glow_blow (Img8UC1 r) Mat_nil key 10)
                              (mkMat h w (take (w * h)
                                 (Notions.slot_after junk R w h scale key i))))))
      as (out' & Hmix & Hfin').
    + exact (Mat_nonempty_size f w h Hw Hh Hfsz).
    + rewrite (proj2 (glow_blow_shape r Mat_nil key 10
                        (Mat_nonempty_size r w h Hw Hh (HRsize i r Hr)))).
      rewrite (HRsize i r Hr), Hfsz. reflexivity.
    + rewrite Hfsz. reflexivity.
    + exists out'. split; [exact Hmix|]. split; [rewrite Hout; congruence|].
      intros Hfull. rewrite <- Hmix. do 4 f_equal.
      symmetry. rewrite slot_after_full; unfold Notions.job; rewrite Hr;
        [reflexivity|exact Hfull].
Qed.

Lemma unready_mipmap_blanks_frame_witness :
  @process_sub_batch bt601 unit copy_filter (fun m _ => Some m) no_junk 1 1 tt 56 600
    (fun i => if (i =? 2)%nat then cudaErrorNotReady else cudaSuccess)
    [frame_1x1; frame_1x1] [mask_1x1; mask_1x1]
  = Some [mkMat 1 1 [mkVec4b 0 0 0 255]; mkMat 1 1 [mkVec4b 70 9 80 254]].
Proof.
  destruct (@unready_mipmap_blanks_frame bt601 unit copy_filter (fun m _ => Some m)
              no_junk 1 1 tt 56 600
              (fun i => if (i =? 2)%nat then cudaErrorNotReady else cudaSuccess)
              [frame_1x1; frame_1x1] [mask_1x1; mask_1x1]
              ltac:(lia) ltac:(lia) eq_refl)
    as (outs & Houts & _).
  - intros [|[|i]] f Hf; simpl in Hf; try discriminate; injection Hf as <-;
      reflexivity.
  - intros [|[|i]] m r Hm Hr; simpl in Hm; try discriminate; injection Hm as <-;
      injection Hr as <-; reflexivity.
  - intros [|[|k]] Hk; simpl in *; try lia; discriminate.
  - rewrite Houts. vm_compute in Houts. injection Houts as <-. reflexivity.
Defined.

End SubBatchProps.

(** ** The orchestrator: which frame a mask is blended on, and the quit key *)

Module VideoMoreFacts.
Import Video Notions VideoFacts VideoMoreNotions.

Section Lag.
Context {Frame Tensor Mask Out : Type}.
Variable process_img : Frame -> Tensor.
Variable segment : Tensor -> Mask.
Variable composite : option Frame -> option Mask -> Out.
Variable quit : nat -> bool.

Local Abbreviation mask_of := (Notions.mask_of process_img segment).

Lemma bases8_app (c r : list Frame) :
  length c = 8%nat -> bases8 (c ++ r) = bases8 c.
Proof.
  intros Hc.
  destruct c as [|a0 [|a1 [|a2 [|a3 [|a4 [|a5 [|a6 [|a7 [|a8 c]]]]]]]]];
    try discriminate.
  reflexivity.
Qed.

Lemma lagged_bases_app (c r : list Frame) :
  length c = 8%nat -> lagged_bases (c ++ r) = bases8 r ++ lagged_bases r.
Proof.
  intros Hc.
  destruct c as [|a0 [|a1 [|a2 [|a3 [|a4 [|a5 [|a6 [|a7 [|a8 c]]]]]]]]];
    try discriminate.
  unfold lagged_bases, bases8. rewrite length_app.
  change (length [a0; a1; a2; a3; a4; a5; a6; a7] + length r)%nat
    with (8 + length r)%nat.
  rewrite seq_app, fmap_app. f_equal.
  change (0 + 8)%nat with (8 + 0)%nat.
  rewrite <- (fmap_add_seq 8 0 (length r)), <- list_fmap_compose.
  reflexivity.
Qed.

Lemma bases8_padded (v : list Frame) :
  bases8 (padded v) = bases8 (pad8 (take 8 v)).
Proof.
  destruct v as [|f v]; [reflexivity|].
  rewrite padded_unfold. apply bases8_app.
  destruct (pad8_take_shape f v) as (a & b & c & d & e & g & h & i & ->).
  reflexivity.
Qed.

Hypothesis never_quit : forall n, quit n = false.

(** The loop and the final drain, with the slot every mask is blended
    on. *)
Lemma video_loop_lag (fuel : nat) :
  forall (v original_frames : list Frame) (pm : option (list Mask))
         (sk : list Out) (sh : nat),
    (length v < fuel)%nat -> pending_ok pm ->
    exists st,
      video_loop process_img segment composite quit fuel
        (mkLoopState v original_frames (take 4 <$> pm) (drop 4 <$> pm)
           (mkEmitState sk sh false)) = Some st /\
      final_drain composite quit st
      = sk ++ zip_with composite
                (match pm with Some _ => bases8 (padded v) | None => [] end
                 ++ lagged_bases (padded v))
                (Some <$> (pending_masks pm ++ (mask_of <$> padded v))).
Proof.
  induction fuel as [|fuel IH]; intros v original_frames pm sk sh Hfuel Hok;
    [lia|].
  destruct v as [|f v].
  - rewrite video_loop_nil.
    destruct (drain_futures_no_quit composite quit never_quit pm [] sk sh Hok)
      as (sh' & Hboth & Hfirst).
    eexists. split; [reflexivity|].
    unfold final_drain.
    cbn [ls_emit stopped segFuture1 segFuture2 ls_original_frames].
    assert (Hs1 : stopped (drain_future composite quit 0 (take 4 <$> pm) []
                             (mkEmitState sk sh false)) = false).
    { rewrite Hfirst. destruct pm as [l|]; [|reflexivity].
      apply first_drain_not_stopped; [exact never_quit|exact Hok]. }
    rewrite Hs1, Hboth. cbn [sink]. change (padded []) with (@nil Frame).
    change (lagged_bases []) with (@nil (option Frame)).
    rewrite fmap_nil, !app_nil_r.
    destruct pm as [l|]; reflexivity.
  - destruct (video_loop_cons process_img segment composite quit never_quit
                fuel f v original_frames pm sk sh Hok) as [sh' ->].
    set (chunk := pad8 (take 8 (f :: v))).
    assert (Hchunk : length chunk = 8%nat).
    { destruct (pad8_take_shape f v) as (a & b & c & d & e & g & h & i & Hshape).
      unfold chunk. rewrite Hshape. reflexivity. }
    destruct (IH (drop 8 (f :: v)) chunk (Some (mask_of <$> chunk))
                (sk ++ zip_with composite (bases8 chunk) (Some <$> pending_masks pm))
                sh') as (st & Hst & Hfinal).
    { rewrite length_drop. simpl in *. lia. }
    { simpl. rewrite length_fmap. exact Hchunk. }
    exists st. split; [exact Hst|].
    rewrite Hfinal. simpl pending_masks. rewrite padded_unfold. fold chunk.
    rewrite (bases8_app chunk _ Hchunk), (lagged_bases_app chunk _ Hchunk).
    rewrite <- app_assoc. f_equal.
    rewrite (fmap_app mask_of), !fmap_app.
    destruct pm as [l|].
    + rewrite !zip_with_app; [reflexivity|..];
        unfold bases8; rewrite !length_fmap, length_seq; simpl in *; congruence.
    + reflexivity.
Qed.

End Lag.

Section Quit.
Context {Frame Tensor Mask Out : Type}.
Variable process_img : Frame -> Tensor.
Variable segment : Tensor -> Mask.
Variable composite : option Frame -> option Mask -> Out.
Variable quit : nat -> bool.
Variable q : nat.
Hypothesis quiet_before : forall k, (k < q)%nat -> quit k = false.
Hypothesis quit_at : quit q = true.

Lemma emit_agree_refl (es : @EmitState Out) :
  stopped es = false -> shown es = length (sink es) ->
  (length (sink es) <= q)%nat -> emit_agree q es es.
Proof. intros Hs Hsh Hle. repeat split; try assumption. left. repeat split; assumption. Qed.

Lemma drain_agree (offset : nat) (grayscale_masks : list Mask)
    (original_frames : list Frame) (es es0 : EmitState) :
  emit_agree q es es0 ->
  emit_agree q (drain composite quit offset grayscale_masks original_frames es)
    (drain composite no_key offset grayscale_masks original_frames es0).
Proof.
  intros Hag. unfold drain. apply for_loop_rel; [exact Hag|].
  clear es es0 Hag. intros i a b _ (Hsh & Hs0 & Hcase).
  rewrite Hs0. unfold no_key at 1. cbv iota.
  destruct Hcase as [(Hs & -> & Hle)|(Hs & Hsink & Hlt)].
  - rewrite Hs0.
    destruct (decide (length (sink b) = q)) as [Heq|Hne].
    + rewrite Hsh, Heq, quit_at.
      split; [|split]; cbn [shown sink stopped].
      * rewrite length_app. simpl. lia.
      * reflexivity.
      * right. split; [reflexivity|]. split.
        -- rewrite take_app_le by lia. rewrite take_ge by lia. reflexivity.
        -- rewrite length_app. simpl. lia.
    + rewrite quiet_before by lia.
      split; [|split]; cbn [shown sink stopped].
      * rewrite length_app. simpl. lia.
      * reflexivity.
      * left. split; [reflexivity|]. split; [reflexivity|].
        rewrite length_app. simpl. lia.
  - rewrite Hs.
    split; [|split]; cbn [shown sink stopped].
    + rewrite length_app. simpl. lia.
    + reflexivity.
    + right. split; [exact Hs|]. split.
      * rewrite take_app_le by lia. exact Hsink.
      * rewrite length_app. simpl. lia.
Qed.

Lemma drain_future_agree (offset : nat) (segFuture : option (list Mask))
    (original_frames : list Frame) (es es0 : EmitState) :
  emit_agree q es es0 ->
  emit_agree q (drain_future composite quit offset segFuture original_frames es)
    (drain_future composite no_key offset segFuture original_frames es0).
Proof.
  intros Hag. destruct segFuture as [l|]; [apply drain_agree, Hag|exact Hag].
Qed.

(** With no key pressed a drain only appends to the sink. *)
Lemma drain_future_no_key_grows (offset : nat) (segFuture : option (list Mask))
    (original_frames : list Frame) (es0 : @EmitState Out) :
  stopped es0 = false ->
  stopped (drain_future composite no_key offset segFuture original_frames es0)
  = false /\
  exists more,
    sink (drain_future composite no_key offset segFuture original_frames es0)
    = sink es0 ++ more.
Proof.
  intros Hs. destruct segFuture as [l|]; cbn [drain_future].
  2:{ split; [exact Hs|]. exists []. rewrite app_nil_r. reflexivity. }
  unfold drain.
  apply (for_loop_rel
           (fun (a : @EmitState Out) (_ : unit) =>
              stopped a = false /\ exists more, sink a = sink es0 ++ more)
           4 _ (fun _ u => u) es0 tt).
  - split; [exact Hs|]. exists []. rewrite app_nil_r. reflexivity.
  - intros i a _ _ (Ha & more & Hmore). rewrite Ha. unfold no_key. cbv iota.
    cbn [stopped sink]. split; [reflexivity|].
    eexists. rewrite Hmore, <- app_assoc. reflexivity.
Qed.

Lemma final_drain_no_key_grows (st : @LoopState Frame Mask Out) :
  stopped (ls_emit st) = false ->
  exists more, final_drain composite no_key st = sink (ls_emit st) ++ more.
Proof.
  intros Hs. unfold final_drain. rewrite Hs.
  destruct (drain_future_no_key_grows 0 (segFuture1 st) (ls_original_frames st)
              (ls_emit st) Hs) as (Hs1 & m1 & Hm1).
  rewrite Hs1.
  destruct (drain_future_no_key_grows 4 (segFuture2 st) (ls_original_frames st)
              _ Hs1) as (_ & m2 & Hm2).
  exists (m1 ++ m2). rewrite Hm2, Hm1, <- app_assoc. reflexivity.
Qed.

(** One iteration of [while (video.isOpened())]. *)
Lemma video_loop_S (k : nat -> bool) (fuel : nat) (st : @LoopState Frame Mask Out) :
  video_loop process_img segment composite k (S fuel) st
  = let rs := read_batch process_img (ls_video st) in
    match rs_batch_frames rs with
    | [] =>
        Some (mkLoopState (rs_video rs) (rs_original_frames rs)
                (segFuture1 st) (segFuture2 st) (ls_emit st))
    | _ :: _ =>
        let rs := pad_batch rs in
        let es := drain_future composite k 0 (segFuture1 st)
                    (rs_original_frames rs) (ls_emit st) in
        if stopped es
        then Some (mkLoopState (rs_video rs) (rs_original_frames rs) None
                     (segFuture2 st) es)
        else
          let es := drain_future composite k 4 (segFuture2 st)
                      (rs_original_frames rs) es in
          if stopped es
          then Some (mkLoopState (rs_video rs) (rs_original_frames rs) None None es)
          else
            video_loop process_img segment composite k fuel
              (mkLoopState (rs_video rs) (rs_original_frames rs)
                 (Some (segment <$> take 4 (rs_batch_frames rs)))
                 (Some (segment <$> drop 4 (rs_batch_frames rs))) es)
    end.
Proof. reflexivity. Qed.

Lemma video_loop_no_key_grows (fuel : nat) :
  forall st st' : @LoopState Frame Mask Out,
    stopped (ls_emit st) = false ->
    video_loop process_img segment composite no_key fuel st = Some st' ->
    exists more, final_drain composite no_key st' = sink (ls_emit st) ++ more.
Proof.
  induction fuel as [|fuel IH]; intros st st' Hs Hrun; [discriminate|].
  rewrite video_loop_S in Hrun. cbv zeta in Hrun.
  generalize dependent (read_batch process_img (ls_video st)). intros rs0 Hrun.
  destruct (rs_batch_frames rs0) as [|t ts].
  - injection Hrun as <-.
    exact (final_drain_no_key_grows (mkLoopState _ _ _ _ (ls_emit st)) Hs).
  - set (rs := pad_batch _) in Hrun.
    destruct (drain_future_no_key_grows 0 (segFuture1 st) (rs_original_frames rs)
                (ls_emit st) Hs) as (Hs1 & m1 & Hm1).
    rewrite Hs1 in Hrun.
    destruct (drain_future_no_key_grows 4 (segFuture2 st) (rs_original_frames rs)
                _ Hs1) as (Hs2 & m2 & Hm2).
    rewrite Hs2 in Hrun.
    destruct (IH (mkLoopState _ _ _ _ _) _ Hs2 Hrun) as (more & Hmore).
    exists (m1 ++ m2 ++ more).
    rewrite Hmore. cbn [ls_emit]. rewrite Hm2, Hm1, <- !app_assoc. reflexivity.
Qed.

Lemma final_drain_agree (st : @LoopState Frame Mask Out) :
  stopped (ls_emit st) = false ->
  shown (ls_emit st) = length (sink (ls_emit st)) ->
  (length (sink (ls_emit st)) <= q)%nat ->
  final_drain composite quit st = take q (final_drain composite no_key st).
Proof.
  intros Hs Hsh Hle. unfold final_drain. rewrite Hs.
  pose proof (drain_future_agree 0 (segFuture1 st) (ls_original_frames st) _ _
                (emit_agree_refl _ Hs Hsh Hle)) as (Hsh1 & Hs1 & Hcase).
  rewrite Hs1.
  destruct Hcase as [(Hq1 & Heq & Hle1)|(Hq1 & Hsink & Hlt)]; rewrite Hq1.
  - rewrite Heq.
    pose proof (drain_future_agree 4 (segFuture2 st) (ls_original_frames st) _ _
                  (emit_agree_refl _ Hs1 Hsh1 Hle1)) as (_ & _ & Hcase).
    destruct Hcase as [(_ & -> & Hle2)|(_ & -> & _)]; [|reflexivity].
    rewrite take_ge by exact Hle2. reflexivity.
  - destruct (drain_future_no_key_grows 4 (segFuture2 st) (ls_original_frames st)
                _ Hs1) as (_ & m2 & ->).
    rewrite take_app_le by lia. exact Hsink.
Qed.

(** The run with the key against the run without it. *)
Lemma video_loop_quit_agree (fuel : nat) :
  forall st st0' : @LoopState Frame Mask Out,
    stopped (ls_emit st) = false ->
    shown (ls_emit st) = length (sink (ls_emit st)) ->
    (length (sink (ls_emit st)) <= q)%nat ->
    video_loop process_img segment composite no_key fuel st = Some st0' ->
    exists st',
      video_loop process_img segment composite quit fuel st = Some st' /\
      final_drain composite quit st' = take q (final_drain composite no_key st0').
Proof.
  induction fuel as [|fuel IH]; intros st st0' Hs Hsh Hle Hrun; [discriminate|].
  rewrite video_loop_S in Hrun. rewrite video_loop_S. cbv zeta in Hrun |- *.
  generalize dependent (read_batch process_img (ls_video st)). intros rs0 Hrun.
  destruct (rs_batch_frames rs0) as [|t ts].
  - injection Hrun as <-. eexists. split; [reflexivity|].
    exact (final_drain_agree (mkLoopState _ _ _ _ (ls_emit st)) Hs Hsh Hle).
  - set (rs := pad_batch _) in Hrun |- *.
    pose proof (drain_future_agree 0 (segFuture1 st) (rs_original_frames rs) _ _
                  (emit_agree_refl _ Hs Hsh Hle)) as (Hsh1 & Hs1 & Hcase1).
    rewrite Hs1 in Hrun.
    pose proof (drain_future_no_key_grows 4 (segFuture2 st) (rs_original_frames rs)
                  _ Hs1) as (Hs2 & m2 & Hm2).
    rewrite Hs2 in Hrun.
    destruct (video_loop_no_key_grows fuel (mkLoopState _ _ _ _ _) _ Hs2 Hrun)
      as (more & Hmore).
    cbn [ls_emit] in Hmore.
    destruct Hcase1 as [(Hq1 & Heq1 & Hle1)|(Hq1 & Hsink1 & Hlt1)]; rewrite Hq1.
    + rewrite Heq1.
      pose proof (drain_future_agree 4 (segFuture2 st) (rs_original_frames rs) _ _
                    (emit_agree_refl _ Hs1 Hsh1 Hle1)) as (Hsh2 & _ & Hcase2).
      destruct Hcase2 as [(Hq2 & Heq2 & Hle2)|(Hq2 & Hsink2 & Hlt2)]; rewrite Hq2.
      * rewrite Heq2. apply (IH (mkLoopState _ _ _ _ _) _ Hs2); [exact Hsh2|exact Hle2|exact Hrun].
      * eexists. split; [reflexivity|].
        unfold final_drain at 1. cbn [ls_emit]. rewrite Hq2, Hmore.
        rewrite take_app_le by lia. exact Hsink2.
    + eexists. split; [reflexivity|].
      unfold final_drain at 1. cbn [ls_emit]. rewrite Hq1, Hmore, Hm2.
      rewrite <- app_assoc, take_app_le by lia. exact Hsink1.
Qed.

End Quit.

End VideoMoreFacts.

Module VideoProps.
Import Video Notions VideoFacts VideoMoreNotions VideoMoreFacts.

(** In glow_effect_video (and glow_effect_video_graph, which has the same
    loop) the masks of a batch are blended one iteration late, on the
    frames read since. With no key pressed, write [k] carries the mask of
    frame [k] of the video filled up with copies of its last frame, and is
    blended on slot [k + 8] of it: on frame [k + 8], not on frame [k]. The
    last eight writes read [original_frames] after the loop has cleared
    it, where no slot is present. *)
Theorem video_masks_lag_eight_frames {Frame Tensor Mask Out : Type}
    (process_img : Frame -> Tensor) (segment : Tensor -> Mask)
    (composite : option Frame -> option Mask -> Out) (quit : nat -> bool)
    (video : list Frame) :
  (forall n, quit n = false) ->
  exists sink,
    glow_effect_video process_img segment composite quit video = Some sink /\
    length sink = length (padded video) /\
    forall (k : nat) (f : Frame), padded video !! k = Some f ->
      sink !! k
      = Some (composite (padded video !! (k + 8)%nat)
                (Some (segment (process_img f)))).
Proof.
  intros Hquit.
  destruct (video_loop_lag process_img segment composite quit Hquit
              (S (length video)) video [] None [] 0%nat) as (st & Hst & Hfinal);
    [lia|exact I|].
  cbn [pending_masks app] in Hfinal.
  exists (final_drain composite quit st). split; [|split].
  - unfold glow_effect_video.
    exact (f_equal (fmap (final_drain composite quit)) Hst).
  - rewrite Hfinal. unfold lagged_bases.
    rewrite length_zip_with, !length_fmap, length_seq. lia.
  - intros k f Hk. rewrite Hfinal. unfold lagged_bases.
    pose proof (lookup_lt_Some _ _ _ Hk) as Hlt.
    rewrite lookup_zip_with, !list_lookup_fmap, lookup_seq_lt by exact Hlt.
    rewrite Hk. cbn [fmap option_fmap option_map mbind option_bind].
    rewrite (Nat.add_comm k 8). reflexivity.
Qed.

Lemma video_masks_lag_eight_frames_witness :
  glow_effect_video (fun f : nat => f) (fun t : nat => (t + 100)%nat)
    (fun (b : option nat) (m : option nat) => (b, m)) (fun _ => false) (seq 0 10)
    ≫= (fun sink => sink !! 1%nat)
  = Some (Some 9%nat, Some 101%nat).
Proof.
  destruct (video_masks_lag_eight_frames (fun f : nat => f)
              (fun t : nat => (t + 100)%nat)
              (fun (b : option nat) (m : option nat) => (b, m)) (fun _ => false)
              (seq 0 10) (fun _ => eq_refl)) as (sink & -> & _ & Hat).
  exact (Hat 1%nat 1%nat eq_refl).
Defined.

(** The quit key cuts the output and changes nothing before it. If ['q']
    is first pressed at the display of frame [q] (counting displays from
    0), glow_effect_video writes exactly the first [q] frames it writes
    when no key is pressed: the frame on display when the key is pressed
    is shown but not written, and nothing pending is drained. *)
Theorem quit_key_keeps_first_writes {Frame Tensor Mask Out : Type}
    (process_img : Frame -> Tensor) (segment : Tensor -> Mask)
    (composite : option Frame -> option Mask -> Out) (quit : nat -> bool)
    (q : nat) (video : list Frame) :
  (forall k, (k < q)%nat -> quit k = false) -> quit q = true ->
  exists sink0,
    glow_effect_video process_img segment composite no_key video = Some sink0 /\
    glow_effect_video process_img segment composite quit video
    = Some (take q sink0).
Proof.
  intros Hbefore Hq. unfold glow_effect_video.
  destruct (video_loop_lag process_img segment composite no_key
              (fun _ => eq_refl) (S (length video)) video [] None [] 0%nat)
    as (st0 & Hst0 & _); [lia|exact I|].
  cbn [fmap option_fmap option_map] in Hst0.
  destruct (video_loop_quit_agree process_img segment composite quit q Hbefore Hq
              (S (length video))
              (mkLoopState video [] None None (mkEmitState [] 0 false)) st0)
    as (st & Hst & Hfinal); [reflexivity|reflexivity|simpl; lia|exact Hst0|].
  exists (final_drain composite no_key st0).
  rewrite Hst0, Hst. cbn [fmap option_fmap option_map].
  split; [reflexivity|]. rewrite Hfinal. reflexivity.
Qed.

Lemma quit_key_keeps_first_writes_witness :
  glow_effect_video (fun f : nat => f) (fun t : nat => (t + 100)%nat)
    (fun (b : option nat) (m : option nat) => (b, m)) (fun k => (k =? 2)%nat)
    (seq 0 10)
  = Some [(Some 8%nat, Some 100%nat); (Some 9%nat, Some 101%nat)].
Proof.
  destruct (quit_key_keeps_first_writes (fun f : nat => f)
              (fun t : nat => (t + 100)%nat)
              (fun (b : option nat) (m : option nat) => (b, m))
              (fun k => (k =? 2)%nat) 2%nat (seq 0 10))
    as (sink0 & Hsink0 & ->).
  - intros k Hk. apply Nat.eqb_neq. lia.
  - reflexivity.
  - vm_compute in Hsink0. injection Hsink0 as <-. reflexivity.
Defined.

End VideoProps.

(** ** The orchestrator with batches of two *)

Module VideoSingleFacts.
Import Video VideoSingle VideoSingleNotions.

Lemma pad2_one {Frame : Type} (f : Frame) : pad2 [f] = [f; f].
Proof. reflexivity. Qed.

Lemma pad2_cons2 {Frame : Type} (f g : Frame) (rest : list Frame) :
  pad2 (f :: g :: rest) = f :: g :: pad2 rest.
Proof.
  unfold pad2. rewrite !last_cons.
  destruct (last rest) as [l|] eqn:Hlast.
  - cbn [length]. replace (S (S (length rest)) mod 2)%nat with (length rest mod 2)%nat.
    + reflexivity.
    + change (S (S (length rest))) with (2 + length rest)%nat.
      rewrite Nat.add_comm.
      exact (eq_sym (Nat.Div0.mod_add (length rest) 1 2)).
  - apply last_None in Hlast. subst rest. reflexivity.
Qed.

Lemma length_pad2 {Frame : Type} (video : list Frame) :
  length (pad2 video) = (2 * ((length video + 1) / 2))%nat.
Proof.
  unfold pad2. destruct (last video) as [l|] eqn:Hlast.
  - rewrite length_app, length_replicate.
    pose proof (Nat.div_mod_eq (length video) 2) as Hdm.
    pose proof (Nat.mod_upper_bound (length video) 2 ltac:(lia)) as Hm.
    pose proof (Nat.div_mod_eq (length video + 1) 2) as Hdm'.
    pose proof (Nat.mod_upper_bound (length video + 1) 2 ltac:(lia)) as Hm'.
    lia.
  - apply last_None in Hlast. subst video. reflexivity.
Qed.

Lemma lookup_pad2 {Frame : Type} (video : list Frame) (k : nat) (f : Frame) :
  video !! k = Some f -> pad2 video !! k = Some f.
Proof.
  intros Hk. unfold pad2. destruct (last video) as [l|] eqn:Hlast.
  - apply lookup_app_l_Some. exact Hk.
  - apply last_None in Hlast. subst video. discriminate.
Qed.

Section Aligned.
Context {Frame Tensor Mask RMask Glow Mip Out : Type}.
Variable process_img : Frame -> Tensor.
Variable segment_batch : nat -> list Tensor -> list Mask.
Variable first_pass : Frame -> Mask -> FirstPass RMask Glow.
Variable blank_mask : Frame -> RMask.
Variable blank_glow : Frame -> Glow.
Variable pipeline : nat -> list RMask -> option (list Mip).
Variable blend : Frame -> Glow -> Mip -> option Out.
Variable blank_output : Out.
Variable quit : nat -> bool.
Variable segment : Tensor -> Mask.
Variable resize : Frame -> Mask -> RMask.
Variable glow : Frame -> Mask -> Glow.
Variable mipmap : RMask -> Mip.

Hypothesis segment_each :
  forall b t u, segment_batch b [t; u] = [segment t; segment u].
Hypothesis first_pass_returns :
  forall f m, first_pass f m = Prepared (resize f m) (glow f m).
Hypothesis pipeline_each :
  forall b r s, pipeline b [r; s] = Some [mipmap r; mipmap s].
Hypothesis never_quit : forall n, quit n = false.

Local Abbreviation own :=
  (own_output process_img segment resize glow mipmap blend blank_output).
Local Abbreviation run :=
  (main_loop process_img segment_batch first_pass blank_mask blank_glow pipeline
     blend blank_output quit).

Lemma read_batch_two (f g : Frame) (rest : list Frame) :
  read_batch process_img (f :: g :: rest)
  = mkReadState rest [process_img f; process_img g] [f; g] false.
Proof. reflexivity. Qed.

Lemma read_batch_one (f : Frame) :
  read_batch process_img [f]
  = mkReadState [] [process_img f; process_img f] [f; f] false.
Proof. reflexivity. Qed.

Lemma first_pass_two (f g : Frame) (m n : Mask) :
  first_pass_loop first_pass blank_mask blank_glow [f; g] [m; n]
  = ([resize f m; resize g n], [glow f m; glow g n]).
Proof.
  unfold first_pass_loop. cbn [length Nat.min].
  rewrite !for_loop_S, for_loop_0. unfold first_pass_step.
  cbn [lookup list_lookup]. rewrite !first_pass_returns. reflexivity.
Qed.

Lemma final_loop_two (f g : Frame) (a b : Glow) (p r : Mip) (sk : list Out)
    (sh : nat) :
  final_loop blend blank_output quit [f; g] [a; b] [p; r] (mkEmitState sk sh false)
  = mkEmitState
      (sk ++ [default blank_output (blend f a p); default blank_output (blend g b r)])
      (S (S sh)) false.
Proof.
  unfold final_loop. cbn [length Nat.min].
  rewrite !for_loop_S, for_loop_0. unfold final_step.
  cbn [lookup list_lookup stopped shown sink].
  destruct (blend f a p) as [o1|]; rewrite ?never_quit;
    cbn [stopped shown sink]; destruct (blend g b r) as [o2|];
    rewrite ?never_quit; cbn [sink default]; rewrite <- app_assoc; reflexivity.
Qed.

(** One iteration of [while (processing)] on a batch of two frames. *)
Lemma main_loop_batch (fuel b : nat) (video rest : list Frame) (f g : Frame)
    (sk : list Out) (sh : nat) :
  read_batch process_img video
  = mkReadState rest [process_img f; process_img g] [f; g] false ->
  run (S fuel) b video (mkEmitState sk sh false)
  = run fuel (S b) rest (mkEmitState (sk ++ [own f; own g]) (S (S sh)) false).
Proof.
  intros Hread. cbn [main_loop]. rewrite Hread.
  cbn [rs_broken rs_batch_frames rs_original_frames rs_video length Nat.eqb orb].
  rewrite segment_each, first_pass_two. cbn [fst snd length Nat.eqb].
  rewrite pipeline_each, final_loop_two. cbn [stopped].
  unfold own_output.
  destruct (blend f _ _), (blend g _ _); reflexivity.
Qed.

Lemma main_loop_aligned (fuel : nat) :
  forall (video : list Frame) (b : nat) (sk : list Out) (sh : nat),
    (length video < fuel)%nat ->
    run fuel b video (mkEmitState sk sh false)
    = Some (Returned (sk ++ (own <$> pad2 video))).
Proof.
  induction fuel as [|fuel IH]; intros video b sk sh Hfuel; [lia|].
  destruct video as [|f [|g rest]].
  - cbn [main_loop]. change (pad2 []) with (@nil Frame).
    rewrite fmap_nil, app_nil_r. reflexivity.
  - rewrite (main_loop_batch fuel b [f] [] f f sk sh (read_batch_one f)).
    destruct fuel as [|fuel]; [simpl in Hfuel; lia|].
    cbn [main_loop]. rewrite pad2_one. reflexivity.
  - rewrite (main_loop_batch fuel b _ rest f g sk sh (read_batch_two f g rest)).
    rewrite IH by (simpl in Hfuel; lia).
    rewrite pad2_cons2, !fmap_cons, <- app_assoc. reflexivity.
Qed.

End Aligned.

End VideoSingleFacts.

Module VideoSingleProps.
Import Video VideoSingle VideoSingleNotions VideoSingleFacts.

(** glow_effect_video_single_batch_parallel blends every frame with its
    own mask. When, on every batch of two, the segmentation returns the
    masks of the two tensors and the mipmap pipeline the results of the two
    masks, no step of the first pass throws and no key is pressed, write
    [k] is frame [k] blended with the overlay and the mipmap of the mask of
    frame [k] (the blank frame if the blend throws); a video with an odd
    number of frames has its last frame written twice, so [N] frames give
    [2 * ceil(N / 2)] writes. *)
Theorem single_batch_video_blends_own_mask
    {Frame Tensor Mask RMask Glow Mip Out : Type}
    (process_img : Frame -> Tensor) (segment_batch : nat -> list Tensor -> list Mask)
    (first_pass : Frame -> Mask -> FirstPass RMask Glow)
    (blank_mask : Frame -> RMask) (blank_glow : Frame -> Glow)
    (pipeline : nat -> list RMask -> option (list Mip))
    (blend : Frame -> Glow -> Mip -> option Out) (blank_output : Out)
    (quit : nat -> bool) (segment : Tensor -> Mask) (resize : Frame -> Mask -> RMask)
    (glow : Frame -> Mask -> Glow) (mipmap : RMask -> Mip) (video : list Frame) :
  (forall b t u, segment_batch b [t; u] = [segment t; segment u]) ->
  (forall f m, first_pass f m = Prepared (resize f m) (glow f m)) ->
  (forall b r s, pipeline b [r; s] = Some [mipmap r; mipmap s]) ->
  (forall n, quit n = false) ->
  exists written,
    glow_effect_video_single_batch_parallel process_img segment_batch first_pass
      blank_mask blank_glow pipeline blend blank_output quit setup_ok video
    = Some (Returned written) /\
    length written = (2 * ((length video + 1) / 2))%nat /\
    (forall (k : nat) (f : Frame), video !! k = Some f ->
       written !! k
       = Some (own_output process_img segment resize glow mipmap blend
                 blank_output f)) /\
    (forall f : Frame, last video = Some f -> Nat.odd (length video) = true ->
       written !! length video
       = Some (own_output process_img segment resize glow mipmap blend
                 blank_output f)).
Proof.
  intros Hseg Hfp Hpipe Hquit.
  exists (own_output process_img segment resize glow mipmap blend blank_output
            <$> pad2 video).
  split; [|split; [|split]].
  - unfold glow_effect_video_single_batch_parallel. cbn [setup_ok video_opened
      output_folder_ok output_video_opened plan_file_opened engine_deserialized negb].
    rewrite (main_loop_aligned process_img segment_batch first_pass blank_mask
               blank_glow pipeline blend blank_output quit segment resize glow
               mipmap Hseg Hfp Hpipe Hquit) by lia.
    reflexivity.
  - rewrite length_fmap. apply length_pad2.
  - intros k f Hk. rewrite list_lookup_fmap, (lookup_pad2 video k f Hk).
    reflexivity.
  - intros f Hlast Hodd. rewrite list_lookup_fmap. unfold pad2. rewrite Hlast.
    rewrite lookup_app_r by lia. rewrite Nat.sub_diag.
    replace (length video mod 2)%nat with 1%nat; [reflexivity|].
    rewrite Nat.odd_spec in Hodd. destruct Hodd as [m Hm].
    rewrite Hm, Nat.add_comm, Nat.mul_comm, Nat.Div0.mod_add. reflexivity.
Qed.

Lemma single_batch_video_blends_own_mask_witness :
  glow_effect_video_single_batch_parallel (fun f : nat => f)
    (fun (_ : nat) (ts : list nat) => (fun t : nat => (t + 100)%nat) <$> ts)
    (fun (f m : nat) => Prepared (f + m)%nat (f * m)%nat)
    (fun f : nat => 0%nat) (fun f : nat => 0%nat)
    (fun (_ : nat) (rs : list nat) => Some ((fun r : nat => (2 * r)%nat) <$> rs))
    (fun (f g p : nat) => if (f =? 1)%nat then None else Some (f, g, p)) (0, 0, 0)%nat
    (fun _ => false) setup_ok [1; 2; 3]%nat
  = Some (Returned [(0, 0, 0); (2, 204, 208); (3, 309, 212); (3, 309, 212)]%nat).
Proof.
  pose proof (single_batch_video_blends_own_mask (fun f : nat => f)
                (fun (_ : nat) (ts : list nat) => (fun t : nat => (t + 100)%nat) <$> ts)
                (fun (f m : nat) => Prepared (f + m)%nat (f * m)%nat)
                (fun f : nat => 0%nat) (fun f : nat => 0%nat)
                (fun (_ : nat) (rs : list nat) => Some ((fun r : nat => (2 * r)%nat) <$> rs))
                (fun (f g p : nat) => if (f =? 1)%nat then None else Some (f, g, p))
                (0, 0, 0)%nat (fun _ => false) (fun t : nat => (t + 100)%nat)
                (fun f m : nat => (f + m)%nat) (fun f m : nat => (f * m)%nat)
                (fun r : nat => (2 * r)%nat) [1; 2; 3]%nat) as Hthm.
  destruct Hthm as (written & Hrun & _).
  { intros b t u. reflexivity. }
  { intros f m. reflexivity. }
  { intros b r s. reflexivity. }
  { intros n. reflexivity. }
  rewrite Hrun. vm_compute in Hrun. injection Hrun as <-. reflexivity.
Defined.

End VideoSingleProps.

(** ** The optimized video path, from the engine to the written frame *)

Module EndToEndProps.
Import Trt TrtMore WorkerNotions SingleFacts.
Import Video VideoSingle VideoSingleNotions VideoSingleFacts.

(** glow_effect_video_single_batch_parallel on top of
    measure_segmentation_trt_performance_single_batch_parallel_preloaded:
    with two streams every worker has one image, so whatever the graph
    capture and the graph launch answer and whichever device buffers
    cudaMalloc returns, when the contexts are created and the inference and
    copies of every batch succeed, write [k] is frame [k] blended with the
    overlay and the mipmap of the argmax mask of frame [k] itself. *)
Theorem optimized_video_uses_own_argmax_mask
    {Frame Tensor Scores Mask RMask Glow Mip Out : Type}
    `{Engine Tensor Scores Mask} (process_img : Frame -> Tensor)
    (createExecutionContext_ok : nat -> nat -> bool) (dims_ok : Tensor -> bool)
    (inference_ok : nat -> nat -> bool) (capture : nat -> nat -> CaptureOutcome)
    (cudaGraphLaunch_ok copy_back_ok : nat -> nat -> bool)
    (d_output d_argmax_output : nat -> nat -> nat) (mem : nat -> DevMem)
    (first_pass : Frame -> HostMask Scores Mask -> FirstPass RMask Glow)
    (blank_mask : Frame -> RMask) (blank_glow : Frame -> Glow)
    (pipeline : nat -> list RMask -> option (list Mip))
    (blend : Frame -> Glow -> Mip -> option Out) (blank_output : Out)
    (quit : nat -> bool) (resize : Frame -> HostMask Scores Mask -> RMask)
    (glow : Frame -> HostMask Scores Mask -> Glow) (mipmap : RMask -> Mip)
    (video : list Frame) :
  let segment_batch := fun (batch_count : nat) (frame_tensors : list Tensor) =>
    measure_segmentation_trt_performance_single_batch_parallel_preloaded
      NUM_PARALLEL_STREAMS (createExecutionContext_ok batch_count) dims_ok
      (inference_ok batch_count) (capture batch_count)
      (cudaGraphLaunch_ok batch_count) (copy_back_ok batch_count)
      (d_output batch_count) (d_argmax_output batch_count) true frame_tensors
      (mem batch_count) in
  let argmax_mask := fun t : Tensor =>
    CopiedFrom (Some (MaskBuf (argmax_kernel (infer t)))) in
  (forall b t, createExecutionContext_ok b t = true) ->
  (forall f, dims_ok (process_img f) = true) ->
  (forall b idx, inference_ok b idx = true) ->
  (forall b idx, copy_back_ok b idx = true) ->
  (forall f m, first_pass f m = Prepared (resize f m) (glow f m)) ->
  (forall b r s, pipeline b [r; s] = Some [mipmap r; mipmap s]) ->
  (forall n, quit n = false) ->
  exists written,
    glow_effect_video_single_batch_parallel process_img segment_batch first_pass
      blank_mask blank_glow pipeline blend blank_output quit setup_ok video
    = Some (Returned written) /\
    length written = (2 * ((length video + 1) / 2))%nat /\
    forall (k : nat) (f : Frame), video !! k = Some f ->
      written !! k
      = Some (own_output process_img argmax_mask resize glow mipmap blend
                blank_output f).
Proof.
  intros segment_batch argmax_mask Hctx Hdims Hinf Hcopy Hfp Hpipe Hquit.
  pose (masked := fun t : Tensor => if dims_ok t then argmax_mask t else EmptyMat).
  assert (Hseg : forall b t u, segment_batch b [t; u] = [masked t; masked u]).
  { intros b t u. unfold segment_batch, NUM_PARALLEL_STREAMS.
    rewrite preloaded_two, !Hctx, !Hinf, !Hcopy. unfold masked, expected_slot.
    destruct (dims_ok t), (dims_ok u); reflexivity. }
  exists (own_output process_img masked resize glow mipmap blend blank_output
            <$> pad2 video).
  split; [|split].
  - unfold glow_effect_video_single_batch_parallel. cbn [setup_ok video_opened
      output_folder_ok output_video_opened plan_file_opened engine_deserialized negb].
    rewrite (main_loop_aligned process_img segment_batch first_pass blank_mask
               blank_glow pipeline blend blank_output quit masked resize glow
               mipmap Hseg Hfp Hpipe Hquit) by lia.
    reflexivity.
  - rewrite length_fmap. apply length_pad2.
  - intros k f Hk. rewrite list_lookup_fmap, (lookup_pad2 video k f Hk).
    cbn [fmap option_fmap option_map]. unfold own_output, masked.
    rewrite Hdims. reflexivity.
Qed.

Lemma optimized_video_uses_own_argmax_mask_witness :
  exists written,
    @glow_effect_video_single_batch_parallel nat nat (HostMask nat nat) nat nat nat
      (nat * nat * nat) (fun f => f)
      (fun (b : nat) (ts : list nat) =>
         @measure_segmentation_trt_performance_single_batch_parallel_preloaded
           nat nat nat Examples.toy_engine NUM_PARALLEL_STREAMS (fun _ => true)
           (fun _ => true) (fun _ => true) (fun _ => EndCaptureFails)
           (fun _ => false) (fun _ => true) (fun idx => idx) (fun idx => (idx + 7)%nat)
           true ts (fun _ => None))
      (fun f m => Prepared f (match m with CopiedFrom (Some (MaskBuf v)) => v | _ => 0 end)%nat)
      (fun _ => 0%nat) (fun _ => 0%nat)
      (fun (_ : nat) (rs : list nat) => Some ((fun r => (2 * r)%nat) <$> rs))
      (fun f g p => Some (f, g, p)) (0, 0, 0)%nat (fun _ => false) setup_ok [1; 2]%nat
    = Some (Returned written) /\
    written !! 1%nat = Some (2, 306, 4)%nat.
Proof.
  pose proof (@optimized_video_uses_own_argmax_mask nat nat nat nat nat nat nat
                (nat * nat * nat) Examples.toy_engine (fun f => f)
                (fun _ _ => true) (fun _ => true) (fun _ _ => true)
                (fun _ _ => EndCaptureFails) (fun _ _ => false) (fun _ _ => true)
                (fun _ idx => idx) (fun _ idx => (idx + 7)%nat) (fun _ _ => None)
                (fun f m => Prepared f (match m with CopiedFrom (Some (MaskBuf v)) => v | _ => 0 end)%nat)
                (fun _ => 0%nat) (fun _ => 0%nat)
                (fun (_ : nat) (rs : list nat) => Some ((fun r => (2 * r)%nat) <$> rs))
                (fun f g p => Some (f, g, p)) (0, 0, 0)%nat (fun _ => false)
                (fun f _ => f)
                (fun _ m => match m with CopiedFrom (Some (MaskBuf v)) => v | _ => 0 end)%nat
                (fun r => (2 * r)%nat) [1; 2]%nat) as Hthm.
  cbv zeta in Hthm.
  destruct Hthm as (written & Hrun & _ & Hat).
  { intros b t. reflexivity. }
  { intros f. reflexivity. }
  { intros b idx. reflexivity. }
  { intros b idx. reflexivity. }
  { intros f m. reflexivity. }
  { intros b r s. reflexivity. }
  { intros n. reflexivity. }
  exists written. split; [exact Hrun|].
  exact (Hat 1%nat 2%nat eq_refl).
Defined.

End EndToEndProps.
